(** * A shallow embedding of the Git object model and graph algorithms

    The development follows the two source modules of the visualizer:
    the Git data structures (fingerprints, blobs, trees, commits and the
    repository with its object store and ref table) and the graph
    algorithms that run on the commit-graph snapshot (topological sort,
    layered layout, breadth-first shortest path and cycle detection).

    JavaScript values are modelled as follows.
    - A string is its sequence of UTF-16 code units ([jsstring]).
    - An array is a list; [push] appends at the end, [shift] removes the
      head.
    - [Map] and [Set] keep insertion order, so they are association lists
      and duplicate-free lists ([jsmap], [jsset]).
    - Closures that mutate captured variables become functions that pass
      the captured state explicitly.
    - Recursion and [while] loops carry a fuel argument; [None] means that
      the fuel ran out. *)

From Stdlib Require Import String Ascii.
From Stdlib Require Import List ZArith NArith Bool Lia Arith.
From Stdlib Require Import QArith Relations.
From Stdlib Require Import DecimalNat.
Import ListNotations.

Set Implicit Arguments.

(* ================================================================= *)
(** ** JavaScript strings *)

Definition jsstring := list N.

(** A literal of the development: every character is one code unit. *)
Definition str (s : string) : jsstring :=
  map N_of_ascii (list_ascii_of_string s).

Fixpoint jseqb (a b : jsstring) : bool :=
  match a, b with
  | [], [] => true
  | x :: a', y :: b' => N.eqb x y && jseqb a' b'
  | _, _ => false
  end.

(** A string is falsy exactly when it is empty. *)
Definition truthy (s : jsstring) : bool :=
  match s with [] => false | _ :: _ => true end.

(* ================================================================= *)
(** ** Keys with a decidable equality, [Map] and [Set] *)

Class EqKey (K : Type) := {
  keqb : K -> K -> bool;
  keqb_spec : forall a b, reflect (a = b) (keqb a b)
}.

#[export] Instance EqKey_jsstring : EqKey jsstring.
Proof.
  refine {| keqb := jseqb; keqb_spec := _ |}.
  induction a as [|x a IH]; destruct b as [|y b]; simpl;
    try (constructor; congruence).
  destruct (N.eqb_spec x y); simpl.
  - destruct (IH b); constructor; congruence.
  - constructor; congruence.
Defined.

#[export] Instance EqKey_Z : EqKey Z :=
  {| keqb := Z.eqb; keqb_spec := Z.eqb_spec |}.

Section Containers.
Context {K : Type} `{EqKey K}.

(** [Set]: [has], [add] (keeps the first insertion), [delete]. *)
Definition jsset := list K.

Fixpoint set_has (s : jsset) (k : K) : bool :=
  match s with
  | [] => false
  | x :: s' => keqb k x || set_has s' k
  end.

Definition set_add (s : jsset) (k : K) : jsset :=
  if set_has s k then s else s ++ [k].

Fixpoint set_delete (s : jsset) (k : K) : jsset :=
  match s with
  | [] => []
  | x :: s' => if keqb k x then set_delete s' k else x :: set_delete s' k
  end.

Variable V : Type.

(** [Map]: [get], [has], [set] (an existing key keeps its position). *)
Definition jsmap := list (K * V).

Fixpoint map_get (m : jsmap) (k : K) : option V :=
  match m with
  | [] => None
  | (k', v) :: m' => if keqb k k' then Some v else map_get m' k
  end.

Definition map_has (m : jsmap) (k : K) : bool :=
  match map_get m k with Some _ => true | None => false end.

Fixpoint map_set (m : jsmap) (k : K) (v : V) : jsmap :=
  match m with
  | [] => [(k, v)]
  | (k', v') :: m' =>
      if keqb k k' then (k, v) :: m' else (k', v') :: map_set m' k v
  end.

Definition map_keys (m : jsmap) : list K := map fst m.
Definition map_values (m : jsmap) : list V := map snd m.
End Containers.

Arguments jsset K : clear implicits.
Arguments jsmap K V : clear implicits.

(** [forEach] over an array with a callback that may run out of fuel. *)
Fixpoint forEach_opt {A S : Type} (f : A -> S -> option S) (l : list A) (s : S)
  : option S :=
  match l with
  | [] => Some s
  | a :: l' =>
      match f a s with
      | Some s' => forEach_opt f l' s'
      | None => None
      end
  end.

(* ================================================================= *)
(** ** Fingerprinting: [GitHash.generate] *)

Module GitHash.

(** The values handed to [JSON.stringify]: strings, arrays and objects
    with their own properties in creation order. *)
#[warnings="-register-all"]
Inductive json : Type :=
| JStr (s : jsstring)
| JArr (items : list json)
| JObj (fields : list (jsstring * json)).

Definition hexdigit (d : Z) : N :=
  if (d <? 10)%Z then Z.to_N (48 + d) else Z.to_N (87 + d).

(** [\uXXXX] with four lower-case hex digits. *)
Definition uescape (c : N) : jsstring :=
  let z := Z.of_N c in
  [92%N; 117%N;
   hexdigit ((z / 4096) mod 16); hexdigit ((z / 256) mod 16);
   hexdigit ((z / 16) mod 16); hexdigit (z mod 16)].

Definition is_high (c : N) : bool := ((55296 <=? c) && (c <=? 56319))%N.
Definition is_low (c : N) : bool := ((56320 <=? c) && (c <=? 57343))%N.

(** One code unit that is not part of a surrogate pair. *)
Definition quote_unit (c : N) : jsstring :=
  if (c =? 8)%N then [92; 98]%N
  else if (c =? 9)%N then [92; 116]%N
  else if (c =? 10)%N then [92; 110]%N
  else if (c =? 12)%N then [92; 102]%N
  else if (c =? 13)%N then [92; 114]%N
  else if (c =? 34)%N then [92; 34]%N
  else if (c =? 92)%N then [92; 92]%N
  else if (c <? 32)%N then uescape c
  else if is_high c || is_low c then uescape c
  else [c].

(** The body of a quoted JSON string: the string is read by code points,
    so a high surrogate followed by a low one is copied as it is. *)
Fixpoint quote_units (s : jsstring) : jsstring :=
  match s with
  | [] => []
  | c :: rest =>
      if is_high c then
        match rest with
        | d :: rest' =>
            if is_low d then c :: d :: quote_units rest'
            else quote_unit c ++ quote_units rest
        | [] => quote_unit c
        end
      else quote_unit c ++ quote_units rest
  end.

Definition quote (s : jsstring) : jsstring :=
  34%N :: quote_units s ++ [34%N].

Fixpoint join_comma (l : list jsstring) : jsstring :=
  match l with
  | [] => []
  | [x] => x
  | x :: l' => x ++ 44%N :: join_comma l'
  end.

Fixpoint stringify (j : json) : jsstring :=
  match j with
  | JStr s => quote s
  | JArr items => 91%N :: join_comma (map stringify items) ++ [93%N]
  | JObj fields =>
      123%N ::
      join_comma
        (map (fun kv => quote (fst kv) ++ 58%N :: stringify (snd kv)) fields)
      ++ [125%N]
  end.

(** [ToInt32]: the result of [<<] and of [&]. *)
Definition toInt32 (z : Z) : Z := ((z + 2 ^ 31) mod 2 ^ 32 - 2 ^ 31)%Z.

(** One round of the loop: [hash = ((hash << 5) - hash) + char;
    hash = hash & hash]. *)
Definition step (hash : Z) (char : N) : Z :=
  toInt32 (toInt32 (Z.shiftl hash 5) - hash + Z.of_N char)%Z.

Definition hash32 (s : jsstring) : Z := fold_left step s 0%Z.

(** [Number.prototype.toString(16)] on a non-negative integer. *)
Fixpoint hex_aux (fuel : nat) (n : Z) (acc : jsstring) : jsstring :=
  match fuel with
  | O => acc
  | S f =>
      let acc' := hexdigit (n mod 16) :: acc in
      if (n / 16 =? 0)%Z then acc' else hex_aux f (n / 16) acc'
  end.

Definition toString16 (n : Z) : jsstring :=
  hex_aux (S (Z.to_nat (Z.log2 n))) n [].

Definition padStart (len : nat) (fill : N) (s : jsstring) : jsstring :=
  repeat fill (len - length s) ++ s.

(** [Math.abs(hash).toString(16).padStart(40, '0').slice(0, 40)]. *)
Definition fingerprint (hash : Z) : jsstring :=
  firstn 40 (padStart 40 48%N (toString16 (Z.abs hash))).

Definition generate (content : json) : jsstring :=
  fingerprint (hash32 (stringify content)).

End GitHash.

(* ================================================================= *)
(** ** The object model: blobs, trees and commits *)

Module GitBlob.
Record t := mk { content : jsstring; hash : jsstring }.

Definition json_of (content : jsstring) : GitHash.json :=
  GitHash.JObj [(str "type", GitHash.JStr (str "blob"));
                (str "content", GitHash.JStr content)].

(** [new GitBlob(content)] *)
Definition new (content : jsstring) : t :=
  {| content := content; hash := GitHash.generate (json_of content) |}.
End GitBlob.

Module GitTree.
(** An entry [{ mode, name, hash, type }]. *)
Record entry := mkEntry {
  e_mode : jsstring; e_name : jsstring; e_hash : jsstring; e_type : jsstring
}.

Record t := mk { entries : list entry; hash : jsstring }.

Definition json_of_entry (e : entry) : GitHash.json :=
  GitHash.JObj [(str "mode", GitHash.JStr (e_mode e));
                (str "name", GitHash.JStr (e_name e));
                (str "hash", GitHash.JStr (e_hash e));
                (str "type", GitHash.JStr (e_type e))].

Definition json_of (entries : list entry) : GitHash.json :=
  GitHash.JObj [(str "type", GitHash.JStr (str "tree"));
                (str "entries", GitHash.JArr (map json_of_entry entries))].

(** [new GitTree(entries)] *)
Definition new (entries : list entry) : t :=
  {| entries := entries; hash := GitHash.generate (json_of entries) |}.

(** [addEntry(mode, name, hash, type)]: push the entry, recompute the
    fingerprint over the extended array. *)
Definition addEntry (tr : t) (mode name hash type : jsstring) : t :=
  let entries' := entries tr ++ [mkEntry mode name hash type] in
  {| entries := entries'; hash := GitHash.generate (json_of entries') |}.
End GitTree.

Module GitCommit.
Record t := mk {
  tree : jsstring;
  parents : list jsstring;
  author : jsstring;
  message : jsstring;
  timestamp : jsstring;
  hash : jsstring
}.

Definition json_of (tree : jsstring) (parents : list jsstring)
    (author message timestamp : jsstring) : GitHash.json :=
  GitHash.JObj [(str "type", GitHash.JStr (str "commit"));
                (str "tree", GitHash.JStr tree);
                (str "parents", GitHash.JArr (map GitHash.JStr parents));
                (str "author", GitHash.JStr author);
                (str "message", GitHash.JStr message);
                (str "timestamp", GitHash.JStr timestamp)].

(** [new GitCommit(tree, parents, author, message, timestamp)].  The
    clock reading [now] stands for [new Date().toISOString()], used when
    the [timestamp] argument is missing or falsy. *)
Definition new (tree : jsstring) (parents : list jsstring)
    (author message : jsstring) (timestamp : option jsstring)
    (now : jsstring) : t :=
  let ts := match timestamp with
            | Some s => if truthy s then s else now
            | None => now
            end in
  {| tree := tree; parents := parents; author := author;
     message := message; timestamp := ts;
     hash := GitHash.generate (json_of tree parents author message ts) |}.
End GitCommit.

Inductive GitObject : Type :=
| Blob (b : GitBlob.t)
| Tree (t : GitTree.t)
| Commit (c : GitCommit.t).

(** [obj.hash] and [obj.type] *)
Definition obj_hash (o : GitObject) : jsstring :=
  match o with
  | Blob b => GitBlob.hash b
  | Tree t => GitTree.hash t
  | Commit c => GitCommit.hash c
  end.

Definition obj_type (o : GitObject) : jsstring :=
  match o with
  | Blob _ => str "blob"
  | Tree _ => str "tree"
  | Commit _ => str "commit"
  end.

(* ================================================================= *)
(** ** The repository: object store, ref table and HEAD *)

Record GitRepository := mkRepo {
  objects : jsmap jsstring GitObject;
  refs : jsmap jsstring jsstring;
  HEAD : jsstring
}.

(** [new GitRepository()] *)
Definition emptyRepository : GitRepository :=
  {| objects := []; refs := []; HEAD := str "main" |}.

Definition storeObject (r : GitRepository) (obj : GitObject)
  : GitRepository * jsstring :=
  ({| objects := map_set (objects r) (obj_hash obj) obj;
      refs := refs r; HEAD := HEAD r |}, obj_hash obj).

Definition getObject (r : GitRepository) (hash : jsstring) : option GitObject :=
  map_get (objects r) hash.

(** [commit(treeHash, message, author)]; [now] is the clock reading taken
    by the commit constructor.  Returns the new commit with the updated
    repository. *)
Definition commit (r : GitRepository) (treeHash message author now : jsstring)
  : GitRepository * GitCommit.t :=
  let parents := match map_get (refs r) (HEAD r) with
                 | Some parentHash => if truthy parentHash then [parentHash] else []
                 | None => []
                 end in
  let c := GitCommit.new treeHash parents author message None now in
  let r1 := fst (storeObject r (Commit c)) in
  ({| objects := objects r1;
      refs := map_set (refs r1) (HEAD r1) (GitCommit.hash c);
      HEAD := HEAD r1 |}, c).

(** [commitHash || this.refs.get(this.HEAD)] *)
Definition or_head_ref (r : GitRepository) (h : option jsstring)
  : option jsstring :=
  match h with
  | Some s => if truthy s then Some s else map_get (refs r) (HEAD r)
  | None => map_get (refs r) (HEAD r)
  end.

(** [createBranch(branchName, commitHash = null)] *)
Definition createBranch (r : GitRepository) (branchName : jsstring)
    (commitHash : option jsstring) : GitRepository :=
  match or_head_ref r commitHash with
  | Some hash =>
      if truthy hash then
        {| objects := objects r;
           refs := map_set (refs r) branchName hash;
           HEAD := HEAD r |}
      else r
  | None => r
  end.

(** [checkout(branchName)] *)
Definition checkout (r : GitRepository) (branchName : jsstring)
  : GitRepository * bool :=
  if map_has (refs r) branchName then
    ({| objects := objects r; refs := refs r; HEAD := branchName |}, true)
  else (r, false).

(** The closure [dfs] of [getCommitHistory]; its captured variables
    [visited] and [history] are the state. *)
Fixpoint history_dfs (fuel : nat) (objs : jsmap jsstring GitObject)
    (commitHash : jsstring) (st : jsset jsstring * list GitCommit.t)
  : option (jsset jsstring * list GitCommit.t) :=
  match fuel with
  | O => None
  | S fuel' =>
      let '(visited, history) := st in
      if negb (truthy commitHash) || set_has visited commitHash then Some st
      else
        let visited := set_add visited commitHash in
        match map_get objs commitHash with
        | Some (Commit c) =>
            forEach_opt (history_dfs fuel' objs) (GitCommit.parents c)
                        (visited, history ++ [c])
        | _ => Some (visited, history)
        end
  end.

(** [getCommitHistory(startHash = null)].  The recursion never nests
    deeper than the number of stored objects plus one. *)
Definition getCommitHistory (r : GitRepository) (startHash : option jsstring)
  : option (list GitCommit.t) :=
  match or_head_ref r startHash with
  | Some hash =>
      if truthy hash then
        option_map snd
          (history_dfs (S (length (objects r))) (objects r) hash ([], []))
      else Some []
  | None => Some []
  end.

(** The closure [traverse] of [findMergeBase]; state [ancestors1]. *)
Fixpoint traverse (fuel : nat) (objs : jsmap jsstring GitObject)
    (hash : jsstring) (ancestors1 : jsset jsstring)
  : option (jsset jsstring) :=
  match fuel with
  | O => None
  | S fuel' =>
      if negb (truthy hash) || set_has ancestors1 hash then Some ancestors1
      else
        let ancestors1 := set_add ancestors1 hash in
        match map_get objs hash with
        | Some (Commit c) =>
            forEach_opt (traverse fuel' objs) (GitCommit.parents c) ancestors1
        | _ => Some ancestors1
        end
  end.

(** The closure [findCommon]: [Some None] is the result [null]. *)
Fixpoint findCommon (fuel : nat) (objs : jsmap jsstring GitObject)
    (ancestors1 : jsset jsstring) (hash : jsstring)
  : option (option jsstring) :=
  match fuel with
  | O => None
  | S fuel' =>
      if negb (truthy hash) then Some None
      else if set_has ancestors1 hash then Some (Some hash)
      else
        match map_get objs hash with
        | Some (Commit c) =>
            (fix loop (ps : list jsstring) : option (option jsstring) :=
               match ps with
               | [] => Some None
               | parent :: ps' =>
                   match findCommon fuel' objs ancestors1 parent with
                   | None => None
                   | Some (Some common) =>
                       if truthy common then Some (Some common) else loop ps'
                   | Some None => loop ps'
                   end
               end) (GitCommit.parents c)
        | _ => Some None
        end
  end.

(** [findMergeBase(branch1, branch2)].  [fuel] bounds the nesting of
    [findCommon], which has no visited set. *)
Definition findMergeBase (fuel : nat) (r : GitRepository)
    (branch1 branch2 : jsstring) : option (option jsstring) :=
  match map_get (refs r) branch1, map_get (refs r) branch2 with
  | Some hash1, Some hash2 =>
      if negb (truthy hash1) || negb (truthy hash2) then Some None
      else
        match traverse (S (length (objects r))) (objects r) hash1 [] with
        | Some ancestors1 => findCommon fuel (objects r) ancestors1 hash2
        | None => None
        end
  | _, _ => Some None
  end.

(* ================================================================= *)
(** ** The commit-graph snapshot *)

Record GraphNode := mkNode {
  id : jsstring;
  short_hash : jsstring;
  n_message : jsstring;
  n_author : jsstring;
  n_timestamp : jsstring;
  n_parents : list jsstring
}.

Record Edge := mkEdge { from : jsstring; to : jsstring }.

Record CommitGraph := mkGraph {
  nodes : list GraphNode;
  edges : list Edge;
  branches : jsmap jsstring jsstring;
  g_HEAD : jsstring
}.

(** First loop of [getCommitGraph]: the set [allCommits] (the [hash]
    fields of the commits met from each ref) and the [branches] table. *)
Definition collectCommits (r : GitRepository)
  : option (jsset jsstring * jsmap jsstring jsstring) :=
  forEach_opt
    (fun (ref : jsstring * jsstring) '(allCommits, branches) =>
       let '(branch, hash) := ref in
       match getCommitHistory r (Some hash) with
       | Some history =>
           Some (fold_left (fun s c => set_add s (GitCommit.hash c))
                           history allCommits,
                 map_set branches branch hash)
       | None => None
       end)
    (refs r) ([], []).

(** Second loop: one node per stored object found under a collected hash
    and one edge per parent.  An object that is not a commit has no
    [parents] array, so [commit.parents.forEach] throws; this is [None]
    as well. *)
Definition buildGraph (r : GitRepository) (allCommits : jsset jsstring)
  : option (list GraphNode * list Edge) :=
  forEach_opt
    (fun hash '(nodes, edges) =>
       match getObject r hash with
       | None => Some (nodes, edges)
       | Some (Commit c) =>
           Some (nodes ++ [mkNode (GitCommit.hash c)
                                  (firstn 7 (GitCommit.hash c))
                                  (GitCommit.message c) (GitCommit.author c)
                                  (GitCommit.timestamp c)
                                  (GitCommit.parents c)],
                 edges ++ map (fun parentHash =>
                                 mkEdge (GitCommit.hash c) parentHash)
                              (GitCommit.parents c))
       | Some _ => None
       end)
    allCommits ([], []).

(** [getCommitGraph()] *)
Definition getCommitGraph (r : GitRepository) : option CommitGraph :=
  match collectCommits r with
  | Some (allCommits, branches) =>
      match buildGraph r allCommits with
      | Some (nodes, edges) => Some (mkGraph nodes edges branches (HEAD r))
      | None => None
      end
  | None => None
  end.

(* ================================================================= *)
(** ** Graph algorithms *)

(** Numbers kept in the in-degree table: an integer, or [NaN] (what
    [undefined - 1] gives). *)
Inductive jsnum : Type := Num (z : Z) | NaN.

Definition is_zero (n : jsnum) : bool :=
  match n with Num z => Z.eqb z 0 | NaN => false end.

(** [graph.get(k) || []] *)
Definition neighbors_of (graph : jsmap jsstring (list jsstring))
    (k : jsstring) : list jsstring :=
  match map_get graph k with Some l => l | None => [] end.

(** *** Topological sort (Kahn) *)

(** [nodes.forEach(node => { graph.set(node.id, []); inDegree.set(node.id, 0) })] *)
Definition topo_init (nodes : list GraphNode)
  : jsmap jsstring (list jsstring) * jsmap jsstring jsnum :=
  fold_left (fun '(graph, inDegree) node =>
               (map_set graph (id node) [], map_set inDegree (id node) (Num 0)))
            nodes ([], []).

(** [(inDegree.get(k) || 0) + 1] *)
Definition incr_or_zero (v : option jsnum) : jsnum :=
  match v with
  | Some (Num z) => Num (z + 1)
  | Some NaN => Num 1
  | None => Num 1
  end.

(** The callback of [edges.forEach]. *)
Definition topo_edge
    (st : jsmap jsstring (list jsstring) * jsmap jsstring jsnum) (edge : Edge)
  : jsmap jsstring (list jsstring) * jsmap jsstring jsnum :=
  let '(graph, inDegree) := st in
  if map_has graph (from edge) && map_has graph (to edge) then
    (map_set graph (from edge) (neighbors_of graph (from edge) ++ [to edge]),
     map_set inDegree (to edge) (incr_or_zero (map_get inDegree (to edge))))
  else (graph, inDegree).

Definition topo_edges (edges : list Edge)
    (st : jsmap jsstring (list jsstring) * jsmap jsstring jsnum)
  : jsmap jsstring (list jsstring) * jsmap jsstring jsnum :=
  fold_left topo_edge edges st.

(** [inDegree.forEach((degree, node) => { if (degree === 0) queue.push(node) })] *)
Definition topo_queue (inDegree : jsmap jsstring jsnum) : list jsstring :=
  map fst (filter (fun kv => is_zero (snd kv)) inDegree).

(** [inDegree.get(neighbor) - 1] *)
Definition decr (v : option jsnum) : jsnum :=
  match v with
  | Some (Num z) => Num (z - 1)
  | _ => NaN
  end.

(** The callback of [neighbors.forEach] inside the loop. *)
Definition topo_visit (neighbor : jsstring)
    (st : jsmap jsstring jsnum * list jsstring)
  : jsmap jsstring jsnum * list jsstring :=
  let '(inDegree, queue) := st in
  let inDegree := map_set inDegree neighbor (decr (map_get inDegree neighbor)) in
  if match map_get inDegree neighbor with
     | Some n => is_zero n
     | None => false
     end
  then (inDegree, queue ++ [neighbor])
  else (inDegree, queue).

(** The [while (queue.length > 0)] loop; returns [sorted]. *)
Fixpoint topo_loop (fuel : nat) (graph : jsmap jsstring (list jsstring))
    (inDegree : jsmap jsstring jsnum) (queue sorted : list jsstring)
  : option (list jsstring) :=
  match queue with
  | [] => Some sorted
  | node :: queue' =>
      match fuel with
      | O => None
      | S fuel' =>
          let '(inDegree', queue'') :=
            fold_left (fun st neighbor => topo_visit neighbor st)
                      (neighbors_of graph node) (inDegree, queue') in
          topo_loop fuel' graph inDegree' queue'' (sorted ++ [node])
      end
  end.

(** [topologicalSort(nodes, edges)]: every node is shifted from the queue
    at most once, so [length nodes] rounds are enough. *)
Definition topologicalSort (nodes : list GraphNode) (edges : list Edge)
  : option (list jsstring) :=
  let '(graph, inDegree) := topo_edges edges (topo_init nodes) in
  option_map (@rev jsstring)
    (topo_loop (length nodes) graph inDegree (topo_queue inDegree) []).

(** *** Layered layout *)

(** Numbers are exact rationals; [None] stands for a coordinate that is
    [undefined] or [NaN]. *)
Record LayoutOptions := mkOptions {
  o_nodeWidth : option Q;
  o_nodeHeight : option Q;
  o_horizontalGap : option Q;
  o_verticalGap : option Q
}.

Definition defaultOptions : LayoutOptions := mkOptions None None None None.

Definition or_default (v : option Q) (d : Q) : Q :=
  match v with Some q => q | None => d end.

Record LaidNode := mkLaid { l_node : GraphNode; x : option Q; y : option Q }.

Record EdgePath := mkPath {
  x1 : option Q; y1 : option Q; x2 : option Q; y2 : option Q;
  controlX1 : option Q; controlY1 : option Q;
  controlX2 : option Q; controlY2 : option Q
}.

Record LaidEdge := mkLaidEdge { l_edge : Edge; l_path : option EdgePath }.

Record Layout := mkLayout { lay_nodes : list LaidNode; lay_edges : list LaidEdge }.

Definition qlift (f : Q -> Q -> Q) (a b : option Q) : option Q :=
  match a, b with
  | Some p, Some q => Some (f p q)
  | _, _ => None
  end.

(** [sorted.forEach((nodeId, index) => layers.set(nodeId, sorted.length - index - 1))] *)
Fixpoint layout_layers_from (len : Z) (index : Z) (sorted : list jsstring)
    (layers : jsmap jsstring Z) : jsmap jsstring Z :=
  match sorted with
  | [] => layers
  | nodeId :: rest =>
      layout_layers_from len (index + 1) rest
                         (map_set layers nodeId (len - index - 1)%Z)
  end.

Definition layout_layers (sorted : list jsstring) : jsmap jsstring Z :=
  layout_layers_from (Z.of_nat (length sorted)) 0 sorted [].

(** Step 3: [layerCounts.set(layer, (layerCounts.get(layer) || 0) + 1)] *)
Definition layout_layerCounts (layers : jsmap jsstring Z) : jsmap Z Z :=
  fold_left (fun layerCounts kv =>
               map_set layerCounts (snd kv)
                 (match map_get layerCounts (snd kv) with
                  | Some n => n + 1
                  | None => 1
                  end)%Z)
            layers [].

(** Step 4: the callback of the second [layers.forEach]. *)
Definition layout_place (nodeWidth nodeHeight horizontalGap verticalGap : Q)
    (layerCounts : jsmap Z Z)
    (st : jsmap Z Z * jsmap jsstring LaidNode) (kv : jsstring * Z)
  : jsmap Z Z * jsmap jsstring LaidNode :=
  let '(layerPositions, nodeMap) := st in
  let '(nodeId, layer) := kv in
  let layerPositions :=
    if map_has layerPositions layer then layerPositions
    else map_set layerPositions layer 0%Z in
  let position := match map_get layerPositions layer with
                  | Some p => p
                  | None => 0%Z
                  end in
  let layerPositions := map_set layerPositions layer (position + 1)%Z in
  match map_get nodeMap nodeId with
  | Some node =>
      let nx :=
        match map_get layerCounts layer with
        | Some layerSize =>
            let totalWidth :=
              inject_Z layerSize * nodeWidth
              + (inject_Z layerSize - 1) * horizontalGap in
            let startX := - totalWidth / 2 in
            Some (startX + inject_Z position * (nodeWidth + horizontalGap)
                  + nodeWidth / 2)
        | None => None
        end in
      let ny := Some (inject_Z layer * verticalGap + nodeHeight / 2) in
      (layerPositions, map_set nodeMap nodeId (mkLaid (l_node node) nx ny))
  | None => (layerPositions, nodeMap)
  end.

(** Step 5: the curve of one edge. *)
Definition layout_edge (nodeHeight : Q) (nodeMap : jsmap jsstring LaidNode)
    (edge : Edge) : LaidEdge :=
  match map_get nodeMap (from edge), map_get nodeMap (to edge) with
  | Some fromNode, Some toNode =>
      let half := Some (nodeHeight / 2) in
      let mid := qlift Qplus (y fromNode)
                   (qlift Qdiv (qlift Qminus (y toNode) (y fromNode))
                          (Some 2)) in
      mkLaidEdge edge
        (Some (mkPath (x fromNode) (qlift Qplus (y fromNode) half)
                      (x toNode) (qlift Qminus (y toNode) half)
                      (x fromNode) mid (x toNode) mid))
  | _, _ => mkLaidEdge edge None
  end.

(** [calculateLayout(nodes, edges, options = {})] *)
Definition calculateLayout (nodes : list GraphNode) (edges : list Edge)
    (options : LayoutOptions) : option Layout :=
  let nodeWidth := or_default (o_nodeWidth options) 120 in
  let nodeHeight := or_default (o_nodeHeight options) 60 in
  let horizontalGap := or_default (o_horizontalGap options) 150 in
  let verticalGap := or_default (o_verticalGap options) 100 in
  match nodes with
  | [] => Some (mkLayout [] [])
  | _ :: _ =>
      match topologicalSort nodes edges with
      | None => None
      | Some sorted =>
          let layers := layout_layers sorted in
          let nodeMap :=
            fold_left (fun m n => map_set m (id n) (mkLaid n None None))
                      nodes [] in
          let layerCounts := layout_layerCounts layers in
          let '(_, nodeMap) :=
            fold_left (layout_place nodeWidth nodeHeight horizontalGap
                                    verticalGap layerCounts)
                      layers ([], nodeMap) in
          Some (mkLayout (map_values nodeMap)
                         (map (layout_edge nodeHeight nodeMap) edges))
      end
  end.

(** *** Shortest path (breadth-first) *)

Definition bfs_graph (edges : list Edge) : jsmap jsstring (list jsstring) :=
  fold_left (fun graph edge =>
               let graph := if map_has graph (from edge) then graph
                            else map_set graph (from edge) [] in
               let graph := if map_has graph (to edge) then graph
                            else map_set graph (to edge) [] in
               let graph := map_set graph (from edge)
                              (neighbors_of graph (from edge) ++ [to edge]) in
               map_set graph (to edge)
                       (neighbors_of graph (to edge) ++ [from edge]))
            edges [].

(** [path[path.length - 1]]; [None] is [undefined]. *)
Definition last_of (path : list jsstring) : option jsstring :=
  match rev path with
  | node :: _ => Some node
  | [] => None
  end.

(** The [for (const neighbor of neighbors)] loop. *)
Definition bfs_expand (path : list jsstring) (neighbor : jsstring)
    (st : list (list jsstring) * jsset jsstring)
  : list (list jsstring) * jsset jsstring :=
  let '(queue, visited) := st in
  if negb (set_has visited neighbor) then
    (queue ++ [path ++ [neighbor]], set_add visited neighbor)
  else st.

(** The [while (queue.length > 0)] loop; [Some None] is the result [null]. *)
Fixpoint bfs_loop (fuel : nat) (graph : jsmap jsstring (list jsstring))
    (endId : jsstring) (queue : list (list jsstring)) (visited : jsset jsstring)
  : option (option (list jsstring)) :=
  match queue with
  | [] => Some None
  | path :: queue' =>
      match fuel with
      | O => None
      | S fuel' =>
          match last_of path with
          | Some node =>
              if keqb node endId then Some (Some path)
              else
                let '(queue'', visited') :=
                  fold_left (fun st neighbor => bfs_expand path neighbor st)
                            (neighbors_of graph node) (queue', visited) in
                bfs_loop fuel' graph endId queue'' visited'
          | None => bfs_loop fuel' graph endId queue' visited
          end
      end
  end.

(** [findShortestPath(startId, endId, edges)]: every node enters the queue
    at most once, and the nodes are the start and the end points of the
    edges. *)
Definition findShortestPath (startId endId : jsstring) (edges : list Edge)
  : option (option (list jsstring)) :=
  if keqb startId endId then Some (Some [startId])
  else bfs_loop (2 * length edges + 2) (bfs_graph edges) endId
                [[startId]] [startId].

(** *** Cycle detection *)

Definition cycle_graph (nodes : list GraphNode) (edges : list Edge)
  : jsmap jsstring (list jsstring) :=
  fold_left (fun graph edge =>
               if map_has graph (from edge) then
                 map_set graph (from edge)
                         (neighbors_of graph (from edge) ++ [to edge])
               else graph)
            edges
            (fold_left (fun graph node => map_set graph (id node) []) nodes []).

(** The inner function [dfs]; the state is [(visiting, visited)]. *)
Fixpoint cycle_dfs (fuel : nat) (graph : jsmap jsstring (list jsstring))
    (nodeId : jsstring) (st : jsset jsstring * jsset jsstring)
  : option (bool * (jsset jsstring * jsset jsstring)) :=
  match fuel with
  | O => None
  | S fuel' =>
      (fix loop (ns : list jsstring) (st : jsset jsstring * jsset jsstring)
         : option (bool * (jsset jsstring * jsset jsstring)) :=
         match ns with
         | [] =>
             Some (false, (set_delete (fst st) nodeId, set_add (snd st) nodeId))
         | neighbor :: ns' =>
             if set_has (fst st) neighbor then Some (true, st)
             else if negb (set_has (snd st) neighbor) then
               match cycle_dfs fuel' graph neighbor st with
               | None => None
               | Some (true, st') => Some (true, st')
               | Some (false, st') => loop ns' st'
               end
             else loop ns' st
         end)
        (neighbors_of graph nodeId) (set_add (fst st) nodeId, snd st)
  end.

(** The final [for (const node of nodes)] loop. *)
Fixpoint cycle_scan (fuel : nat) (graph : jsmap jsstring (list jsstring))
    (ns : list GraphNode) (st : jsset jsstring * jsset jsstring)
  : option bool :=
  match ns with
  | [] => Some false
  | node :: ns' =>
      if negb (set_has (snd st) (id node)) then
        match cycle_dfs fuel graph (id node) st with
        | None => None
        | Some (true, _) => Some true
        | Some (false, st') => cycle_scan fuel graph ns' st'
        end
      else cycle_scan fuel graph ns' st
  end.

(** [detectCycle(nodes, edges)]: the nesting of [dfs] is bounded by the
    number of distinct ids, which are node ids or edge targets. *)
Definition detectCycle (nodes : list GraphNode) (edges : list Edge)
  : option bool :=
  cycle_scan (S (length nodes + length edges)) (cycle_graph nodes edges)
             nodes ([], []).

(* ================================================================= *)
(** * Notions used to state the properties *)

(** [parent_of objs h p]: the store holds a commit under [h] that lists
    the fingerprint [p] (a non-empty string) among its parents. *)
Definition parent_of (objs : jsmap jsstring GitObject) (h p : jsstring)
  : Prop :=
  exists c, map_get objs h = Some (Commit c)
            /\ In p (GitCommit.parents c) /\ truthy p = true.

(** [reaches objs h k]: [k] is [h] or is reached from [h] through parent
    links of stored commits. *)
Definition reaches (objs : jsmap jsstring GitObject)
  : jsstring -> jsstring -> Prop :=
  clos_refl_trans_1n jsstring (parent_of objs).

(** Number of keys not yet in the set [seen]: the measure that bounds the
    nesting of the depth-first traversals. *)
Definition unseen (keys : list jsstring) (seen : jsset jsstring) : nat :=
  length (filter (fun k => negb (set_has seen k)) keys).





(** The edge relation of an edge list, and acyclicity: no node reaches
    itself through one or more edges. *)
Definition edge_rel (edges : list Edge) (a b : jsstring) : Prop :=
  In (mkEdge a b) edges.

Definition acyclic (edges : list Edge) : Prop :=
  forall x, ~ clos_trans jsstring (edge_rel edges) x x.

(** An edge list over the ids of a node list. *)
Definition edges_over (nodes : list GraphNode) (edges : list Edge) : Prop :=
  forall e, In e edges ->
            In (from e) (map id nodes) /\ In (to e) (map id nodes).

(** [index_of k l]: the position of the first occurrence ([indexOf]). *)
Fixpoint index_of (k : jsstring) (l : list jsstring) : option nat :=
  match l with
  | [] => None
  | x :: l' => if keqb k x then Some O else option_map S (index_of k l')
  end.

(** Two nodes are linked when an edge joins them, in either direction;
    a path is a non-empty sequence of nodes, each linked to the next. *)
Definition linked (edges : list Edge) (a b : jsstring) : Prop :=
  exists e, In e edges
            /\ ((from e = a /\ to e = b) \/ (from e = b /\ to e = a)).

Inductive is_path (edges : list Edge)
  : list jsstring -> jsstring -> jsstring -> Prop :=
| path_one a : is_path edges [a] a a
| path_cons a b c p :
    linked edges a b -> is_path edges p b c -> is_path edges (a :: p) a c.

(** The operations that build a repository, and a run of operations
    from the empty repository. *)
Inductive operation : Type :=
| OpCommit (treeHash message author now : jsstring)
| OpCreateBranch (branchName : jsstring) (commitHash : option jsstring)
| OpCheckout (branchName : jsstring).

Definition apply_op (r : GitRepository) (op : operation) : GitRepository :=
  match op with
  | OpCommit treeHash message author now =>
      fst (commit r treeHash message author now)
  | OpCreateBranch branchName commitHash => createBranch r branchName commitHash
  | OpCheckout branchName => fst (checkout r branchName)
  end.

Definition run (ops : list operation) : GitRepository :=
  fold_left apply_op ops emptyRepository.

(** The fingerprint of a new commit is fresh when it is not yet used as a
    parent link: neither by the commit itself nor by a stored commit. *)
Definition fresh_commit (r : GitRepository) (c : GitCommit.t) : bool :=
  negb (set_has (GitCommit.parents c) (GitCommit.hash c))
  && forallb (fun kv =>
                match snd kv with
                | Commit c' =>
                    negb (set_has (GitCommit.parents c') (GitCommit.hash c))
                | _ => true
                end) (objects r).

(** A run without fingerprint collisions: every commit it makes is
    fresh. *)
Fixpoint collision_free (r : GitRepository) (ops : list operation) : bool :=
  match ops with
  | [] => true
  | op :: rest =>
      match op with
      | OpCommit treeHash message author now =>
          fresh_commit r (snd (commit r treeHash message author now))
      | _ => true
      end
      && collision_free (apply_op r op) rest
  end.

(* ================================================================= *)
(** * Notions used in the proofs *)

(** What one call of the closure [dfs] on [h] adds to the state. *)
Definition history_post (objs : jsmap jsstring GitObject) (h : jsstring)
    (st st' : jsset jsstring * list GitCommit.t) : Prop :=
  incl (fst st) (fst st')
  /\ exists new, snd st' = snd st ++ new
       /\ forall c, In c new ->
            truthy h = true
            /\ exists k, reaches objs h k /\ map_get objs k = Some (Commit c).

(** Every member of [V] outside [S] has all its parents in [V]. *)
Definition closed_except (objs : jsmap jsstring GitObject)
    (V S : list jsstring) : Prop :=
  forall v, In v V -> ~ In v S -> forall p, parent_of objs v p -> In p V.

Definition traverse_post (objs : jsmap jsstring GitObject) (h : jsstring)
    (V V' : jsset jsstring) : Prop :=
  incl V V'
  /\ (truthy h = true -> In h V')
  /\ (forall k, In k V' -> In k V \/ (truthy h = true /\ reaches objs h k))
  /\ (forall S, closed_except objs V S -> closed_except objs V' S).

(** The value of a string of lower-case hex digits. *)
Definition digit_value (d : N) : Z :=
  if (d <? 58)%N then Z.of_N d - 48 else Z.of_N d - 87.

Definition hex_value (l : jsstring) : Z :=
  fold_left (fun a d => a * 16 + digit_value d)%Z l 0%Z.

(** An edge counts when both end points are node ids. *)
Definition valid_edge (K : list jsstring) (e : Edge) : bool :=
  set_has K (from e) && set_has K (to e).

(** The adjacency array of [n] after the edge loop. *)
Definition adj (K : list jsstring) (edges : list Edge) (n : jsstring)
  : list jsstring :=
  map to (filter (fun e => valid_edge K e && keqb (from e) n) edges).

(** Number of counted edges into [k] whose source is not in [s]. *)
Definition remaining (K : list jsstring) (edges : list Edge)
    (s : list jsstring) (k : jsstring) : nat :=
  length (filter (fun e => valid_edge K e && keqb (to e) k
                           && negb (set_has s (from e))) edges).

Definition occurrences (k : jsstring) (l : list jsstring) : nat :=
  length (filter (fun x => keqb x k) l).

(** A map filled by a loop of [set]: [l.forEach(n => m.set(key(n), val(n)))]. *)
Definition fill {A V : Type} (key : A -> jsstring) (val : A -> V)
    (l : list A) (m0 : jsmap jsstring V) : jsmap jsstring V :=
  fold_left (fun m n => map_set m (key n) (val n)) l m0.

Unset Implicit Arguments.

Ltac split4 := split; [|split; [|split]].

(** The layer table as a list: position [j] gets [len - j - 1]. *)
Fixpoint layer_list (len index : Z) (sorted : list jsstring)
  : list (jsstring * Z) :=
  match sorted with
  | [] => []
  | nodeId :: rest =>
      (nodeId, len - index - 1)%Z :: layer_list len (index + 1) rest
  end.

(** The coordinates given to a node that is alone in its layer. *)
Definition placed (nodeWidth nodeHeight horizontalGap verticalGap : Q)
    (n : GraphNode) (layer : Z) : LaidNode :=
  mkLaid n
    (Some (- (inject_Z 1 * nodeWidth + (inject_Z 1 - 1) * horizontalGap) / 2
           + inject_Z 0 * (nodeWidth + horizontalGap) + nodeWidth / 2))
    (Some (inject_Z layer * verticalGap + nodeHeight / 2)).

(** The adjacency array of [k] built by the edge loop. *)
Definition nbrs (edges : list Edge) (k : jsstring) : list jsstring :=
  flat_map (fun e => (if keqb (from e) k then [to e] else [])
                     ++ (if keqb (to e) k then [from e] else [])) edges.

Definition lasts (Q : list (list jsstring)) : list jsstring :=
  flat_map (fun p => match last_of p with Some v => [v] | None => [] end) Q.

(** A parent link of the store (all listed parents). *)
Definition plink (objs : jsmap jsstring GitObject) (h p : jsstring) : Prop :=
  exists c, map_get objs h = Some (Commit c) /\ In p (GitCommit.parents c).

(** The store holds commits only, each under its own fingerprint, and
    its parent links go down along a rank: every commit was made after
    its parents. *)
Record store_ok (objs : jsmap jsstring GitObject) : Prop := {
  ok_commits : forall k o, map_get objs k = Some o ->
      exists c, o = Commit c /\ GitCommit.hash c = k;
  ok_ranked : exists rank : jsstring -> nat,
      forall h p, plink objs h p -> (rank p < rank h)%nat
}.


(** The invariant of the [while] loop of [topologicalSort]. *)
Record topo_inv (K : list jsstring) (edges : list Edge)
    (d : jsmap jsstring jsnum) (q s : list jsstring) : Prop := {
  inv_nodup : NoDup (s ++ q);
  inv_deg : forall k, In k K ->
      map_get d k = Some (Num (Z.of_nat (remaining K edges s k)));
  inv_members : forall k,
      In k (s ++ q) <-> In k K /\ remaining K edges s k = 0%nat;
  inv_order : forall e s1 s2,
      In e edges -> valid_edge K e = true -> s = s1 ++ to e :: s2 ->
      In (from e) s1
}.

(** What holds of [sorted] when the queue is empty. *)
Definition kahn_sorted (K : list jsstring) (edges : list Edge)
    (r : list jsstring) : Prop :=
  NoDup r
  /\ (forall k, In k r <-> In k K /\ remaining K edges r k = 0%nat)
  /\ (forall e s1 s2,
        In e edges -> valid_edge K e = true -> r = s1 ++ to e :: s2 ->
        In (from e) s1).

(** [v] was reached by a path of at most [n] nodes: it is done with such a
    level, or it waits in the queue at the end of such a path. *)
Definition reached_by (Q : list (list jsstring)) (D : list (jsstring * nat))
    (v : jsstring) (n : nat) : Prop :=
  (exists l, In (v, l) D /\ (l <= n)%nat)
  \/ (exists q, In q Q /\ last_of q = Some v /\ (length q <= n)%nat).

(** The nodes that [findShortestPath] can meet. *)
Definition universe (edges : list Edge) (startId : jsstring) : list jsstring :=
  startId :: flat_map (fun e => [from e; to e]) edges.

(** The invariant of the [while] loop of [findShortestPath]; [D] lists the nodes taken from the
    queue with the length of their path. *)
Record bfs_inv (edges : list Edge) (startId endId : jsstring)
    (Q : list (list jsstring)) (V : list jsstring)
    (D : list (jsstring * nat)) : Prop := {
  b_paths : forall p, In p Q -> exists node, is_path edges p startId node;
  b_visited : forall v, In v V <-> In v (map fst D ++ lasts Q);
  b_nodup : NoDup (map fst D ++ lasts Q);
  b_universe : incl (map fst D ++ lasts Q) (universe edges startId);
  b_levels : exists k Qa Qb,
      Q = Qa ++ Qb
      /\ (forall u l, In (u, l) D -> (l <= k)%nat)
      /\ (forall p, In p Qa -> length p = k)
      /\ (forall p, In p Qb -> length p = S k);
  b_closed : forall u l v,
      In (u, l) D -> linked edges u v -> reached_by Q D v (S l);
  b_not_end : forall u l, In (u, l) D -> u <> endId;
  b_start : reached_by Q D startId 1
}.

Arguments b_paths {edges startId endId Q V D}.
Arguments b_visited {edges startId endId Q V D}.
Arguments b_nodup {edges startId endId Q V D}.
Arguments b_universe {edges startId endId Q V D}.
Arguments b_levels {edges startId endId Q V D}.
Arguments b_closed {edges startId endId Q V D}.
Arguments b_not_end {edges startId endId Q V D}.
Arguments b_start {edges startId endId Q V D}.

(** What [findShortestPath] returns. *)
Definition bfs_result (edges : list Edge) (startId endId : jsstring)
    (res : option (list jsstring)) : Prop :=
  match res with
  | Some q =>
      is_path edges q startId endId
      /\ forall p', is_path edges p' startId endId ->
                    (length q <= length p')%nat
  | None => forall p', ~ is_path edges p' startId endId
  end.

Set Implicit Arguments.

(* ================================================================= *)
(** * Sample data *)

Definition sample_ts : jsstring := str "2024-01-01T00:00:00.000Z".

Definition one_commit_repo : GitRepository :=
  fst (commit emptyRepository (str "t1") (str "Initial commit") (str "Alice")
              sample_ts).

Definition blob_repo : GitRepository :=
  fst (storeObject emptyRepository (Blob (GitBlob.new (str "hello")))).

Definition sample_blob_hash : jsstring :=
  GitBlob.hash (GitBlob.new (str "hello")).

Definition node_of (name : string) : GraphNode :=
  mkNode (str name) [] [] [] [] [].

Definition edge_of (a b : string) : Edge := mkEdge (str a) (str b).

Definition chain_ABC : list Edge := [edge_of "A" "B"; edge_of "B" "C"].

Definition empty_tree_hash : jsstring := GitTree.hash (GitTree.new []).

(** Two commits on main whose fingerprints collide: the second commit is
    stored over the first and lists its own fingerprint as parent. *)
Definition colliding_ops : list operation :=
  [OpCommit empty_tree_hash (str "Initial commit") (str "Alice")
            (str "2024-01-01T00:00:00.000Z");
   OpCommit empty_tree_hash (str "Fix 0jnyukr") (str "Alice")
            (str "2024-01-02T00:00:00.000Z")].

Definition sample_ops : list operation :=
  [OpCommit (str "t1") (str "Initial commit") (str "Alice") sample_ts;
   OpCommit (str "t2") (str "Add package.json") (str "Bob") sample_ts;
   OpCreateBranch (str "feature-branch") None;
   OpCheckout (str "feature-branch");
   OpCommit (str "t3") (str "Add new feature") (str "Alice") sample_ts;
   OpCheckout (str "main");
   OpCommit (str "t4") (str "Add tests") (str "Bob") sample_ts].

(** The sample history: two commits on main, a third on feature-branch,
    a fourth on main. *)
Definition sample_step (r : GitRepository) (tree message author : string)
  : GitRepository * GitCommit.t :=
  commit r (str tree) (str message) (str author) sample_ts.

Definition sample_r1 := sample_step emptyRepository "t1" "Initial commit" "Alice".
Definition sample_r2 := sample_step (fst sample_r1) "t2" "Add package.json" "Bob".
Definition sample_r3 :=
  sample_step (fst (checkout (createBranch (fst sample_r2)
                                           (str "feature-branch") None)
                             (str "feature-branch")))
              "t3" "Add new feature" "Alice".
Definition sample_r4 :=
  sample_step (fst (checkout (fst sample_r3) (str "main"))) "t4" "Add tests" "Bob".

Unset Implicit Arguments.

(* ================================================================= *)
(** * Further parts of the program *)

(** ** Repository statistics: [getStats] *)

Record RepoStats := mkStats {
  totalObjects : nat;
  totalCommits : nat;
  totalTrees : nat;
  totalBlobs : nat;
  s_branches : nat;
  currentBranch : jsstring
}.

(** [Array.from(this.objects.values()).filter(o => o.type === type).length] *)
Definition count_type (r : GitRepository) (type : jsstring) : nat :=
  length (filter (fun o => keqb (obj_type o) type) (map_values (objects r))).

(** [getStats()]; the size of a [Map] is the number of its entries. *)
Definition getStats (r : GitRepository) : RepoStats :=
  {| totalObjects := length (objects r);
     totalCommits := count_type r (str "commit");
     totalTrees := count_type r (str "tree");
     totalBlobs := count_type r (str "blob");
     s_branches := length (refs r);
     currentBranch := HEAD r |}.

(* ================================================================= *)
(** ** Graph metrics: [calculateGraphMetrics] *)

Record GraphMetrics := mkMetrics {
  nodeCount : nat;
  edgeCount : nat;
  rootCount : nat;
  leafCount : nat;
  maxDepth : nat;
  avgInDegree : Q;
  avgOutDegree : Q
}.

(** [m.set(k, (m.get(k) || 0) + 1)] *)
Definition bump (m : jsmap jsstring nat) (k : jsstring) : jsmap jsstring nat :=
  map_set m k (S (match map_get m k with Some n => n | None => O end)).

(** The tables [inDegree] and [outDegree]: zero for every node, then one
    more for the target and for the source of every edge. *)
Definition metrics_degrees (nodes : list GraphNode) (edges : list Edge)
  : jsmap jsstring nat * jsmap jsstring nat :=
  fold_left (fun '(inDegree, outDegree) edge =>
               (bump inDegree (to edge), bump outDegree (from edge)))
            edges
            (fold_left (fun '(inDegree, outDegree) node =>
                          (map_set inDegree (id node) O,
                           map_set outDegree (id node) O))
                       nodes ([], [])).

(** [degree.get(node.id) === 0] *)
Definition degree_is_zero (degree : jsmap jsstring nat) (node : GraphNode)
  : bool :=
  match map_get degree (id node) with
  | Some O => true
  | _ => false
  end.

(** The inner function [dfs(nodeId, depth)]; the state is [maxDepth].  It
    keeps no visited set. *)
Fixpoint metrics_dfs (fuel : nat) (graph : jsmap jsstring (list jsstring))
    (nodeId : jsstring) (depth : nat) (maxDepth : nat) : option nat :=
  match fuel with
  | O => None
  | S fuel' =>
      forEach_opt (fun neighbor maxDepth =>
                     metrics_dfs fuel' graph neighbor (S depth) maxDepth)
                  (neighbors_of graph nodeId) (Nat.max maxDepth depth)
  end.

(** [calculateGraphMetrics(nodes, edges)]; the adjacency arrays are built
    as in [detectCycle], and [fuel] bounds the nesting of [dfs].  The
    averages are exact rationals. *)
Definition calculateGraphMetrics (fuel : nat) (nodes : list GraphNode)
    (edges : list Edge) : option GraphMetrics :=
  let graph := cycle_graph nodes edges in
  let '(inDegree, outDegree) := metrics_degrees nodes edges in
  let roots := filter (degree_is_zero inDegree) nodes in
  let leaves := filter (degree_is_zero outDegree) nodes in
  match forEach_opt (fun root maxDepth =>
                       metrics_dfs fuel graph (id root) O maxDepth)
                    roots O with
  | None => None
  | Some maxDepth =>
      let avg := match nodes with
                 | [] => 0
                 | _ :: _ => inject_Z (Z.of_nat (length edges))
                             / inject_Z (Z.of_nat (length nodes))
                 end in
      Some (mkMetrics (length nodes) (length edges) (length roots)
                      (length leaves) maxDepth avg avg)
  end.

(* ================================================================= *)
(** ** Grouping by branch: [groupByBranch] *)

(** The [while (stack.length > 0)] loop of [groupByBranch].  The stack is
    a list with its top first: [pop] takes the head and [push] adds at the
    head.  [members] is the set stored in [branchNodes[branchName]]. *)
Fixpoint group_loop (fuel : nat) (edges : list Edge) (stack : list jsstring)
    (visited members : jsset jsstring) : option (jsset jsstring) :=
  match stack with
  | [] => Some members
  | current :: stack' =>
      match fuel with
      | O => None
      | S fuel' =>
          if set_has visited current then
            group_loop fuel' edges stack' visited members
          else
            group_loop fuel' edges
              (fold_left (fun st edge =>
                            if keqb (from edge) current then to edge :: st
                            else st)
                         edges stack')
              (set_add visited current) (set_add members current)
      end
  end.

(** [groupByBranch(nodes, edges, branches)].  [branches] is given by its
    entries, as [Object.entries] lists them, and the result by its
    entries in the order of creation.  Every edge is pushed at most once
    per branch, so the loop runs at most [1 + edges.length] times. *)
Definition groupByBranch (nodes : list GraphNode) (edges : list Edge)
    (branches : list (jsstring * jsstring))
  : option (jsmap jsstring (jsset jsstring)) :=
  forEach_opt
    (fun (entry : jsstring * jsstring) branchNodes =>
       let '(branchName, headHash) := entry in
       match group_loop (S (length edges)) edges [headHash] [] [headHash] with
       | Some members => Some (map_set branchNodes branchName members)
       | None => None
       end)
    branches [].

(* ================================================================= *)
(** ** The traversal of the algorithm panel: [runDFS] *)

(** The [while (stack.length > 0)] loop of [runDFS]; the stack has its top
    first.  [visited] is the array, [visitedSet] the set. *)
Fixpoint runDFS_loop (fuel : nat) (edges : list Edge) (stack : list jsstring)
    (visitedSet : jsset jsstring) (visited : list jsstring)
  : option (list jsstring) :=
  match stack with
  | [] => Some visited
  | current :: stack' =>
      match fuel with
      | O => None
      | S fuel' =>
          if set_has visitedSet current then
            runDFS_loop fuel' edges stack' visitedSet visited
          else
            let visitedSet := set_add visitedSet current in
            runDFS_loop fuel' edges
              (fold_left (fun st edge =>
                            if keqb (from edge) current
                               && negb (set_has visitedSet (to edge))
                            then to edge :: st else st)
                         edges stack')
              visitedSet (visited ++ [current])
      end
  end.

(** [runDFS] with the selected start commit: [Some None] is the error
    shown when no start commit is selected, [Some (Some visited)] the
    result. *)
Definition runDFS (startNode : jsstring) (edges : list Edge)
  : option (option (list jsstring)) :=
  if negb (truthy startNode) then Some None
  else option_map (@Some (list jsstring))
         (runDFS_loop (S (length edges)) edges [startNode] [] []).

(* ================================================================= *)
(** ** The repository hook: [createCommit] and [getCommitDetails] *)






(* ================================================================= *)
(** ** The raw text of a blob: [GitBlob.toString] *)

(** The digits of a decimal numeral, one code unit each. *)
Fixpoint uint_units (d : Decimal.uint) : jsstring :=
  match d with
  | Decimal.Nil => []
  | Decimal.D0 d => 48%N :: uint_units d
  | Decimal.D1 d => 49%N :: uint_units d
  | Decimal.D2 d => 50%N :: uint_units d
  | Decimal.D3 d => 51%N :: uint_units d
  | Decimal.D4 d => 52%N :: uint_units d
  | Decimal.D5 d => 53%N :: uint_units d
  | Decimal.D6 d => 54%N :: uint_units d
  | Decimal.D7 d => 55%N :: uint_units d
  | Decimal.D8 d => 56%N :: uint_units d
  | Decimal.D9 d => 57%N :: uint_units d
  end.

(** What a template literal writes for a length: its decimal digits. *)
Definition decimal (n : nat) : jsstring := uint_units (Nat.to_uint n).

(** [toString()] of a blob: [`blob ${this.content.length}\0${this.content}`] *)
Definition blob_toString (b : GitBlob.t) : jsstring :=
  str "blob " ++ decimal (length (GitBlob.content b))
  ++ 0%N :: GitBlob.content b.

(* ================================================================= *)
(** * Further notions used to state the properties *)

(** The lower-case hexadecimal digits. *)
Definition is_hex_char (c : N) : bool :=
  ((48 <=? c) && (c <=? 57) || (97 <=? c) && (c <=? 102))%N.

(** The value of a string read as a number in base 31 (Horner's rule on
    the code units). *)
Definition poly31 (s : jsstring) : Z :=
  fold_left (fun a c => (31 * a + Z.of_N c)%Z) s 0%Z.

(** The number of [commit] operations of a run. *)
Definition commit_ops (ops : list operation) : nat :=
  length (filter (fun op => match op with OpCommit _ _ _ _ => true | _ => false end)
                 ops).

(** The commits stored under a list of fingerprints, in order. *)
Definition commits_of (objs : jsmap jsstring GitObject) (ks : list jsstring)
  : list GitCommit.t :=
  flat_map (fun k => match map_get objs k with
                     | Some (Commit c) => [c]
                     | _ => []
                     end) ks.

(** The repository after the two colliding commits, with a second branch
    that points at a fingerprint of its own. *)
Definition looping_repo : GitRepository :=
  createBranch (run colliding_ops) (str "other") (Some (str "x")).


(** The edges that start at a node: the ones that [detectCycle] and
    [calculateGraphMetrics] enter in their adjacency arrays. *)
Definition out_edges (nodes : list GraphNode) (edges : list Edge) : list Edge :=
  filter (fun e => set_has (map id nodes) (from e)) edges.

(** An edge list has a cycle when some node reaches itself through one or
    more edges. *)
Definition cyclic (edges : list Edge) : Prop :=
  exists x, clos_trans jsstring (edge_rel edges) x x.

(** The adjacency relation of a graph map. *)
Definition adjacent (graph : jsmap jsstring (list jsstring))
    (u v : jsstring) : Prop :=
  In v (neighbors_of graph u).

(** Every neighbour of a listed node stands before it in the list: the
    order in which [dfs] of [detectCycle] finishes nodes. *)
Definition finished_order (graph : jsmap jsstring (list jsstring))
    (D : list jsstring) : Prop :=
  forall D1 u D2, D = D1 ++ u :: D2 ->
                  forall v, adjacent graph u v -> In v D1.

(** The edges that [topologicalSort] counts: both end points are node
    ids. *)
Definition counted_edges (nodes : list GraphNode) (edges : list Edge)
  : list Edge :=
  filter (valid_edge (map id nodes)) edges.


(** A walk of [n] edges from [a] to [c] along a relation. *)
Inductive edge_walk (R : jsstring -> jsstring -> Prop)
  : jsstring -> jsstring -> nat -> Prop :=
| edge_walk_here a : edge_walk R a a O
| edge_walk_step a b c n : R a b -> edge_walk R b c n -> edge_walk R a c (S n).

(** No edge points to the node, no edge starts at the node. *)
Definition no_edge_to (edges : list Edge) (n : GraphNode) : bool :=
  negb (existsb (fun e => keqb (to e) (id n)) edges).

Definition no_edge_from (edges : list Edge) (n : GraphNode) : bool :=
  negb (existsb (fun e => keqb (from e) (id n)) edges).

(** A root A with an edge to B, and an edge from B to itself. *)
Definition loop_edges : list Edge := [edge_of "A" "B"; edge_of "B" "B"].

(** The depth-first walk over a stack (top first) that the loops of
    [groupByBranch] and [runDFS] perform: an unvisited node is added to
    the visited set and the targets of its edges that [keep] lets through
    are pushed, in the order of the edge list. *)
Fixpoint stack_walk (keep : jsset jsstring -> jsstring -> bool) (fuel : nat)
    (edges : list Edge) (stack : list jsstring) (V : jsset jsstring)
  : option (jsset jsstring) :=
  match stack with
  | [] => Some V
  | current :: stack' =>
      match fuel with
      | O => None
      | S fuel' =>
          if set_has V current then stack_walk keep fuel' edges stack' V
          else
            stack_walk keep fuel' edges
              (rev (filter (keep (set_add V current))
                           (map to (filter (fun e => keqb (from e) current)
                                           edges)))
               ++ stack')
              (set_add V current)
      end
  end.

(** Number of edges whose source is not yet visited. *)
Definition unexpanded (edges : list Edge) (V : jsset jsstring) : nat :=
  length (filter (fun e => negb (set_has V (from e))) edges).

(** Every stored commit is filed under its own fingerprint, as
    [storeObject] files it. *)
Definition well_keyed (objs : jsmap jsstring GitObject) : Prop :=
  forall k c, map_get objs k = Some (Commit c) -> GitCommit.hash c = k.

(** The node that [getCommitGraph] makes of a commit, and the edges to
    its parents. *)
Definition commit_node (c : GitCommit.t) : GraphNode :=
  mkNode (GitCommit.hash c) (firstn 7 (GitCommit.hash c))
         (GitCommit.message c) (GitCommit.author c)
         (GitCommit.timestamp c) (GitCommit.parents c).

Definition commit_edges (c : GitCommit.t) : list Edge :=
  map (fun parentHash => mkEdge (GitCommit.hash c) parentHash)
      (GitCommit.parents c).

(** A commit is in reach of the refs when it is stored under a
    fingerprint that some ref's target reaches. *)
Definition in_reach (r : GitRepository) (c : GitCommit.t) : Prop :=
  exists name h k,
    In (name, h) (refs r) /\ truthy h = true
    /\ reaches (objects r) h k /\ getObject r k = Some (Commit c).


(** Reading a raw object text: the part before the first NUL character,
    the part after it, and the value of a string of decimal digits. *)
Fixpoint before_nul (s : jsstring) : jsstring :=
  match s with
  | [] => []
  | c :: s' => if N.eqb c 0 then [] else c :: before_nul s'
  end.

Fixpoint after_nul (s : jsstring) : jsstring :=
  match s with
  | [] => []
  | c :: s' => if N.eqb c 0 then s' else after_nul s'
  end.

Definition parse_decimal (s : jsstring) : nat :=
  fold_left (fun a d => (10 * a + (N.to_nat d - 48))%nat) s O.

Set Implicit Arguments.

(* ================================================================= *)
(** * Properties *)

(** ** Containers *)

Section ContainerFacts.
Context {K : Type} `{EqKey K}.

Lemma keqb_refl (k : K) : keqb k k = true.
Proof. destruct (keqb_spec k k); congruence. Qed.

Lemma keqb_neq (a b : K) : a <> b -> keqb a b = false.
Proof. destruct (keqb_spec a b); congruence. Qed.

Lemma keqb_true (a b : K) : keqb a b = true -> a = b.
Proof. destruct (keqb_spec a b); congruence. Qed.

Lemma key_eq_dec (a b : K) : {a = b} + {a <> b}.
Proof. destruct (keqb_spec a b); auto. Qed.

Lemma set_has_In (s : jsset K) (k : K) : set_has s k = true <-> In k s.
Proof.
  induction s as [|x s IH]; simpl.
  - split; [discriminate | tauto].
  - rewrite orb_true_iff, IH. destruct (keqb_spec k x); intuition congruence.
Qed.

Lemma set_has_false (s : jsset K) (k : K) : set_has s k = false <-> ~ In k s.
Proof.
  rewrite <- set_has_In. destruct (set_has s k); intuition congruence.
Qed.

Lemma set_add_In (s : jsset K) (k x : K) :
  In x (set_add s k) <-> In x s \/ x = k.
Proof.
  unfold set_add. destruct (set_has s k) eqn:E.
  - apply set_has_In in E. intuition congruence.
  - rewrite in_app_iff. simpl. intuition congruence.
Qed.

Lemma set_add_NoDup (s : jsset K) (k : K) : NoDup s -> NoDup (set_add s k).
Proof.
  intros Hs. unfold set_add. destruct (set_has s k) eqn:E; auto.
  apply set_has_false in E.
  apply NoDup_app; simpl; auto.
  - constructor; [tauto | constructor].
  - intros x Hx [->|[]]. contradiction.
Qed.

Lemma set_delete_In (s : jsset K) (k x : K) :
  In x (set_delete s k) <-> In x s /\ x <> k.
Proof.
  induction s as [|a s IH]; simpl; [tauto|].
  destruct (keqb_spec k a); simpl; rewrite IH; intuition congruence.
Qed.

Variable V : Type.

Lemma map_get_set (m : jsmap K V) (k k' : K) (v : V) :
  map_get (map_set m k v) k' = if keqb k' k then Some v else map_get m k'.
Proof.
  induction m as [|[a w] m IH]; simpl.
  - reflexivity.
  - destruct (keqb_spec k a) as [->|Hka]; simpl.
    + destruct (keqb k' a); reflexivity.
    + rewrite IH. destruct (keqb_spec k' a) as [->|]; auto.
      rewrite keqb_neq by congruence. reflexivity.
Qed.

Lemma map_get_set_same (m : jsmap K V) (k : K) (v : V) :
  map_get (map_set m k v) k = Some v.
Proof. rewrite map_get_set, keqb_refl. reflexivity. Qed.

Lemma map_get_set_other (m : jsmap K V) (k k' : K) (v : V) :
  k' <> k -> map_get (map_set m k v) k' = map_get m k'.
Proof. intros. rewrite map_get_set, keqb_neq; auto. Qed.

Lemma map_has_set (m : jsmap K V) (k k' : K) (v : V) :
  map_has (map_set m k v) k' = keqb k' k || map_has m k'.
Proof.
  unfold map_has. rewrite map_get_set. destruct (keqb k' k); reflexivity.
Qed.

Lemma map_has_In (m : jsmap K V) (k : K) :
  map_has m k = true <-> In k (map_keys m).
Proof.
  unfold map_has, map_keys. induction m as [|[a w] m IH]; simpl.
  - split; [discriminate | tauto].
  - destruct (keqb_spec k a); [intuition congruence|].
    rewrite IH. intuition congruence.
Qed.

Lemma map_get_In (m : jsmap K V) (k : K) (v : V) :
  map_get m k = Some v -> In (k, v) m.
Proof.
  induction m as [|[a w] m IH]; simpl; [discriminate|].
  destruct (keqb_spec k a) as [->|]; intros E.
  - left. congruence.
  - right. auto.
Qed.

Lemma map_get_Some_has (m : jsmap K V) (k : K) (v : V) :
  map_get m k = Some v -> In k (map_keys m).
Proof.
  intros E. apply map_has_In. unfold map_has. rewrite E. reflexivity.
Qed.

Lemma map_keys_set (m : jsmap K V) (k : K) (v : V) :
  map_keys (map_set m k v) =
  if map_has m k then map_keys m else map_keys m ++ [k].
Proof.
  unfold map_has, map_keys. induction m as [|[a w] m IH]; simpl.
  - reflexivity.
  - destruct (keqb_spec k a) as [->|]; simpl; [reflexivity|].
    rewrite IH. destruct (map_get m k); reflexivity.
Qed.

Lemma map_keys_set_NoDup (m : jsmap K V) (k : K) (v : V) :
  NoDup (map_keys m) -> NoDup (map_keys (map_set m k v)).
Proof.
  intros Hm. rewrite map_keys_set. destruct (map_has m k) eqn:E; auto.
  assert (~ In k (map_keys m)).
  { rewrite <- map_has_In. congruence. }
  apply NoDup_app; simpl; auto.
  - constructor; [tauto | constructor].
  - intros x Hx [->|[]]. contradiction.
Qed.

Lemma map_get_NoDup_In (m : jsmap K V) (k : K) (v : V) :
  NoDup (map_keys m) -> In (k, v) m -> map_get m k = Some v.
Proof.
  unfold map_keys. induction m as [|[a w] m IH]; simpl; [tauto|].
  intros Hnd [E|Hin].
  - inversion E; subst. rewrite keqb_refl. reflexivity.
  - inversion Hnd; subst. destruct (keqb_spec k a) as [->|]; auto.
    exfalso. apply H2. apply in_map_iff. exists (a, v). auto.
Qed.
End ContainerFacts.

Lemma map_set_fresh {K V : Type} `{EqKey K} (m : jsmap K V) (k : K) (v : V) :
  ~ In k (map_keys m) -> map_set m k v = m ++ [(k, v)].
Proof.
  induction m as [|[a w] m IH]; simpl; intros Hn; auto.
  rewrite keqb_neq by (intros ->; tauto).
  rewrite IH by tauto. reflexivity.
Qed.

Lemma forEach_opt_app {A S : Type} (f : A -> S -> option S) (l1 l2 : list A)
    (s : S) :
  forEach_opt f (l1 ++ l2) s =
  match forEach_opt f l1 s with
  | Some s' => forEach_opt f l2 s'
  | None => None
  end.
Proof.
  revert s. induction l1 as [|a l1 IH]; intros s; simpl; auto.
  destruct (f a s); auto.
Qed.

(** ** Fingerprints have forty characters *)

Lemma fingerprint_length (h : Z) : length (GitHash.fingerprint h) = 40%nat.
Proof.
  unfold GitHash.fingerprint, GitHash.padStart.
  rewrite length_firstn, length_app, repeat_length. lia.
Qed.

Lemma generate_length (j : GitHash.json) : length (GitHash.generate j) = 40%nat.
Proof. apply fingerprint_length. Qed.

Lemma generate_truthy (j : GitHash.json) : truthy (GitHash.generate j) = true.
Proof.
  pose proof (generate_length j) as L.
  destruct (GitHash.generate j); [discriminate | reflexivity].
Qed.

Lemma commit_hash_truthy tree parents author message ts now :
  truthy (GitCommit.hash (GitCommit.new tree parents author message ts now))
  = true.
Proof. apply generate_truthy. Qed.

(* ================================================================= *)
(** ** Repository operations *)

(** C3: [commit] gives the new commit the one-element parent list made of
    the fingerprint that the ref table holds for HEAD when there is one
    (a fingerprint is a non-empty string), and the empty list when HEAD has
    no entry; the commit is stored under its fingerprint and the entry of
    the current reference is set to that fingerprint.  Starting from the
    empty repository the first commit has no parent and the second commit
    on the same reference has the first commit's fingerprint as its only
    parent. *)
Theorem commit_parents_store_ref :
  forall (r : GitRepository) (treeHash message author now : jsstring),
    let r' := fst (commit r treeHash message author now) in
    let c := snd (commit r treeHash message author now) in
    (forall h, map_get (refs r) (HEAD r) = Some h -> truthy h = true ->
               GitCommit.parents c = [h])
    /\ (map_get (refs r) (HEAD r) = None -> GitCommit.parents c = [])
    /\ getObject r' (GitCommit.hash c) = Some (Commit c)
    /\ map_get (refs r') (HEAD r) = Some (GitCommit.hash c)
    /\ HEAD r' = HEAD r
    /\ (r = emptyRepository ->
        GitCommit.parents c = []
        /\ forall treeHash2 message2 author2 now2,
             GitCommit.parents
               (snd (commit r' treeHash2 message2 author2 now2))
             = [GitCommit.hash c]).
Proof.
  intros r treeHash message author now r' c.
  assert (Hhead : HEAD r' = HEAD r) by reflexivity.
  assert (Href : map_get (refs r') (HEAD r) = Some (GitCommit.hash c)).
  { subst r' c. unfold commit. simpl. apply map_get_set_same. }
  repeat split.
  - intros h Hh Ht. subst c. unfold commit. simpl. rewrite Hh, Ht. reflexivity.
  - intros Hn. subst c. unfold commit. simpl. rewrite Hn. reflexivity.
  - subst r' c. unfold commit, getObject. simpl. apply map_get_set_same.
  - exact Href.
  - subst r c. reflexivity.
  - intros treeHash2 message2 author2 now2.
    subst r' c. unfold commit. simpl.
    rewrite map_get_set_same, generate_truthy. reflexivity.
Qed.

Lemma commit_parents_store_ref_witness :
  GitCommit.parents
    (snd (commit emptyRepository (str "t1") (str "Initial commit")
                 (str "Alice") sample_ts)) = []
  /\ GitCommit.parents
       (snd (commit (fst (commit emptyRepository (str "t1")
                                 (str "Initial commit") (str "Alice")
                                 sample_ts))
                    (str "t2") (str "Second") (str "Alice") sample_ts))
     = [GitCommit.hash
          (snd (commit emptyRepository (str "t1") (str "Initial commit")
                       (str "Alice") sample_ts))].
Proof.
  destruct (commit_parents_store_ref emptyRepository (str "t1")
              (str "Initial commit") (str "Alice") sample_ts)
    as (_ & _ & _ & _ & _ & Hs).
  destruct (Hs eq_refl) as [H1 H2].
  split; [exact H1 | apply H2].
Defined.

(** C7: [checkout name] succeeds and moves HEAD to [name] exactly when the
    ref table has an entry for [name]; otherwise it reports failure and the
    repository (object store, ref table and HEAD) is unchanged. *)
Theorem checkout_exactly_existing :
  forall (r : GitRepository) (name : jsstring),
    ((exists h, map_get (refs r) name = Some h) ->
       checkout r name =
       ({| objects := objects r; refs := refs r; HEAD := name |}, true))
    /\ (map_get (refs r) name = None -> checkout r name = (r, false))
    /\ (snd (checkout r name) = true <-> exists h, map_get (refs r) name = Some h).
Proof.
  intros r name. unfold checkout, map_has.
  destruct (map_get (refs r) name) as [h|] eqn:E; simpl.
  - repeat split; eauto. intros; discriminate.
  - repeat split; try discriminate.
    + intros [h Hh]; discriminate.
    + intros [h Hh]; discriminate.
Qed.

Lemma checkout_exactly_existing_witness :
  checkout (fst (commit emptyRepository (str "t1") (str "Initial commit")
                        (str "Alice") sample_ts)) (str "main")
  = ({| objects := objects (fst (commit emptyRepository (str "t1")
                        (str "Initial commit") (str "Alice") sample_ts));
        refs := refs (fst (commit emptyRepository (str "t1")
                        (str "Initial commit") (str "Alice") sample_ts));
        HEAD := str "main" |}, true)
  /\ checkout emptyRepository (str "main") = (emptyRepository, false).
Proof.
  split.
  - apply (checkout_exactly_existing
             (fst (commit emptyRepository (str "t1") (str "Initial commit")
                          (str "Alice") sample_ts)) (str "main")).
    eexists. vm_compute. reflexivity.
  - apply (checkout_exactly_existing emptyRepository (str "main")).
    reflexivity.
Defined.

(** C8: when the current reference resolves to a commit (under a
    non-empty fingerprint), [createBranch "feature"], [checkout "feature"]
    and [commit] leave the ref-table entry of every name other than
    "feature" (so "main" and every other earlier branch) as it was, and set
    the entry of "feature" to the new commit's fingerprint. *)
Theorem branch_isolation :
  forall (r : GitRepository) (h : jsstring) (c0 : GitCommit.t)
         (treeHash message author now : jsstring),
    map_get (refs r) (HEAD r) = Some h ->
    truthy h = true ->
    getObject r h = Some (Commit c0) ->
    let r1 := createBranch r (str "feature") None in
    let r2 := fst (checkout r1 (str "feature")) in
    let r3 := fst (commit r2 treeHash message author now) in
    let c := snd (commit r2 treeHash message author now) in
    snd (checkout r1 (str "feature")) = true
    /\ (forall name, name <> str "feature" ->
                     map_get (refs r3) name = map_get (refs r) name)
    /\ map_get (refs r3) (str "main") = map_get (refs r) (str "main")
    /\ map_get (refs r3) (str "feature") = Some (GitCommit.hash c)
    /\ GitCommit.parents c = [h]
    /\ HEAD r3 = str "feature".
Proof.
  intros r h c0 treeHash message author now Hh Ht Hc r1 r2 r3 c.
  assert (E1 : r1 = {| objects := objects r;
                       refs := map_set (refs r) (str "feature") h;
                       HEAD := HEAD r |}).
  { subst r1. unfold createBranch, or_head_ref. rewrite Hh, Ht. reflexivity. }
  assert (E2 : checkout r1 (str "feature") =
               ({| objects := objects r;
                   refs := map_set (refs r) (str "feature") h;
                   HEAD := str "feature" |}, true)).
  { rewrite E1. unfold checkout. simpl.
    rewrite map_has_set, keqb_refl. reflexivity. }
  subst r3 c r2. rewrite E2. unfold commit. simpl.
  rewrite map_get_set_same, Ht.
  repeat split.
  - intros name Hn. rewrite !map_get_set_other by exact Hn. reflexivity.
  - rewrite !map_get_set_other by discriminate. reflexivity.
  - apply map_get_set_same.
Qed.

Lemma branch_isolation_witness :
  map_get
    (refs (fst (commit (fst (checkout (createBranch one_commit_repo
                                          (str "feature") None)
                                      (str "feature")))
                       (str "t2") (str "Work") (str "Bob") sample_ts)))
    (str "main")
  = map_get (refs one_commit_repo) (str "main").
Proof.
  refine (proj1 (proj2 (proj2
    (@branch_isolation one_commit_repo
       (GitCommit.hash (snd (commit emptyRepository (str "t1")
                                    (str "Initial commit") (str "Alice")
                                    sample_ts)))
       (snd (commit emptyRepository (str "t1") (str "Initial commit")
                    (str "Alice") sample_ts))
       (str "t2") (str "Work") (str "Bob") sample_ts _ _ _)))).
  - vm_compute. reflexivity.
  - vm_compute. reflexivity.
  - vm_compute. reflexivity.
Defined.

(* ================================================================= *)
(** ** The measure of the depth-first traversals *)

Lemma unseen_incl (keys : list jsstring) (V V' : jsset jsstring) :
  incl V V' -> (unseen keys V' <= unseen keys V)%nat.
Proof.
  intros Hi. unfold unseen. induction keys as [|x ks IH]; simpl; auto.
  destruct (set_has V x) eqn:E; simpl.
  - apply set_has_In in E. apply Hi in E. apply set_has_In in E.
    rewrite E. simpl. exact IH.
  - destruct (set_has V' x); simpl; lia.
Qed.

Lemma unseen_add (keys : list jsstring) (V : jsset jsstring) (k : jsstring) :
  In k keys -> ~ In k V -> (unseen keys (set_add V k) < unseen keys V)%nat.
Proof.
  intros Hk Hv.
  assert (Hmono : forall ks, (unseen ks (set_add V k) <= unseen ks V)%nat).
  { intros ks. apply unseen_incl. intros x Hx. apply set_add_In. auto. }
  unfold unseen in *. induction keys as [|x ks IH]; simpl; [contradiction|].
  destruct (keqb_spec x k) as [->|Hne].
  - apply set_has_false in Hv. rewrite Hv. simpl.
    assert (E : set_has (set_add V k) k = true).
    { apply set_has_In, set_add_In. auto. }
    rewrite E. simpl. specialize (Hmono ks). lia.
  - destruct Hk as [->|Hk]; [congruence|]. specialize (IH Hk).
    destruct (set_has V x) eqn:E; simpl.
    + assert (E' : set_has (set_add V k) x = true).
      { apply set_has_In, set_add_In. left. apply set_has_In. exact E. }
      rewrite E'. simpl. exact IH.
    + destruct (set_has (set_add V k) x); simpl; lia.
Qed.

Lemma unseen_le_length (keys : list jsstring) (V : jsset jsstring) :
  (unseen keys V <= length keys)%nat.
Proof. unfold unseen. apply filter_length_le. Qed.

Lemma reaches_step objs h p k :
  parent_of objs h p -> reaches objs p k -> reaches objs h k.
Proof. intros. eapply Relation_Operators.rt1n_trans; eauto. Qed.

(** ** [getCommitHistory] *)

Lemma history_dfs_total (objs : jsmap jsstring GitObject) :
  forall fuel h st,
    (unseen (map_keys objs) (fst st) < fuel)%nat ->
    exists st', history_dfs fuel objs h st = Some st'
                /\ history_post objs h st st'.
Proof.
  induction fuel as [|fuel IH]; intros h [V Hs] Hm; [lia|].
  simpl in Hm. simpl.
  destruct (negb (truthy h) || set_has V h) eqn:Eg.
  { exists (V, Hs). split; auto. split; [apply incl_refl|].
    exists []. rewrite app_nil_r. simpl. split; auto. intros c []. }
  apply orb_false_iff in Eg. destruct Eg as [Et Ev].
  apply negb_false_iff in Et. apply set_has_false in Ev.
  assert (Hinc : incl V (set_add V h)).
  { intros x Hx. apply set_add_In. auto. }
  destruct (map_get objs h) as [[b|t|c]|] eqn:Eo;
    try (eexists; split; [reflexivity|]; split; [exact Hinc|];
         exists []; rewrite app_nil_r; simpl; split; auto; intros ? []).
  assert (Hlt : (unseen (map_keys objs) (set_add V h) < fuel)%nat).
  { pose proof (unseen_add (map_keys objs) V h
                  (map_get_Some_has _ _ Eo) Ev). lia. }
  assert (Hloop : forall ps V1 H1,
             incl ps (GitCommit.parents c) ->
             (unseen (map_keys objs) V1 < fuel)%nat ->
             exists st', forEach_opt (history_dfs fuel objs) ps (V1, H1)
                         = Some st'
               /\ incl V1 (fst st')
               /\ exists new, snd st' = H1 ++ new
                    /\ forall c', In c' new ->
                         exists k, reaches objs h k
                                   /\ map_get objs k = Some (Commit c')).
  { induction ps as [|p ps IHps]; intros V1 H1 Hps Hm1; simpl.
    - eexists; split; [reflexivity|]. split; [apply incl_refl|].
      exists []. rewrite app_nil_r. split; auto. intros ? [].
    - destruct (IH p (V1, H1) Hm1) as ([V2 H2] & E2 & Hi2 & new2 & En2 & Hr2).
      rewrite E2. simpl in *.
      destruct (IHps V2 H2) as (st3 & E3 & Hi3 & new3 & En3 & Hr3).
      { intros x Hx. apply Hps. right. exact Hx. }
      { pose proof (unseen_incl (map_keys objs) Hi2). lia. }
      exists st3. split; [exact E3|]. split.
      { eapply incl_tran; eauto. }
      exists (new2 ++ new3). split.
      { rewrite En3, En2, app_assoc. reflexivity. }
      intros c' Hc'. apply in_app_iff in Hc'. destruct Hc' as [Hc'|Hc'].
      + destruct (Hr2 _ Hc') as (Htp & k & Hk & Ek). exists k. split; auto.
        eapply reaches_step; eauto. exists c. repeat split; auto.
        apply Hps. left. reflexivity.
      + apply Hr3. exact Hc'. }
  destruct (Hloop (GitCommit.parents c) (set_add V h) (Hs ++ [c]))
    as (st' & E' & Hi' & new & En & Hr); [apply incl_refl | exact Hlt |].
  exists st'. split; [exact E'|]. split.
  - simpl. eapply incl_tran; eauto.
  - exists (c :: new). simpl. split.
    + rewrite En, <- app_assoc. reflexivity.
    + intros c' [<-|Hc']; (split; [exact Et|]).
      * exists h. split; [apply rt1n_refl | exact Eo].
      * apply Hr. exact Hc'.
Qed.

Lemma getCommitHistory_total (r : GitRepository) (start : option jsstring) :
  exists history, getCommitHistory r start = Some history
    /\ forall c, In c history ->
         exists h k, or_head_ref r start = Some h
                     /\ reaches (objects r) h k
                     /\ getObject r k = Some (Commit c).
Proof.
  unfold getCommitHistory.
  destruct (or_head_ref r start) as [h|] eqn:Eh.
  2:{ exists []. split; auto. intros c []. }
  destruct (truthy h) eqn:Et.
  2:{ exists []. split; auto. intros c []. }
  destruct (@history_dfs_total (objects r) (S (length (objects r))) h ([], []))
    as ([V Hs] & E & _ & new & En & Hr).
  { simpl. pose proof (unseen_le_length (map_keys (objects r)) []).
    unfold map_keys in *. rewrite length_map in *. lia. }
  rewrite E. simpl in *. exists Hs. split; auto.
  intros c Hc. subst Hs. destruct (Hr c Hc) as (_ & k & Hk & Ek).
  exists h, k. auto.
Qed.

(** C10: [getCommitHistory] returns the empty sequence when the start
    fingerprint (the argument when it is given and non-empty, otherwise the
    target of the current reference) is absent from the object store or
    names an object whose kind is not "commit", and when the current
    reference has no target at all.  In general the call
    returns, every member of the history is a commit found in the store,
    and it is reached from the start through stored commits only: the
    traversal never goes past a blob, a tree or a missing object. *)
Theorem history_only_commits :
  forall (r : GitRepository) (start : option jsstring),
    (forall h,
        (start = Some h /\ truthy h = true)
        \/ ((start = None \/ start = Some [])
            /\ map_get (refs r) (HEAD r) = Some h) ->
        (getObject r h = None
         \/ exists o, getObject r h = Some o /\ obj_type o <> str "commit") ->
        getCommitHistory r start = Some [])
    /\ ((start = None \/ start = Some []) ->
        map_get (refs r) (HEAD r) = None ->
        getCommitHistory r start = Some [])
    /\ exists history,
         getCommitHistory r start = Some history
         /\ forall c, In c history ->
              exists h k, or_head_ref r start = Some h
                          /\ reaches (objects r) h k
                          /\ getObject r k = Some (Commit c)
                          /\ obj_type (Commit c) = str "commit".
Proof.
  intros r start. split; [|split].
  - intros h Hstart Hobj.
    assert (Eh : or_head_ref r start = Some h).
    { destruct Hstart as [[-> Ht]|[[->| ->] Hr]]; simpl; auto.
      rewrite Ht. reflexivity. }
    unfold getCommitHistory. rewrite Eh.
    destruct (truthy h) eqn:Et; [|reflexivity].
    simpl. rewrite Et. simpl. unfold getObject in Hobj.
    destruct Hobj as [->|(o & -> & Ho)]; [reflexivity|].
    destruct o; simpl in *; try reflexivity. congruence.
  - intros Hs Hn. unfold getCommitHistory.
    destruct Hs as [-> | ->]; simpl; rewrite Hn; reflexivity.
  - destruct (getCommitHistory_total r start) as (history & E & Hh).
    exists history. split; [exact E|].
    intros c Hc. destruct (Hh c Hc) as (h & k & H1 & H2 & H3).
    exists h, k. auto.
Qed.

Lemma history_only_commits_witness :
  getCommitHistory blob_repo
    (Some (GitBlob.hash (GitBlob.new (str "hello")))) = Some [].
Proof.
  apply (proj1 (history_only_commits blob_repo
                  (Some (GitBlob.hash (GitBlob.new (str "hello")))))
               (GitBlob.hash (GitBlob.new (str "hello")))).
  - left. split; [reflexivity | vm_compute; reflexivity].
  - right. exists (Blob (GitBlob.new (str "hello"))).
    split; [vm_compute; reflexivity | discriminate].
Defined.

(** ** [findMergeBase] *)

Lemma traverse_total (objs : jsmap jsstring GitObject) :
  forall fuel h V,
    (unseen (map_keys objs) V < fuel)%nat ->
    exists V', traverse fuel objs h V = Some V' /\ traverse_post objs h V V'.
Proof.
  induction fuel as [|fuel IH]; intros h V Hm; [lia|].
  simpl.
  destruct (negb (truthy h) || set_has V h) eqn:Eg.
  { exists V. split; auto. repeat split; auto using incl_refl.
    intros Ht. rewrite Ht in Eg. simpl in Eg. apply set_has_In. exact Eg. }
  apply orb_false_iff in Eg. destruct Eg as [Et Ev].
  apply negb_false_iff in Et. apply set_has_false in Ev.
  assert (Hinc : incl V (set_add V h)).
  { intros x Hx. apply set_add_In. auto. }
  assert (Hh : In h (set_add V h)) by (apply set_add_In; auto).
  assert (Hleaf : (forall c, map_get objs h <> Some (Commit c)) ->
                  traverse_post objs h V (set_add V h)).
  { intros Hn. repeat split; auto.
    - intros k Hk. apply set_add_In in Hk. destruct Hk as [Hk| ->]; auto.
      right. split; auto. apply rt1n_refl.
    - intros S HS v Hv HvS p Hp. apply set_add_In in Hv.
      destruct Hv as [Hv| ->].
      + apply Hinc. eapply HS; eauto.
      + destruct Hp as (c & Ec & _). exfalso. eapply Hn; eauto. }
  destruct (map_get objs h) as [[b|t|c]|] eqn:Eo;
    try (eexists; split; [reflexivity|]; apply Hleaf; congruence).
  clear Hleaf.
  assert (Hlt : (unseen (map_keys objs) (set_add V h) < fuel)%nat).
  { pose proof (unseen_add (map_keys objs) V h
                  (map_get_Some_has _ _ Eo) Ev). lia. }
  assert (Hloop : forall ps V1,
             incl ps (GitCommit.parents c) ->
             (unseen (map_keys objs) V1 < fuel)%nat ->
             exists V2, forEach_opt (traverse fuel objs) ps V1 = Some V2
               /\ incl V1 V2
               /\ (forall p, In p ps -> truthy p = true -> In p V2)
               /\ (forall k, In k V2 ->
                     In k V1 \/ (truthy h = true /\ reaches objs h k))
               /\ (forall S, closed_except objs V1 S ->
                             closed_except objs V2 S)).
  { induction ps as [|p ps IHps]; intros V1 Hps Hm1; simpl.
    - exists V1. repeat split; auto using incl_refl. intros p [].
    - destruct (IH p V1 Hm1) as (V2 & E2 & Hi2 & Hp2 & Hs2 & Hc2).
      rewrite E2.
      destruct (IHps V2) as (V3 & E3 & Hi3 & Hp3 & Hs3 & Hc3).
      { intros x Hx. apply Hps. right. exact Hx. }
      { pose proof (unseen_incl (map_keys objs) Hi2). lia. }
      exists V3. split; [exact E3|]. repeat split.
      + eapply incl_tran; eauto.
      + intros q [<-|Hq] Hq'; auto.
      + intros k Hk. destruct (Hs3 k Hk) as [Hk2|Hk2]; auto.
        destruct (Hs2 k Hk2) as [Hk1|[Htp Hk1]]; auto.
        right. split; auto. eapply reaches_step; eauto.
        exists c. repeat split; auto. apply Hps. left. reflexivity.
      + intros S HS. apply Hc3, Hc2, HS. }
  destruct (Hloop (GitCommit.parents c) (set_add V h))
    as (V' & E' & Hi' & Hp' & Hs' & Hc'); [apply incl_refl | exact Hlt |].
  exists V'. split; [exact E'|]. repeat split.
  - eapply incl_tran; eauto.
  - intros _. apply Hi'. exact Hh.
  - intros k Hk. destruct (Hs' k Hk) as [Hk1|Hk1]; auto.
    apply set_add_In in Hk1. destruct Hk1 as [Hk1| ->]; auto.
    right. split; auto. apply rt1n_refl.
  - intros S HS.
    assert (H1 : closed_except objs (set_add V h) (h :: S)).
    { intros v Hv HvS p Hp. apply set_add_In in Hv.
      destruct Hv as [Hv| ->]; [|exfalso; apply HvS; left; reflexivity].
      apply Hinc. eapply HS; eauto. intros Hin. apply HvS. right. exact Hin. }
    apply Hc' in H1. intros v Hv HvS p Hp.
    destruct (key_eq_dec v h) as [->|Hne].
    + destruct Hp as (c' & Ec' & Hin & Htp).
      rewrite Eo in Ec'. inversion Ec'; subst c'. apply Hp'; auto.
    + eapply H1; eauto. intros [E|Hin]; [congruence | contradiction].
Qed.

(** [traverse] from a fingerprint computes exactly its inclusive
    ancestor set. *)
Lemma traverse_ancestors (objs : jsmap jsstring GitObject) (h : jsstring) :
  truthy h = true ->
  exists A, traverse (S (length objs)) objs h [] = Some A
            /\ forall k, In k A <-> reaches objs h k.
Proof.
  intros Ht.
  destruct (@traverse_total objs (S (length objs)) h [])
    as (A & E & Hi & Hh & Hs & Hc).
  { pose proof (unseen_le_length (map_keys objs) []).
    unfold map_keys in *. rewrite length_map in *. lia. }
  exists A. split; [exact E|]. intros k. split.
  - intros Hk. destruct (Hs k Hk) as [[]|[_ Hr]]. exact Hr.
  - intros Hr. assert (Hcl : closed_except objs A []).
    { apply Hc. intros v []. }
    specialize (Hh Ht). clear - Hr Hh Hcl.
    induction Hr as [|x y z Hxy Hyz IH]; auto.
    apply IH. eapply Hcl; eauto.
Qed.













(* ================================================================= *)
(** ** Fingerprints and the 32-bit hash *)

Lemma digit_value_hexdigit (x : Z) :
  (0 <= x < 16)%Z -> digit_value (GitHash.hexdigit x) = x.
Proof.
  intros Hx. unfold digit_value, GitHash.hexdigit.
  destruct (Z.ltb_spec x 10).
  - destruct (N.ltb_spec (Z.to_N (48 + x)) 58); lia.
  - destruct (N.ltb_spec (Z.to_N (87 + x)) 58); lia.
Qed.

Lemma hex_value_app_acc (l acc : jsstring) (a : Z) :
  fold_left (fun a d => a * 16 + digit_value d)%Z (l ++ acc) a =
  fold_left (fun a d => a * 16 + digit_value d)%Z acc
            (fold_left (fun a d => a * 16 + digit_value d)%Z l a).
Proof. apply fold_left_app. Qed.

Lemma hex_aux_digits :
  forall fuel n acc,
    (0 <= n < 16 ^ Z.of_nat fuel)%Z -> (0 < fuel)%nat ->
    exists D, GitHash.hex_aux fuel n acc = D ++ acc
              /\ (length D <= fuel)%nat
              /\ forall a, fold_left (fun a d => a * 16 + digit_value d)%Z D a
                           = (a * 16 ^ Z.of_nat (length D) + n)%Z.
Proof.
  induction fuel as [|fuel IH]; intros n acc Hn Hf; [lia|].
  simpl GitHash.hex_aux.
  assert (Hmod : (0 <= n mod 16 < 16)%Z) by (apply Z.mod_pos_bound; lia).
  destruct (Z.eqb_spec (n / 16) 0) as [E|E].
  - exists [GitHash.hexdigit (n mod 16)]. simpl. repeat split; try lia.
    intros a. rewrite digit_value_hexdigit by exact Hmod.
    pose proof (Z.div_mod n 16). lia.
  - assert (Hq : (0 <= n / 16 < 16 ^ Z.of_nat fuel)%Z).
    { split; [apply Z.div_pos; lia|].
      apply Z.div_lt_upper_bound; [lia|].
      replace (Z.of_nat (S fuel)) with (Z.of_nat fuel + 1)%Z in Hn by lia.
      rewrite Z.pow_add_r in Hn by lia. lia. }
    assert (Hfuel : (0 < fuel)%nat).
    { destruct fuel; [|lia]. simpl in Hq. lia. }
    destruct (IH (n / 16)%Z (GitHash.hexdigit (n mod 16) :: acc) Hq Hfuel)
      as (D & ED & HL & HV).
    exists (D ++ [GitHash.hexdigit (n mod 16)]). repeat split.
    + rewrite ED, <- app_assoc. reflexivity.
    + rewrite length_app. simpl. lia.
    + intros a. rewrite fold_left_app, HV. simpl.
      rewrite digit_value_hexdigit by exact Hmod.
      rewrite length_app. simpl.
      replace (Z.of_nat (length D + 1)) with (Z.of_nat (length D) + 1)%Z by lia.
      rewrite Z.pow_add_r by lia.
      pose proof (Z.div_mod n 16). lia.
Qed.

Lemma hex_value_zeros (k : nat) (l : jsstring) :
  hex_value (repeat 48%N k ++ l) = hex_value l.
Proof.
  unfold hex_value. rewrite fold_left_app.
  replace (fold_left (fun a d => a * 16 + digit_value d)%Z (repeat 48%N k) 0%Z)
    with 0%Z; auto.
  induction k as [|k IH]; simpl; auto.
Qed.

(** The fingerprint of a 32-bit hash spells its absolute value. *)
Lemma hex_value_fingerprint (h : Z) :
  (- 2 ^ 31 <= h < 2 ^ 31)%Z ->
  hex_value (GitHash.fingerprint h) = Z.abs h.
Proof.
  intros Hh. unfold GitHash.fingerprint, GitHash.toString16, GitHash.padStart.
  set (n := Z.abs h). assert (Hn : (0 <= n <= 2 ^ 31)%Z) by (subst n; lia).
  set (fuel := S (Z.to_nat (Z.log2 n))).
  assert (Hlog : (Z.log2 n <= 31)%Z).
  { transitivity (Z.log2 (2 ^ 31)); [apply Z.log2_le_mono; lia|].
    rewrite Z.log2_pow2; lia. }
  assert (Hpow : (n < 16 ^ Z.of_nat fuel)%Z).
  { destruct (Z.eq_dec n 0) as [->|]; [apply Z.pow_pos_nonneg; lia|].
    assert (n < 2 ^ Z.succ (Z.log2 n))%Z by (apply Z.log2_spec; lia).
    assert (Z.of_nat fuel = Z.succ (Z.log2 n)).
    { subst fuel. pose proof (Z.log2_nonneg n). lia. }
    rewrite H0.
    assert (2 ^ Z.succ (Z.log2 n) <= 16 ^ Z.succ (Z.log2 n))%Z.
    { apply Z.pow_le_mono_l. lia. }
    lia. }
  destruct (@hex_aux_digits fuel n [] (conj (proj1 Hn) Hpow))
    as (D & ED & HL & HV); [subst fuel; lia|].
  rewrite ED, app_nil_r.
  assert (HfuelLe : (fuel <= 32)%nat) by (subst fuel; lia).
  rewrite firstn_all2 by (rewrite length_app, repeat_length; lia).
  rewrite hex_value_zeros. unfold hex_value. rewrite HV. lia.
Qed.

Lemma toInt32_range (z : Z) : (- 2 ^ 31 <= GitHash.toInt32 z < 2 ^ 31)%Z.
Proof.
  unfold GitHash.toInt32.
  pose proof (Z.mod_pos_bound (z + 2 ^ 31) (2 ^ 32)). lia.
Qed.

Lemma hash32_range (s : jsstring) : (- 2 ^ 31 <= GitHash.hash32 s < 2 ^ 31)%Z.
Proof.
  unfold GitHash.hash32.
  assert (H : forall l a, (- 2 ^ 31 <= a < 2 ^ 31)%Z ->
                          (- 2 ^ 31 <= fold_left GitHash.step l a < 2 ^ 31)%Z).
  { induction l as [|c l IH]; intros a Ha; simpl; auto.
    apply IH. apply toInt32_range. }
  apply H. lia.
Qed.

(** Two contents have the same fingerprint exactly when their 32-bit
    hashes have the same absolute value. *)
Lemma generate_eq_iff (j1 j2 : GitHash.json) :
  GitHash.generate j1 = GitHash.generate j2 <->
  Z.abs (GitHash.hash32 (GitHash.stringify j1))
  = Z.abs (GitHash.hash32 (GitHash.stringify j2)).
Proof.
  unfold GitHash.generate. split.
  - intros E. apply (f_equal hex_value) in E.
    rewrite !hex_value_fingerprint in E by apply hash32_range. exact E.
  - intros E. unfold GitHash.fingerprint. rewrite E. reflexivity.
Qed.

(** ** Trees *)

(** C5, as stated, fails: the fingerprint is a 32-bit hash, and adding the
    entry below to the empty tree changes the entries but not the hash. *)
Lemma addEntry_hash_unchanged :
  let t := GitTree.new [] in
  let t' := GitTree.addEntry t (str "100644") (str "0Zzkoov.txt")
                             sample_blob_hash (str "blob") in
  GitTree.entries t' <> GitTree.entries t
  /\ GitTree.hash t' = GitTree.hash t.
Proof.
  split; [discriminate | vm_compute; reflexivity].
Qed.

(** C5, amended: [addEntry] appends the entry to the entries and sets the
    hash to the fingerprint of the tree's tag and the extended entries.
    For a tree whose hash is the fingerprint of its entries, the new hash
    differs from the old one exactly when the 32-bit hashes of the two
    serializations differ in absolute value. *)
Theorem addEntry_appends_rehashes :
  forall (t : GitTree.t) (mode name hash type : jsstring),
    let e := GitTree.mkEntry mode name hash type in
    let t' := GitTree.addEntry t mode name hash type in
    GitTree.entries t' = GitTree.entries t ++ [e]
    /\ GitTree.hash t' =
       GitHash.generate (GitTree.json_of (GitTree.entries t ++ [e]))
    /\ (GitTree.hash t = GitHash.generate (GitTree.json_of (GitTree.entries t)) ->
        (GitTree.hash t' <> GitTree.hash t <->
         Z.abs (GitHash.hash32 (GitHash.stringify
                  (GitTree.json_of (GitTree.entries t ++ [e]))))
         <> Z.abs (GitHash.hash32 (GitHash.stringify
                     (GitTree.json_of (GitTree.entries t)))))).
Proof.
  intros t mode name hash type e t'. split; [reflexivity|].
  split; [reflexivity|].
  intros Ht. subst t'. unfold GitTree.addEntry. simpl. rewrite Ht.
  fold e. rewrite generate_eq_iff. tauto.
Qed.

Lemma addEntry_appends_rehashes_witness :
  GitTree.hash (GitTree.addEntry (GitTree.new []) (str "100644")
                                 (str "README.md") sample_blob_hash
                                 (str "blob"))
  <> GitTree.hash (GitTree.new []).
Proof.
  apply (proj2 (proj2 (addEntry_appends_rehashes (GitTree.new [])
                         (str "100644") (str "README.md") sample_blob_hash
                         (str "blob")))).
  - reflexivity.
  - vm_compute. discriminate.
Defined.

(* ================================================================= *)
(** ** Maps filled by a loop of [set] *)

Section FoldSet.
Context {A V : Type}.
Variables (key : A -> jsstring) (val : A -> V).

Lemma fill_keys_In (l : list A) (m0 : jsmap jsstring V) (k : jsstring) :
  In k (map_keys (fill key val l m0)) <-> In k (map_keys m0) \/ In k (map key l).
Proof.
  unfold fill. revert m0. induction l as [|n l IH]; intros m0; simpl.
  - tauto.
  - rewrite IH, map_keys_set.
    destruct (map_has m0 (key n)) eqn:E.
    + apply map_has_In in E. intuition congruence.
    + rewrite in_app_iff. simpl. intuition congruence.
Qed.

Lemma fill_NoDup (l : list A) (m0 : jsmap jsstring V) :
  NoDup (map_keys m0) -> NoDup (map_keys (fill key val l m0)).
Proof.
  unfold fill. revert m0. induction l as [|n l IH]; intros m0 H0; simpl; auto.
  apply IH. apply map_keys_set_NoDup. exact H0.
Qed.

Lemma fill_get_const (c : V) (l : list A) (m0 : jsmap jsstring V)
    (k : jsstring) :
  (forall n, val n = c) ->
  map_get (fill key val l m0) k =
  if set_has (map key l) k then Some c else map_get m0 k.
Proof.
  intros Hc. unfold fill. revert m0.
  induction l as [|n l IH]; intros m0; simpl; auto.
  rewrite IH. destruct (set_has (map key l) k) eqn:E.
  - rewrite orb_true_r. reflexivity.
  - rewrite orb_false_r, map_get_set, Hc. reflexivity.
Qed.

Lemma fill_fresh (l : list A) (m0 : jsmap jsstring V) :
  NoDup (map_keys m0 ++ map key l) ->
  fill key val l m0 = m0 ++ map (fun n => (key n, val n)) l.
Proof.
  unfold fill. revert m0. induction l as [|n l IH]; intros m0 Hnd; simpl.
  - rewrite app_nil_r. reflexivity.
  - assert (Hset : map_set m0 (key n) (val n) = m0 ++ [(key n, val n)]).
    { assert (Hn : ~ In (key n) (map_keys m0)).
      { simpl in Hnd. apply NoDup_remove_2 in Hnd.
        intros Hin. apply Hnd. apply in_app_iff. auto. }
      apply map_set_fresh. exact Hn. }
    rewrite Hset, IH.
    + rewrite <- app_assoc. reflexivity.
    + unfold map_keys in *. rewrite map_app. simpl.
      rewrite <- app_assoc. exact Hnd.
Qed.
End FoldSet.

(* ================================================================= *)
(** ** Topological sort *)

Lemma topo_init_split (nodes : list GraphNode) :
  topo_init nodes =
  (fill id (fun _ => @nil jsstring) nodes [],
   fill id (fun _ => Num 0) nodes []).
Proof.
  unfold topo_init, fill.
  generalize (@nil (jsstring * list jsstring)) as g.
  generalize (@nil (jsstring * jsnum)) as d.
  induction nodes as [|n nodes IH]; intros d g; simpl; auto.
Qed.

Lemma map_has_fill_ids {V : Type} (val : GraphNode -> V)
    (nodes : list GraphNode) (k : jsstring) :
  map_has (fill id val nodes []) k = set_has (map id nodes) k.
Proof.
  destruct (set_has (map id nodes) k) eqn:E.
  - apply map_has_In, fill_keys_In. right. apply set_has_In. exact E.
  - destruct (map_has (fill id val nodes []) k) eqn:E'; auto.
    apply map_has_In, fill_keys_In in E'. destruct E' as [[]|E'].
    apply set_has_In in E'. congruence.
Qed.

Unset Implicit Arguments.

Lemma topo_edge_valid K g d e :
  (forall k, map_has g k = set_has K k) ->
  valid_edge K e = true ->
  topo_edge (g, d) e =
  (map_set g (from e) (neighbors_of g (from e) ++ [to e]),
   map_set d (to e) (incr_or_zero (map_get d (to e)))).
Proof.
  intros Hg Hv. unfold topo_edge. unfold valid_edge in Hv.
  rewrite !Hg, Hv. reflexivity.
Qed.

Lemma topo_edge_invalid K g d e :
  (forall k, map_has g k = set_has K k) ->
  valid_edge K e = false ->
  topo_edge (g, d) e = (g, d).
Proof.
  intros Hg Hv. unfold topo_edge. unfold valid_edge in Hv.
  rewrite !Hg, Hv. reflexivity.
Qed.

(** The state after the edge loop. *)
Lemma topo_edges_spec (K : list jsstring) (edges : list Edge) :
  forall (g : jsmap jsstring (list jsstring)) (d : jsmap jsstring jsnum),
    (forall k, map_has g k = set_has K k) ->
    (forall k, set_has K k = true -> exists z, map_get d k = Some (Num z)) ->
    exists g' d',
      topo_edges edges (g, d) = (g', d')
      /\ (forall k, map_has g' k = set_has K k)
      /\ map_keys d' = map_keys d
      /\ (forall k, neighbors_of g' k = neighbors_of g k ++ adj K edges k)
      /\ (forall k z, map_get d k = Some (Num z) ->
            map_get d' k =
            Some (Num (z + Z.of_nat (remaining K edges [] k)))).
Proof.
  unfold topo_edges.
  induction edges as [|e edges IH]; intros g d Hg Hd.
  - exists g, d. simpl. repeat split; auto.
    + intros k. unfold adj. simpl. rewrite app_nil_r. reflexivity.
    + intros k z E. rewrite E. unfold remaining. simpl.
      f_equal. f_equal. lia.
  - change (fold_left topo_edge (e :: edges) (g, d))
      with (fold_left topo_edge edges (topo_edge (g, d) e)).
    destruct (valid_edge K e) eqn:Ev.
    + rewrite (topo_edge_valid K g d e Hg Ev).
      assert (Et : set_has K (to e) = true).
      { unfold valid_edge in Ev. apply andb_true_iff in Ev. tauto. }
      destruct (Hd _ Et) as (zt & Ezt).
      destruct (IH (map_set g (from e) (neighbors_of g (from e) ++ [to e]))
                   (map_set d (to e) (incr_or_zero (map_get d (to e)))))
        as (g' & d' & E & H1 & H2 & H3 & H4).
      { intros k. rewrite map_has_set, Hg.
        destruct (keqb_spec k (from e)) as [->|]; simpl; auto.
        unfold valid_edge in Ev. apply andb_true_iff in Ev.
        destruct Ev as [-> _]. reflexivity. }
      { intros k Hk. rewrite map_get_set.
        destruct (keqb k (to e)); eauto. rewrite Ezt. simpl. eauto. }
      exists g', d'. split; [exact E|]. repeat split.
      * exact H1.
      * rewrite H2, map_keys_set.
        assert (Eh : map_has d (to e) = true).
        { unfold map_has. rewrite Ezt. reflexivity. }
        rewrite Eh. reflexivity.
      * intros k. rewrite H3. unfold neighbors_of at 1.
        rewrite map_get_set. unfold adj. cbn [filter]. rewrite Ev.
        destruct (keqb_spec k (from e)) as [->|Hne].
        -- rewrite keqb_refl. cbn [andb map]. rewrite <- app_assoc.
           reflexivity.
        -- rewrite (@keqb_neq _ _ (from e) k) by congruence. reflexivity.
      * intros k z Ez. unfold remaining. cbn [filter]. rewrite Ev.
        destruct (keqb_spec (to e) k) as [Ek|Hne]; cbn [andb negb set_has].
        -- subst k. rewrite (H4 (to e) (z + 1)%Z).
           { f_equal. f_equal. unfold remaining. simpl. lia. }
           rewrite map_get_set_same, Ez. reflexivity.
        -- rewrite (H4 k z); auto.
           rewrite map_get_set_other by congruence. exact Ez.
    + rewrite (topo_edge_invalid K g d e Hg Ev).
      destruct (IH g d Hg Hd) as (g' & d' & E & H1 & H2 & H3 & H4).
      exists g', d'. split; [exact E|]. repeat split; auto.
      * intros k. rewrite H3. unfold adj. cbn [filter]. rewrite Ev.
        reflexivity.
      * intros k z Ez. rewrite (H4 k z Ez). unfold remaining. cbn [filter].
        rewrite Ev. reflexivity.
Qed.

Lemma occurrences_cons (k x : jsstring) (l : list jsstring) :
  occurrences k (x :: l) =
  ((if keqb x k then 1 else 0) + occurrences k l)%nat.
Proof. unfold occurrences. cbn [filter]. destruct (keqb x k); reflexivity. Qed.

Lemma occurrences_In (k : jsstring) (l : list jsstring) :
  In k l <-> (0 < occurrences k l)%nat.
Proof.
  induction l as [|x l IH].
  - split; [intros [] | unfold occurrences; simpl; lia].
  - rewrite occurrences_cons. cbn [In].
    destruct (keqb_spec x k) as [->|Hne].
    + split; [lia | auto].
    + cbn [Nat.add]. rewrite <- IH.
      split; [intros [E|Hin]; [congruence | exact Hin] | auto].
Qed.

Lemma occurrences_adj (K : list jsstring) (edges : list Edge) (n k : jsstring) :
  occurrences k (adj K edges n) =
  length (filter (fun e => valid_edge K e && keqb (from e) n && keqb (to e) k)
                 edges).
Proof.
  unfold adj. induction edges as [|e edges IH]; [reflexivity|].
  cbn [filter]. destruct (valid_edge K e && keqb (from e) n) eqn:E.
  - cbn [map andb]. rewrite occurrences_cons, IH.
    destruct (keqb (to e) k); reflexivity.
  - cbn [andb]. exact IH.
Qed.

Lemma set_has_app (s : list jsstring) (n x : jsstring) :
  set_has (s ++ [n]) x = set_has s x || keqb x n.
Proof.
  induction s as [|a s IH]; cbn [set_has app].
  - rewrite orb_false_r. reflexivity.
  - rewrite IH, orb_assoc. reflexivity.
Qed.

Lemma remaining_step (K : list jsstring) (edges : list Edge)
    (s : list jsstring) (n k : jsstring) :
  ~ In n s ->
  remaining K edges s k =
  (remaining K edges (s ++ [n]) k + occurrences k (adj K edges n))%nat.
Proof.
  intros Hn. rewrite occurrences_adj. unfold remaining.
  induction edges as [|e edges IH]; [reflexivity|].
  cbn [filter]. rewrite set_has_app.
  destruct (valid_edge K e); cbn [andb]; [|exact IH].
  destruct (keqb (to e) k); cbn [andb];
    [|rewrite andb_false_r; exact IH].
  rewrite andb_true_r.
  destruct (keqb_spec (from e) n) as [E|E].
  - rewrite E. apply set_has_false in Hn. rewrite Hn. cbn [negb orb length].
    rewrite IH. lia.
  - rewrite orb_false_r. destruct (set_has s (from e)); cbn [negb length];
      rewrite IH; lia.
Qed.

Lemma remaining_zero (K : list jsstring) (edges : list Edge)
    (s : list jsstring) (k : jsstring) :
  remaining K edges s k = 0%nat ->
  forall e, In e edges -> valid_edge K e = true -> to e = k -> In (from e) s.
Proof.
  unfold remaining. intros Hz e He Hv Ht.
  destruct (set_has s (from e)) eqn:Es; [apply set_has_In; exact Es|].
  exfalso.
  assert (Hin : In e (filter (fun e => valid_edge K e && keqb (to e) k
                                        && negb (set_has s (from e))) edges)).
  { apply filter_In. split; auto. rewrite Hv, Ht, keqb_refl, Es. reflexivity. }
  destruct (filter _ edges); [contradiction | discriminate].
Qed.

Lemma remaining_pos (K : list jsstring) (edges : list Edge)
    (s : list jsstring) (k : jsstring) :
  remaining K edges s k <> 0%nat ->
  exists e, In e edges /\ valid_edge K e = true /\ to e = k
            /\ ~ In (from e) s.
Proof.
  unfold remaining. intros Hz.
  destruct (filter _ edges) as [|e l] eqn:E; [contradiction|].
  assert (Hin : In e (e :: l)) by (left; reflexivity).
  rewrite <- E in Hin. apply filter_In in Hin. destruct Hin as [He Hb].
  apply andb_true_iff in Hb. destruct Hb as [Hb Hs].
  apply andb_true_iff in Hb. destruct Hb as [Hv Ht].
  exists e. repeat split; auto.
  - apply keqb_true. exact Ht.
  - apply set_has_false. apply negb_true_iff. exact Hs.
Qed.

Lemma adj_In (K : list jsstring) (edges : list Edge) (n k : jsstring) :
  In k (adj K edges n) -> In k K.
Proof.
  unfold adj. intros H. apply in_map_iff in H. destruct H as (e & <- & He).
  apply filter_In in He. destruct He as [_ Hb].
  apply andb_true_iff in Hb. destruct Hb as [Hv _].
  unfold valid_edge in Hv. apply andb_true_iff in Hv.
  apply set_has_In. tauto.
Qed.

(** The [neighbors.forEach] loop inside the main loop. *)
Lemma topo_visit_fold :
  forall (L : list jsstring) (d : jsmap jsstring jsnum) (q : list jsstring),
    (forall k, In k L ->
       exists v, map_get d k = Some (Num v)
                 /\ (Z.of_nat (occurrences k L) <= v)%Z) ->
    exists d' P,
      fold_left (fun st nb => topo_visit nb st) L (d, q) = (d', q ++ P)
      /\ (forall k v, map_get d k = Some (Num v) ->
            map_get d' k = Some (Num (v - Z.of_nat (occurrences k L))))
      /\ NoDup P
      /\ (forall k, In k P <->
            In k L /\ exists v, map_get d k = Some (Num v)
                                /\ (v - Z.of_nat (occurrences k L) = 0)%Z).
Proof.
  induction L as [|x L IH]; intros d q Hpre.
  - exists d, []. cbn [fold_left]. rewrite app_nil_r. split4.
    + reflexivity.
    + intros k v E. rewrite E. unfold occurrences. simpl.
      f_equal. f_equal. lia.
    + constructor.
    + intros k. split; [intros [] | intros [[] _]].
  - destruct (Hpre x (or_introl eq_refl)) as (vx & Ex & Hvx).
    rewrite occurrences_cons, keqb_refl in Hvx.
    cbn [fold_left]. unfold topo_visit at 2.
    rewrite Ex. cbn [decr]. rewrite map_get_set_same. cbn [is_zero].
    set (d1 := map_set d x (Num (vx - 1))).
    assert (Hd1 : forall k, map_get d1 k =
                            if keqb k x then Some (Num (vx - 1))
                            else map_get d k).
    { intros k. unfold d1. apply map_get_set. }
    assert (Hpre1 : forall k, In k L ->
               exists v, map_get d1 k = Some (Num v)
                         /\ (Z.of_nat (occurrences k L) <= v)%Z).
    { intros k Hk. rewrite Hd1. destruct (keqb_spec k x) as [->|Hne].
      - exists (vx - 1)%Z. split; auto. lia.
      - destruct (Hpre k (or_intror Hk)) as (v & Ev & Hv).
        exists v. split; auto. rewrite occurrences_cons in Hv.
        rewrite keqb_neq in Hv by congruence. exact Hv. }
    assert (Hval : forall d' k v,
               (forall k v, map_get d1 k = Some (Num v) ->
                  map_get d' k = Some (Num (v - Z.of_nat (occurrences k L)))) ->
               map_get d k = Some (Num v) ->
               map_get d' k =
               Some (Num (v - Z.of_nat (occurrences k (x :: L))))).
    { intros d' k v H' E. rewrite occurrences_cons.
      destruct (keqb_spec x k) as [<-|Hne].
      - rewrite Ex in E. inversion E; subst v.
        rewrite (H' x (vx - 1)%Z).
        + f_equal. f_equal. lia.
        + rewrite Hd1, keqb_refl. reflexivity.
      - rewrite (H' k v).
        + f_equal.
        + rewrite Hd1, keqb_neq by congruence. exact E. }
    assert (Hmem : forall P',
               (forall k, In k P' <->
                  In k L /\ exists v, map_get d1 k = Some (Num v)
                              /\ (v - Z.of_nat (occurrences k L) = 0)%Z) ->
               forall k, k <> x ->
                 (In k P' <->
                  In k (x :: L)
                  /\ exists v, map_get d k = Some (Num v)
                       /\ (v - Z.of_nat (occurrences k (x :: L)) = 0)%Z)).
    { intros P' HP' k Hne. rewrite HP', Hd1, occurrences_cons.
      rewrite (keqb_neq (a:=k) (b:=x)) by exact Hne.
      rewrite (keqb_neq (a:=x) (b:=k)) by congruence.
      simpl. intuition congruence. }
    destruct (Z.eqb_spec (vx - 1) 0) as [Ez|Ez].
    + destruct (IH d1 (q ++ [x]) Hpre1) as (d' & P' & E & Hv' & Hnd & HP').
      assert (HxL : ~ In x L).
      { intros Hin. apply occurrences_In in Hin. lia. }
      assert (Hox : occurrences x L = 0%nat).
      { destruct (occurrences x L) eqn:Eo; auto.
        exfalso. apply HxL. apply occurrences_In. lia. }
      exists d', (x :: P'). split4.
      * rewrite E, <- app_assoc. reflexivity.
      * intros k v. apply Hval. exact Hv'.
      * constructor; auto. rewrite HP'. tauto.
      * intros k. destruct (key_eq_dec k x) as [->|Hne].
        -- split; [intros _ | intros _; left; reflexivity].
           split; [left; reflexivity|]. exists vx. split; auto.
           rewrite occurrences_cons, keqb_refl. lia.
        -- rewrite <- (Hmem P' HP' k Hne). cbn [In].
           split; [intros [Hk|Hk]; [congruence | exact Hk] | auto].
    + destruct (IH d1 q Hpre1) as (d' & P' & E & Hv' & Hnd & HP').
      exists d', P'. split4; auto.
      intros k. destruct (key_eq_dec k x) as [->|Hne];
        [|apply (Hmem P' HP' k Hne)].
      rewrite HP', Hd1, keqb_refl, occurrences_cons, keqb_refl. split.
      * intros (Hin & v & Ev & Hz). inversion Ev; subst v.
        split; [left; reflexivity|]. exists vx. split; auto. lia.
      * intros (_ & v & Ev & Hz). rewrite Ex in Ev. inversion Ev; subst v.
        assert (Hocc : (0 < occurrences x L)%nat) by lia.
        split; [apply occurrences_In; exact Hocc|].
        exists (vx - 1)%Z. split; auto. lia.
Qed.

Section Kahn.
Variables (K : list jsstring) (edges : list Edge).
Variable g : jsmap jsstring (list jsstring).
Hypothesis Hg : forall k, neighbors_of g k = adj K edges k.

Lemma topo_inv_step (d : jsmap jsstring jsnum) (n : jsstring)
    (q0 s : list jsstring) :
  topo_inv K edges d (n :: q0) s ->
  exists d' q',
    fold_left (fun st nb => topo_visit nb st) (neighbors_of g n) (d, q0)
    = (d', q')
    /\ topo_inv K edges d' q' (s ++ [n]).
Proof.
  intros [Hnd Hdeg Hmem Hord]. rewrite Hg.
  assert (Hns : ~ In n s).
  { apply NoDup_remove_2 in Hnd. intros Hin. apply Hnd.
    apply in_app_iff. auto. }
  assert (Hn0 : In n K /\ remaining K edges s n = 0%nat).
  { apply Hmem. apply in_app_iff. right. left. reflexivity. }
  destruct (topo_visit_fold (adj K edges n) d q0) as (d' & P & E & Hv & HP & HPm).
  { intros k Hk. exists (Z.of_nat (remaining K edges s k)). split.
    - apply Hdeg. eapply adj_In; eauto.
    - rewrite (remaining_step K edges s n k Hns). lia. }
  exists d', (q0 ++ P). split; [exact E|].
  assert (Hrem : forall k, In k K ->
            map_get d' k = Some (Num (Z.of_nat (remaining K edges (s ++ [n]) k)))).
  { intros k Hk. rewrite (Hv k _ (Hdeg k Hk)).
    rewrite (remaining_step K edges s n k Hns). f_equal. f_equal. lia. }
  assert (HPin : forall k, In k P <->
            In k (adj K edges n) /\ remaining K edges (s ++ [n]) k = 0%nat).
  { intros k. rewrite HPm. split.
    - intros (Hin & v & Ev & Hz). split; auto.
      rewrite (Hdeg k (adj_In K edges n k Hin)) in Ev. inversion Ev; subst v.
      rewrite (remaining_step K edges s n k Hns) in Hz. lia.
    - intros (Hin & Hz). split; auto.
      exists (Z.of_nat (remaining K edges s k)). split.
      + apply Hdeg. eapply adj_In; eauto.
      + rewrite (remaining_step K edges s n k Hns). lia. }
  constructor.
  - (* no duplicates *)
    replace ((s ++ [n]) ++ q0 ++ P) with ((s ++ n :: q0) ++ P)
      by (rewrite <- !app_assoc; reflexivity).
    apply NoDup_app; auto.
    intros k Hk HkP. apply HPin in HkP. destruct HkP as [Hadj Hz].
    apply Hmem in Hk. destruct Hk as [_ Hz'].
    revert Hz'. intros Hz'.
    apply occurrences_In in Hadj.
    rewrite (remaining_step K edges s n k Hns) in Hz'. lia.
  - exact Hrem.
  - (* members *)
    intros k.
    assert (Hsame : In k ((s ++ [n]) ++ q0 ++ P) <-> In k (s ++ n :: q0) \/ In k P).
    { rewrite !in_app_iff. simpl. tauto. }
    rewrite Hsame, Hmem, HPin. split.
    + intros [[Hk Hz]|[Hadj Hz]].
      * split; auto. rewrite (remaining_step K edges s n k Hns) in Hz. lia.
      * split; auto. eapply adj_In; eauto.
    + intros [Hk Hz].
      destruct (Nat.eq_dec (remaining K edges s k) 0) as [Hz'|Hz']; auto.
      right. split; auto. apply occurrences_In.
      rewrite (remaining_step K edges s n k Hns) in Hz'. lia.
  - (* order *)
    intros e s1 s2 He Hv' Es.
    destruct s2 as [|y s2].
    + apply app_inj_tail in Es. destruct Es as [<- Hte].
      destruct Hn0 as [_ Hz]. eapply remaining_zero; eauto.
    + destruct (@exists_last _ (y :: s2)) as (s2' & x & Ex); [discriminate|].
      rewrite Ex in Es.
      assert (Es' : s ++ [n] = (s1 ++ to e :: s2') ++ [x]).
      { rewrite Es, <- app_assoc. reflexivity. }
      apply app_inj_tail in Es'. destruct Es' as [Es' _].
      eapply Hord; eauto.
Qed.

Lemma topo_loop_inv :
  forall fuel d q s,
    topo_inv K edges d q s ->
    (length K <= length s + fuel)%nat ->
    exists r, topo_loop fuel g d q s = Some r /\ kahn_sorted K edges r.
Proof.
  induction fuel as [|fuel IH]; intros d q s Hinv Hlen.
  - destruct q as [|n q0].
    + exists s. split; [reflexivity|].
      destruct Hinv as [Hnd _ Hmem Hord]. rewrite app_nil_r in *.
      split; [exact Hnd | split; [exact Hmem | exact Hord]].
    + exfalso. destruct Hinv as [Hnd _ Hmem _].
      assert (Hincl : incl (s ++ n :: q0) K).
      { intros k Hk. apply Hmem in Hk. tauto. }
      pose proof (NoDup_incl_length Hnd Hincl) as Hl.
      rewrite length_app in Hl. simpl in Hl. lia.
  - destruct q as [|n q0].
    + exists s. split; [reflexivity|].
      destruct Hinv as [Hnd _ Hmem Hord]. rewrite app_nil_r in *.
      split; [exact Hnd | split; [exact Hmem | exact Hord]].
    + destruct (topo_inv_step d n q0 s Hinv) as (d' & q' & E & Hinv').
      cbn [topo_loop]. rewrite E. apply IH; auto.
      rewrite length_app. simpl. lia.
Qed.
End Kahn.

Lemma NoDup_filter_fst {A B : Type} (f : A * B -> bool) (l : list (A * B)) :
  NoDup (map fst l) -> NoDup (map fst (filter f l)).
Proof.
  induction l as [|x l IH]; simpl; intros H; [constructor|].
  inversion H; subst. destruct (f x); simpl; auto.
  constructor; auto. intros Hin. apply H2.
  apply in_map_iff in Hin. destruct Hin as (y & Ey & Hy).
  apply filter_In in Hy. apply in_map_iff. exists y. tauto.
Qed.

(** [topologicalSort] returns, and its result is the reverse of a list
    with the properties of [kahn_sorted]. *)
Lemma topologicalSort_sound (nodes : list GraphNode) (edges : list Edge) :
  exists r, topologicalSort nodes edges = Some (rev r)
            /\ kahn_sorted (map id nodes) edges r.
Proof.
  set (K := map id nodes).
  unfold topologicalSort. rewrite topo_init_split.
  destruct (topo_edges_spec K edges
              (fill id (fun _ => @nil jsstring) nodes [])
              (fill id (fun _ => Num 0) nodes []))
    as (g & d & E & Hg & Hkeys & Hadj & Hdeg).
  { intros k. apply map_has_fill_ids. }
  { intros k Hk. exists 0%Z.
    rewrite (@fill_get_const GraphNode jsnum id (fun _ => Num 0) (Num 0) nodes [] k)
      by reflexivity.
    fold K. rewrite Hk. reflexivity. }
  rewrite E.
  assert (Hadj' : forall k, neighbors_of g k = adj K edges k).
  { intros k. rewrite Hadj. unfold neighbors_of.
    rewrite (@fill_get_const GraphNode (list jsstring) id (fun _ => [])
               [] nodes [] k) by reflexivity.
    destruct (set_has (map id nodes) k); reflexivity. }
  assert (Hd : forall k, In k K ->
             map_get d k = Some (Num (Z.of_nat (remaining K edges [] k)))).
  { intros k Hk. rewrite (Hdeg k 0%Z); [reflexivity|].
    rewrite (@fill_get_const GraphNode jsnum id (fun _ => Num 0) (Num 0) nodes [] k)
      by reflexivity.
    fold K. apply set_has_In in Hk. rewrite Hk. reflexivity. }
  assert (HdK : forall k, In k (map_keys d) <-> In k K).
  { intros k. rewrite Hkeys, fill_keys_In. simpl. tauto. }
  assert (Hnd : NoDup (map_keys d)).
  { rewrite Hkeys. apply fill_NoDup. constructor. }
  destruct (topo_loop_inv K edges g Hadj' (length nodes) d (topo_queue d) [])
    as (r & Er & Hr).
  - constructor.
    + simpl. unfold topo_queue. apply NoDup_filter_fst. exact Hnd.
    + exact Hd.
    + intros k. simpl. unfold topo_queue. rewrite in_map_iff. split.
      * intros ([k' v] & Ek & Hin). simpl in Ek. subst k'.
        apply filter_In in Hin. destruct Hin as [Hin Hz]. simpl in Hz.
        assert (HkK : In k K).
        { apply HdK. unfold map_keys. apply in_map_iff. exists (k, v). auto. }
        split; auto.
        specialize (Hd k HkK).
        rewrite (map_get_NoDup_In d k v Hnd Hin) in Hd.
        inversion Hd; subst v. simpl in Hz.
        apply Z.eqb_eq in Hz. lia.
      * intros [Hk Hz]. exists (k, Num 0). split; auto.
        apply filter_In. split; auto.
        apply map_get_In. rewrite (Hd k Hk), Hz. reflexivity.
    + intros e s1 s2 _ _ Es. destruct s1; discriminate.
  - unfold K. rewrite length_map. simpl. lia.
  - exists r. rewrite Er. split; auto.
Qed.

(** In a finite set, a property whose members all have a predecessor with
    the property is empty when the relation has no cycle. *)
Lemma descent_contradiction (R : jsstring -> jsstring -> Prop) :
  (forall z, ~ clos_trans jsstring R z z) ->
  forall (U : list jsstring) (P : jsstring -> Prop),
    (forall x, P x -> In x U /\ exists y, clos_trans jsstring R y x /\ P y) ->
    forall x, ~ P x.
Proof.
  intros Hac. induction U as [|u U IH]; intros P HP x Hx.
  - destruct (HP x Hx) as [[] _].
  - set (P' := fun x => P x /\ x <> u).
    assert (HA : forall x, P x ->
                 exists y, clos_trans jsstring R y x /\ P' y).
    { intros a Ha. destruct (HP a Ha) as (_ & y & Hya & Hy).
      destruct (key_eq_dec y u) as [->|Hne].
      - destruct (HP u Hy) as (_ & y' & Hyu & Hy').
        destruct (key_eq_dec y' u) as [->|Hne'].
        + exfalso. apply (Hac u). exact Hyu.
        + exists y'. split; [eapply t_trans; eauto | split; auto].
      - exists y. split; auto. split; auto. }
    destruct (HA x Hx) as (y & _ & Hy).
    apply (IH P') with (x := y); auto.
    intros a [Ha Hne]. split.
    + destruct (HP a Ha) as [[E|Hin] _]; [congruence | exact Hin].
    + apply HA. exact Ha.
Qed.

(** On an acyclic edge list Kahn's loop outputs every node. *)
Lemma kahn_sorted_complete (K : list jsstring) (edges : list Edge)
    (r : list jsstring) :
  kahn_sorted K edges r -> acyclic edges ->
  forall k, In k K -> In k r.
Proof.
  intros (Hnd & Hmem & _) Hac k Hk.
  destruct (in_dec key_eq_dec k r) as [Hin|Hnin]; auto.
  exfalso.
  apply (descent_contradiction (edge_rel edges) Hac K
           (fun x => In x K /\ ~ In x r)) with (x := k); auto.
  intros x [HxK Hxr]. split; auto.
  assert (Hrem : remaining K edges r x <> 0%nat).
  { intros Hz. apply Hxr. apply Hmem. auto. }
  destruct (remaining_pos K edges r x Hrem) as (e & He & Hv & Ht & Hf).
  exists (from e). split.
  - apply t_step. unfold edge_rel. subst x. destruct e; exact He.
  - split; auto. unfold valid_edge in Hv. apply andb_true_iff in Hv.
    apply set_has_In. tauto.
Qed.

Lemma index_of_app_r (k : jsstring) (l1 l2 : list jsstring) :
  ~ In k l1 ->
  index_of k (l1 ++ l2) = option_map (Nat.add (length l1)) (index_of k l2).
Proof.
  induction l1 as [|x l1 IH]; intros Hn.
  - cbn [app length]. destruct (index_of k l2); reflexivity.
  - cbn [app index_of length]. rewrite keqb_neq.
    + rewrite IH; [|intros H; apply Hn; right; exact H].
      destruct (index_of k l2); reflexivity.
    + intros ->. apply Hn. left. reflexivity.
Qed.

Lemma index_of_head (k : jsstring) (l : list jsstring) :
  index_of k (k :: l) = Some O.
Proof. cbn [index_of]. rewrite keqb_refl. reflexivity. Qed.

Lemma index_of_split (k : jsstring) (l1 l2 : list jsstring) :
  ~ In k l1 -> index_of k (l1 ++ k :: l2) = Some (length l1).
Proof.
  intros Hn. rewrite index_of_app_r by exact Hn. rewrite index_of_head.
  cbn [option_map]. f_equal. lia.
Qed.



(** What [topologicalSort] does with an edge: the parent [to] comes
    strictly before the child [from]. *)
Lemma topologicalSort_edge_order (nodes : list GraphNode) (edges : list Edge) :
  edges_over nodes edges -> acyclic edges ->
  forall e, In e edges ->
    exists sorted i j,
      topologicalSort nodes edges = Some sorted
      /\ index_of (from e) sorted = Some i
      /\ index_of (to e) sorted = Some j
      /\ (j < i)%nat.
Proof.
  intros Hover Hac e He.
  destruct (topologicalSort_sound nodes edges) as (r & Er & Hr).
  pose proof (kahn_sorted_complete _ _ _ Hr Hac) as Hall.
  destruct Hr as (Hnd & Hmem & Hord).
  destruct (Hover e He) as [Hf Ht].
  destruct (in_split _ _ (Hall _ Ht)) as (s1 & s2 & Es).
  assert (Hv : valid_edge (map id nodes) e = true).
  { unfold valid_edge. apply andb_true_iff.
    split; apply set_has_In; assumption. }
  destruct (in_split _ _ (Hord e s1 s2 He Hv Es)) as (u & v & Eu).
  assert (Erev : rev r = rev s2 ++ to e :: rev v ++ from e :: rev u).
  { rewrite Es, Eu. rewrite !rev_app_distr. cbn [rev].
    rewrite <- !app_assoc. reflexivity. }
  assert (Hndr : NoDup (rev r)) by (apply NoDup_rev; exact Hnd).
  rewrite Erev in Hndr.
  exists (rev r), (length (rev s2) + S (length (rev v)))%nat, (length (rev s2)).
  split; [exact Er|]. rewrite Erev. split; [|split].
  - replace (rev s2 ++ to e :: rev v ++ from e :: rev u)
      with ((rev s2 ++ to e :: rev v) ++ from e :: rev u)
      by (rewrite <- app_assoc; reflexivity).
    rewrite index_of_split.
    + rewrite length_app. reflexivity.
    + replace (rev s2 ++ to e :: rev v ++ from e :: rev u)
        with ((rev s2 ++ to e :: rev v) ++ from e :: rev u) in Hndr
        by (rewrite <- app_assoc; reflexivity).
      apply NoDup_remove_2 in Hndr. intros Hin. apply Hndr.
      apply in_app_iff. auto.
  - rewrite index_of_split; [reflexivity|].
    apply NoDup_remove_2 in Hndr. intros Hin. apply Hndr.
    apply in_app_iff. auto.
  - lia.
Qed.

Lemma acyclic_of_rank (edges : list Edge) (rank : jsstring -> nat) :
  (forall e, In e edges -> (rank (from e) < rank (to e))%nat) ->
  acyclic edges.
Proof.
  intros Hr x Hx.
  assert (H : forall a b, clos_trans jsstring (edge_rel edges) a b ->
                          (rank a < rank b)%nat).
  { intros a b Hab. induction Hab as [a b Hab|a b c _ IH1 _ IH2]; [|lia].
    apply (Hr (mkEdge a b) Hab). }
  specialize (H x x Hx). lia.
Qed.

(** On the chain A -> B (child A, parent B) the parent comes first. *)
Example topologicalSort_chain :
  topologicalSort [node_of "A"; node_of "B"] [edge_of "A" "B"]
  = Some [str "B"; str "A"].
Proof. reflexivity. Qed.

(** C1 (the order that the code produces): for a node list with distinct
    ids and an acyclic edge list over these ids, [topologicalSort] returns
    a sequence in which, for every edge (from, to), the parent [to] stands
    at a strictly lower index than the child [from].  The final reversal
    therefore puts the oldest commits first, and the child is never at a
    lower or equal index than its parent. *)
Theorem topologicalSort_parent_before_child :
  forall (nodes : list GraphNode) (edges : list Edge),
    NoDup (map id nodes) -> edges_over nodes edges -> acyclic edges ->
    forall e, In e edges ->
      exists sorted i j,
        topologicalSort nodes edges = Some sorted
        /\ index_of (from e) sorted = Some i
        /\ index_of (to e) sorted = Some j
        /\ (j < i)%nat.
Proof.
  intros nodes edges _ Hover Hac. apply topologicalSort_edge_order; assumption.
Qed.

Lemma chain_acyclic : acyclic [edge_of "A" "B"].
Proof.
  apply (acyclic_of_rank _ (fun k => if keqb k (str "A") then 0 else 1)%nat).
  intros e [<-|[]]. simpl. lia.
Qed.

Lemma chain_edges_over :
  edges_over [node_of "A"; node_of "B"] [edge_of "A" "B"].
Proof. intros e [<-|[]]. simpl. auto. Qed.

Lemma chain_ids_NoDup : NoDup (map id [node_of "A"; node_of "B"]).
Proof.
  simpl. constructor; [intros [H|[]]; discriminate|].
  constructor; [intros []|constructor].
Qed.

Lemma topologicalSort_parent_before_child_witness :
  exists sorted i j,
    topologicalSort [node_of "A"; node_of "B"] [edge_of "A" "B"] = Some sorted
    /\ index_of (str "A") sorted = Some i
    /\ index_of (str "B") sorted = Some j
    /\ (j < i)%nat.
Proof.
  exact (topologicalSort_parent_before_child
           [node_of "A"; node_of "B"] [edge_of "A" "B"]
           chain_ids_NoDup chain_edges_over chain_acyclic
           (edge_of "A" "B") (or_introl eq_refl)).
Defined.

(* ================================================================= *)
(** ** Layered layout *)

Lemma map_get_None_keys {V : Type} (m : jsmap jsstring V) (k : jsstring) :
  ~ In k (map_keys m) -> map_get m k = None.
Proof.
  intros Hn. destruct (map_get m k) eqn:E; auto.
  exfalso. apply Hn. eapply map_get_Some_has; eauto.
Qed.

Lemma map_get_None_keysZ {V : Type} (m : jsmap Z V) (k : Z) :
  ~ In k (map_keys m) -> map_get m k = None.
Proof.
  intros Hn. destruct (map_get m k) eqn:E; auto.
  exfalso. apply Hn. eapply map_get_Some_has; eauto.
Qed.


Lemma layer_list_keys (len i : Z) (sorted : list jsstring) :
  map fst (layer_list len i sorted) = sorted.
Proof.
  revert i. induction sorted as [|x l IH]; intros i; cbn [layer_list map fst];
    [reflexivity|]. rewrite IH. reflexivity.
Qed.

Lemma layer_list_bound (len i : Z) (sorted : list jsstring) (L : Z) :
  In L (map snd (layer_list len i sorted)) -> (L <= len - i - 1)%Z.
Proof.
  revert i. induction sorted as [|x l IH]; intros i; cbn [layer_list map snd].
  - intros [].
  - intros [<-|Hin]; [lia|]. apply IH in Hin. lia.
Qed.

Lemma layer_list_NoDup (len i : Z) (sorted : list jsstring) :
  NoDup (map snd (layer_list len i sorted)).
Proof.
  revert i. induction sorted as [|x l IH]; intros i; cbn [layer_list map snd].
  - constructor.
  - constructor; [|apply IH]. intros Hin. apply layer_list_bound in Hin. lia.
Qed.

Lemma layer_list_get (len i : Z) (sorted : list jsstring) (k : jsstring) :
  map_get (layer_list len i sorted) k =
  option_map (fun j => (len - (i + Z.of_nat j) - 1)%Z) (index_of k sorted).
Proof.
  revert i. induction sorted as [|x l IH]; intros i;
    cbn [layer_list map_get index_of]; [reflexivity|].
  destruct (keqb k x).
  - cbn [option_map]. f_equal. lia.
  - rewrite IH. destruct (index_of k l); cbn [option_map]; [|reflexivity].
    f_equal. lia.
Qed.

Lemma layout_layers_from_fresh (len : Z) (sorted : list jsstring) :
  forall (i : Z) (m0 : jsmap jsstring Z),
    NoDup (map_keys m0 ++ sorted) ->
    layout_layers_from len i sorted m0 = m0 ++ layer_list len i sorted.
Proof.
  induction sorted as [|x l IH]; intros i m0 Hnd;
    cbn [layout_layers_from layer_list].
  - rewrite app_nil_r. reflexivity.
  - rewrite map_set_fresh.
    + rewrite IH.
      * rewrite <- app_assoc. reflexivity.
      * unfold map_keys in *. rewrite map_app. cbn [map fst].
        rewrite <- app_assoc. exact Hnd.
    + apply NoDup_remove_2 in Hnd. intros Hin. apply Hnd.
      apply in_app_iff. auto.
Qed.

Lemma layout_layers_list (sorted : list jsstring) :
  NoDup sorted ->
  layout_layers sorted = layer_list (Z.of_nat (length sorted)) 0 sorted.
Proof.
  intros Hnd. unfold layout_layers.
  rewrite layout_layers_from_fresh; [reflexivity | exact Hnd].
Qed.

Lemma layerCounts_fresh (l : list (jsstring * Z)) :
  forall m0 : jsmap Z Z,
    NoDup (map_keys m0 ++ map snd l) ->
    fold_left (fun layerCounts kv =>
                 map_set layerCounts (snd kv)
                   (match map_get layerCounts (snd kv) with
                    | Some n => n + 1
                    | None => 1
                    end)%Z) l m0
    = m0 ++ map (fun kv => (snd kv, 1%Z)) l.
Proof.
  induction l as [|[k L] l IH]; intros m0 Hnd; cbn [fold_left map snd].
  - rewrite app_nil_r. reflexivity.
  - assert (HL : ~ In L (map_keys m0)).
    { cbn [map snd] in Hnd. apply NoDup_remove_2 in Hnd.
      intros Hin. apply Hnd. apply in_app_iff. auto. }
    rewrite (map_get_None_keysZ m0 L HL), map_set_fresh by exact HL.
    rewrite IH.
    + rewrite <- app_assoc. reflexivity.
    + unfold map_keys in *. rewrite map_app. cbn [map fst snd].
      rewrite <- app_assoc. exact Hnd.
Qed.

Lemma layerCounts_one (layers : list (jsstring * Z)) (L : Z) :
  NoDup (map snd layers) -> In L (map snd layers) ->
  map_get (layout_layerCounts layers) L = Some 1%Z.
Proof.
  intros Hnd Hin. unfold layout_layerCounts.
  rewrite layerCounts_fresh by exact Hnd. cbn [app].
  apply map_get_NoDup_In.
  - unfold map_keys. rewrite map_map. cbn [fst]. exact Hnd.
  - apply in_map_iff in Hin. destruct Hin as (kv & <- & Hkv).
    apply in_map_iff. exists kv. auto.
Qed.


Section Place.
Variables (w h hg vg : Q) (layerCounts : jsmap Z Z).

Lemma layout_place_fold :
  forall (layers : list (jsstring * Z)) (lp : jsmap Z Z)
         (nm : jsmap jsstring LaidNode),
    NoDup (map fst layers) ->
    NoDup (map_keys lp ++ map snd layers) ->
    (forall kv, In kv layers -> map_get layerCounts (snd kv) = Some 1%Z) ->
    exists lp' nm',
      fold_left (layout_place w h hg vg layerCounts) layers (lp, nm)
      = (lp', nm')
      /\ map_keys nm' = map_keys nm
      /\ forall k,
           map_get nm' k =
           match map_get layers k with
           | Some layer =>
               option_map (fun ln => placed w h hg vg (l_node ln) layer)
                          (map_get nm k)
           | None => map_get nm k
           end.
Proof.
  induction layers as [|[nodeId layer] layers IH]; intros lp nm Hk Hl Hc.
  - exists lp, nm. cbn [fold_left map_get]. auto.
  - cbn [fold_left]. cbn [map fst snd] in Hk, Hl.
    assert (HL : ~ In layer (map_keys lp)).
    { apply NoDup_remove_2 in Hl. intros Hin. apply Hl.
      apply in_app_iff. auto. }
    assert (Hhas : map_has lp layer = false).
    { destruct (map_has lp layer) eqn:E; auto.
      apply map_has_In in E. contradiction. }
    assert (Hcnt : map_get layerCounts layer = Some 1%Z).
    { apply (Hc (nodeId, layer)). left. reflexivity. }
    unfold layout_place at 2. rewrite Hhas, map_get_set_same, Hcnt.
    set (lp2 := map_set (map_set lp layer 0%Z) layer (0 + 1)%Z).
    assert (Hlp2 : map_keys lp2 = map_keys lp ++ [layer]).
    { unfold lp2. rewrite map_keys_set, map_has_set, keqb_refl.
      cbn [orb]. rewrite map_keys_set, Hhas. reflexivity. }
    inversion Hk as [|? ? Hnid Hk']; subst.
    assert (Hl2 : NoDup (map_keys lp2 ++ map snd layers)).
    { rewrite Hlp2, <- app_assoc. exact Hl. }
    assert (Hc' : forall kv, In kv layers ->
                             map_get layerCounts (snd kv) = Some 1%Z).
    { intros kv Hin. apply Hc. right. exact Hin. }
    assert (Hrest : map_get layers nodeId = None).
    { apply map_get_None_keys. exact Hnid. }
    destruct (map_get nm nodeId) as [node|] eqn:En.
    + fold (placed w h hg vg (l_node node) layer).
      destruct (IH lp2 (map_set nm nodeId (placed w h hg vg (l_node node) layer))
                   Hk' Hl2 Hc') as (lp' & nm' & E & Hkeys & Hget).
      exists lp', nm'. split; [exact E|]. split.
      * rewrite Hkeys, map_keys_set.
        assert (Eh : map_has nm nodeId = true).
        { unfold map_has. rewrite En. reflexivity. }
        rewrite Eh. reflexivity.
      * intros k. rewrite Hget. cbn [map_get]. rewrite map_get_set.
        destruct (keqb_spec k nodeId) as [->|Hne].
        -- rewrite Hrest, En. reflexivity.
        -- reflexivity.
    + destruct (IH lp2 nm Hk' Hl2 Hc') as (lp' & nm' & E & Hkeys & Hget).
      exists lp', nm'. split; [exact E|]. split; [exact Hkeys|].
      intros k. rewrite Hget. cbn [map_get].
      destruct (keqb_spec k nodeId) as [->|Hne]; [|reflexivity].
      rewrite Hrest, En. reflexivity.
Qed.
End Place.




(* ================================================================= *)
(** ** Shortest path *)

Lemma neighbors_of_set (g : jsmap jsstring (list jsstring))
    (a k : jsstring) (l : list jsstring) :
  neighbors_of (map_set g a l) k = if keqb k a then l else neighbors_of g k.
Proof.
  unfold neighbors_of. rewrite map_get_set. destruct (keqb k a); reflexivity.
Qed.

Lemma neighbors_of_ensure (g : jsmap jsstring (list jsstring))
    (a k : jsstring) :
  neighbors_of (if map_has g a then g else map_set g a []) k
  = neighbors_of g k.
Proof.
  destruct (map_has g a) eqn:E; [reflexivity|].
  rewrite neighbors_of_set. destruct (keqb_spec k a) as [->|]; [|reflexivity].
  unfold neighbors_of, map_has in *. destruct (map_get g a); [discriminate|].
  reflexivity.
Qed.

Lemma bfs_graph_neighbors (edges : list Edge) (k : jsstring) :
  neighbors_of (bfs_graph edges) k = nbrs edges k.
Proof.
  unfold bfs_graph.
  assert (H : forall g,
             neighbors_of
               (fold_left
                  (fun graph edge =>
                     let graph := if map_has graph (from edge) then graph
                                  else map_set graph (from edge) [] in
                     let graph := if map_has graph (to edge) then graph
                                  else map_set graph (to edge) [] in
                     let graph := map_set graph (from edge)
                                    (neighbors_of graph (from edge) ++ [to edge]) in
                     map_set graph (to edge)
                             (neighbors_of graph (to edge) ++ [from edge]))
                  edges g) k
             = neighbors_of g k ++ nbrs edges k).
  { induction edges as [|e edges IH]; intros g.
    - cbn [fold_left nbrs flat_map]. rewrite app_nil_r. reflexivity.
    - cbn [fold_left nbrs flat_map]. rewrite IH. cbv zeta.
      rewrite app_assoc. f_equal.
      rewrite neighbors_of_set.
      destruct (keqb_spec k (to e)) as [Ekt|Ekt].
      + rewrite neighbors_of_set.
        destruct (keqb_spec (to e) (from e)) as [Etf|Etf].
        * rewrite !neighbors_of_ensure. subst k. rewrite Etf.
          rewrite !keqb_refl. rewrite <- app_assoc. reflexivity.
        * rewrite !neighbors_of_ensure. subst k.
          rewrite (keqb_neq (a:=from e) (b:=to e)) by congruence.
          rewrite keqb_refl. reflexivity.
      + rewrite neighbors_of_set, !neighbors_of_ensure.
        rewrite (keqb_neq (a:=to e) (b:=k)) by congruence.
        rewrite app_nil_r.
        destruct (keqb_spec k (from e)) as [->|Ekf].
        * rewrite keqb_refl. reflexivity.
        * rewrite (keqb_neq (a:=from e) (b:=k)) by congruence.
          rewrite app_nil_r. reflexivity. }
  rewrite H. reflexivity.
Qed.

Lemma nbrs_linked (edges : list Edge) (u v : jsstring) :
  In v (nbrs edges u) <-> linked edges u v.
Proof.
  unfold nbrs, linked. rewrite in_flat_map. split.
  - intros (e & He & Hin). exists e. split; auto.
    apply in_app_iff in Hin. destruct Hin as [Hin|Hin].
    + destruct (keqb_spec (from e) u); [|destruct Hin].
      destruct Hin as [<-|[]]. auto.
    + destruct (keqb_spec (to e) u); [|destruct Hin].
      destruct Hin as [<-|[]]. auto.
  - intros (e & He & [[Hf Ht]|[Hf Ht]]); exists e; split; auto;
      apply in_app_iff.
    + left. rewrite Hf, keqb_refl. left. exact Ht.
    + right. rewrite Ht, keqb_refl. left. exact Hf.
Qed.

Lemma last_of_snoc (p : list jsstring) (v : jsstring) :
  last_of (p ++ [v]) = Some v.
Proof. unfold last_of. rewrite rev_app_distr. reflexivity. Qed.

Lemma is_path_snoc (edges : list Edge) (p : list jsstring) (a b c : jsstring) :
  is_path edges p a b -> linked edges b c -> is_path edges (p ++ [c]) a c.
Proof.
  intros Hp Hl. induction Hp as [a|a b0 b p Hab Hp IH].
  - cbn [app]. eapply path_cons; [exact Hl | apply path_one].
  - cbn [app]. eapply path_cons; [exact Hab | apply IH; exact Hl].
Qed.

Lemma is_path_last (edges : list Edge) (p : list jsstring) (a b : jsstring) :
  is_path edges p a b -> last_of p = Some b.
Proof.
  intros Hp. induction Hp as [a|a b0 b p Hab Hp IH]; [reflexivity|].
  unfold last_of in *. cbn [rev].
  destruct (rev p) as [|x l]; [discriminate|]. cbn [app]. exact IH.
Qed.

(** The [for (const neighbor of neighbors)] loop: the unvisited neighbors
    are queued once each, in order. *)
Lemma bfs_expand_fold (p : list jsstring) :
  forall (L : list jsstring) (Q0 : list (list jsstring)) (V0 : list jsstring),
    exists A,
      fold_left (fun st neighbor => bfs_expand p neighbor st) L (Q0, V0)
      = (Q0 ++ map (fun v => p ++ [v]) A, V0 ++ A)
      /\ NoDup A
      /\ forall v, In v A <-> In v L /\ ~ In v V0.
Proof.
  induction L as [|v L IH]; intros Q0 V0.
  - exists []. cbn [fold_left map]. rewrite !app_nil_r.
    split; [reflexivity|]. split; [constructor|]. intros v. simpl. tauto.
  - cbn [fold_left]. unfold bfs_expand at 2.
    destruct (set_has V0 v) eqn:Ev; cbn [negb].
    + apply set_has_In in Ev.
      destruct (IH Q0 V0) as (A & E & Hnd & HA).
      exists A. split; [exact E|]. split; [exact Hnd|].
      intros x. rewrite HA. simpl. intuition congruence.
    + assert (Hv : ~ In v V0) by (apply set_has_false; exact Ev).
      unfold set_add. rewrite Ev.
      destruct (IH (Q0 ++ [p ++ [v]]) (V0 ++ [v])) as (A & E & Hnd & HA).
      exists (v :: A). split; [|split].
      * match goal with
        | |- fold_left ?f ?l ?a = _ =>
            replace (fold_left f l a)
              with ((Q0 ++ [p ++ [v]]) ++ map (fun v => p ++ [v]) A,
                    (V0 ++ [v]) ++ A) by (symmetry; exact E)
        end.
        cbn [map]. rewrite <- !app_assoc. reflexivity.
      * constructor; auto. rewrite HA. rewrite in_app_iff. simpl. tauto.
      * intros x. cbn [In]. rewrite HA, in_app_iff. simpl.
        destruct (key_eq_dec v x) as [->|Hne]; [tauto|].
        intuition congruence.
Qed.

Lemma lasts_app (Q1 Q2 : list (list jsstring)) :
  lasts (Q1 ++ Q2) = lasts Q1 ++ lasts Q2.
Proof. unfold lasts. apply flat_map_app. Qed.

Lemma lasts_snoc (p : list jsstring) (A : list jsstring) :
  lasts (map (fun v => p ++ [v]) A) = A.
Proof.
  induction A as [|v A IH]; [reflexivity|].
  cbn [map]. unfold lasts in *. cbn [flat_map].
  rewrite last_of_snoc, IH. reflexivity.
Qed.

Lemma lasts_In (Q : list (list jsstring)) (v : jsstring) :
  In v (lasts Q) <-> exists q, In q Q /\ last_of q = Some v.
Proof.
  unfold lasts. rewrite in_flat_map. split.
  - intros (q & Hq & Hin). exists q. split; auto.
    destruct (last_of q); [|destruct Hin]. destruct Hin as [->|[]]. reflexivity.
  - intros (q & Hq & E). exists q. split; auto. rewrite E. left. reflexivity.
Qed.

Section BFS.
Variables (edges : list Edge) (startId endId : jsstring).

Lemma reached_by_le Q D v n m :
  reached_by Q D v n -> (n <= m)%nat -> reached_by Q D v m.
Proof.
  intros [(l & Hl & Hle)|(q & Hq & El & Hle)] Hnm.
  - left. exists l. split; auto. lia.
  - right. exists q. repeat split; auto. lia.
Qed.

Lemma levels_head p Qrest V D :
  bfs_inv edges startId endId (p :: Qrest) V D ->
  (forall u l, In (u, l) D -> (l <= length p)%nat)
  /\ exists Qa Qb,
       Qrest = Qa ++ Qb
       /\ (forall q, In q Qa -> length q = length p)
       /\ (forall q, In q Qb -> length q = S (length p)).
Proof.
  intros Hinv. destruct (b_levels Hinv) as (k & Qa & Qb & EQ & HD & Ha & Hb).
  destruct Qa as [|p' Qa].
  - cbn [app] in EQ. subst Qb.
    assert (Hp : length p = S k) by (apply Hb; left; reflexivity).
    split.
    + intros u l Hin. specialize (HD u l Hin). lia.
    + exists Qrest, []. rewrite app_nil_r. split; [reflexivity|]. split.
      * intros q Hq. rewrite Hp. apply Hb. right. exact Hq.
      * intros q [].
  - cbn [app] in EQ. injection EQ as E1 E2. subst p' Qrest.
    assert (Hp : length p = k) by (apply Ha; left; reflexivity).
    split.
    + intros u l Hin. specialize (HD u l Hin). lia.
    + exists Qa, Qb. split; [reflexivity|]. split.
      * intros q Hq. rewrite Hp. apply Ha. right. exact Hq.
      * intros q Hq. rewrite Hp. apply Hb. exact Hq.
Qed.

Lemma levels_along_path Q V D :
  bfs_inv edges startId endId Q V D ->
  forall p' u t, is_path edges p' u t ->
    forall n, reached_by Q D u n ->
      (forall q, In q Q -> (n + length p' - 1 < length q)%nat) ->
      reached_by Q D t (n + length p' - 1).
Proof.
  intros Hinv p' u t Hp.
  induction Hp as [a|a b c p Hab Hp IH]; intros n Hr Hb.
  - cbn [length]. eapply reached_by_le; [exact Hr | lia].
  - cbn [length] in *.
    assert (Hb' : reached_by Q D b (S n)).
    { destruct Hr as [(l & Hl & Hle)|(q & Hq & El & Hle)].
      - eapply reached_by_le; [eapply (b_closed Hinv); eauto | lia].
      - specialize (Hb q Hq). lia. }
    specialize (IH (S n) Hb').
    eapply reached_by_le; [apply IH | lia].
    intros q Hq. specialize (Hb q Hq). lia.
Qed.

Lemma no_shorter Q V D :
  bfs_inv edges startId endId Q V D ->
  forall p', is_path edges p' startId endId ->
    (forall q, In q Q -> (length p' < length q)%nat) -> False.
Proof.
  intros Hinv p' Hp Hb.
  destruct (levels_along_path _ _ _ Hinv _ _ _ Hp 1%nat (b_start Hinv)) as
    [(l & Hl & _)|(q & Hq & _ & Hle)].
  - intros q Hq. specialize (Hb q Hq). lia.
  - eapply (b_not_end Hinv); eauto.
  - specialize (Hb q Hq). lia.
Qed.

Lemma bfs_inv_step p Qrest V D node A :
  bfs_inv edges startId endId (p :: Qrest) V D ->
  last_of p = Some node -> node <> endId ->
  NoDup A ->
  (forall v, In v A <-> In v (nbrs edges node) /\ ~ In v V) ->
  bfs_inv edges startId endId (Qrest ++ map (fun v => p ++ [v]) A) (V ++ A)
          ((node, length p) :: D).
Proof.
  intros Hinv El Hne HndA HA.
  destruct (levels_head _ _ _ _ Hinv) as (HD & Qa & Qb & EQ & Ha & Hb).
  assert (Hlasts : lasts (p :: Qrest) = node :: lasts Qrest).
  { unfold lasts. cbn [flat_map]. rewrite El. reflexivity. }
  assert (Hpath : is_path edges p startId node).
  { destruct (b_paths Hinv p (or_introl eq_refl)) as (n' & Hn').
    pose proof (is_path_last _ _ _ _ Hn') as E. rewrite El in E.
    inversion E; subst n'. exact Hn'. }
  assert (Hset : forall v,
             In v (map fst ((node, length p) :: D)
                   ++ lasts (Qrest ++ map (fun v => p ++ [v]) A))
             <-> In v (map fst D ++ lasts (p :: Qrest)) \/ In v A).
  { intros v. rewrite lasts_app, lasts_snoc, Hlasts.
    cbn [map fst app In]. rewrite !in_app_iff. cbn [In]. tauto. }
  assert (Hmono : forall v n, reached_by (p :: Qrest) D v n ->
             reached_by (Qrest ++ map (fun v => p ++ [v]) A)
                        ((node, length p) :: D) v n).
  { intros v n [(l & Hl & Hle)|(q & [<-|Hq] & Eq & Hle)].
    - left. exists l. split; [right; exact Hl | exact Hle].
    - left. exists (length p). rewrite El in Eq. inversion Eq; subst v.
      split; [left; reflexivity | exact Hle].
    - right. exists q. split; [apply in_app_iff; left; exact Hq|]. auto. }
  constructor.
  - intros q Hq. apply in_app_iff in Hq. destruct Hq as [Hq|Hq].
    + apply (b_paths Hinv). right. exact Hq.
    + apply in_map_iff in Hq. destruct Hq as (v & <- & Hv).
      exists v. eapply is_path_snoc; [exact Hpath|].
      apply nbrs_linked. apply HA. exact Hv.
  - intros v. rewrite Hset, in_app_iff, (b_visited Hinv). tauto.
  - pose proof (b_nodup Hinv) as Hnd. rewrite Hlasts in Hnd.
    rewrite lasts_app, lasts_snoc. cbn [map fst app].
    assert (Hnd1 : NoDup (node :: map fst D ++ lasts Qrest)).
    { apply NoDup_cons.
      - apply NoDup_remove_2 in Hnd. exact Hnd.
      - apply NoDup_remove_1 in Hnd. exact Hnd. }
    replace (node :: map fst D ++ lasts Qrest ++ A)
      with ((node :: map fst D ++ lasts Qrest) ++ A)
      by (cbn [app]; rewrite <- app_assoc; reflexivity).
    apply NoDup_app; auto.
    intros v Hv HvA. apply HA in HvA. destruct HvA as [_ HvV].
    apply HvV. apply (b_visited Hinv). rewrite Hlasts.
    destruct Hv as [<-|Hv].
    + apply in_app_iff. right. left. reflexivity.
    + apply in_app_iff in Hv. apply in_app_iff.
      destruct Hv as [Hv|Hv]; [left | right; right]; exact Hv.
  - intros v Hv. apply Hset in Hv. destruct Hv as [Hv|Hv].
    + apply (b_universe Hinv). exact Hv.
    + apply HA in Hv. destruct Hv as [Hv _]. apply nbrs_linked in Hv.
      destruct Hv as (e & He & [[_ Ht]|[Hf _]]); right;
        apply in_flat_map; exists e; split; auto; simpl; auto.
  - exists (length p), Qa, (Qb ++ map (fun v => p ++ [v]) A).
    split; [rewrite EQ, app_assoc; reflexivity|]. split; [|split].
    + intros u l [E|Hin]; [inversion E; lia | eapply HD; eauto].
    + exact Ha.
    + intros q Hq. apply in_app_iff in Hq. destruct Hq as [Hq|Hq]; auto.
      apply in_map_iff in Hq. destruct Hq as (v & <- & _).
      rewrite length_app. cbn [length]. lia.
  - intros u l v [E|Hin] Hl.
    + inversion E; subst u l.
      destruct (in_dec key_eq_dec v V) as [HvV|HvV].
      * apply (b_visited Hinv) in HvV. apply in_app_iff in HvV.
        destruct HvV as [HvD|HvQ].
        -- apply in_map_iff in HvD. destruct HvD as ([v' lv] & Ev & HvD).
           cbn [fst] in Ev. subst v'.
           left. exists lv. split; [right; exact HvD|].
           specialize (HD v lv HvD). lia.
        -- apply lasts_In in HvQ. destruct HvQ as (q & [<-|Hq] & Eq).
           ++ rewrite El in Eq. inversion Eq; subst v.
              left. exists (length p). split; [left; reflexivity | lia].
           ++ right. exists q. split; [apply in_app_iff; left; exact Hq|].
              split; [exact Eq|]. rewrite EQ in Hq.
              apply in_app_iff in Hq. destruct Hq as [Hq|Hq].
              ** rewrite (Ha q Hq). lia.
              ** rewrite (Hb q Hq). lia.
      * right. exists (p ++ [v]). split.
        -- apply in_app_iff. right. apply in_map_iff. exists v.
           split; [reflexivity|]. apply HA. split; auto.
           apply nbrs_linked. exact Hl.
        -- split; [apply last_of_snoc|]. rewrite length_app. cbn [length]. lia.
    + apply Hmono. eapply (b_closed Hinv); eauto.
  - intros u l [E|Hin]; [inversion E; subst; exact Hne|].
    eapply (b_not_end Hinv); eauto.
  - apply Hmono. exact (b_start Hinv).
Qed.

Lemma bfs_loop_correct :
  forall fuel Q V D,
    bfs_inv edges startId endId Q V D ->
    (length (universe edges startId) < length D + fuel)%nat ->
    exists res,
      bfs_loop fuel (bfs_graph edges) endId Q V = Some res /\ bfs_result edges startId endId res.
Proof.
  induction fuel as [|fuel IH]; intros Q V D Hinv Hf.
  - destruct Q as [|p Qrest].
    + exists None. split; [reflexivity|].
      intros p' Hp. apply (no_shorter _ _ _ Hinv _ Hp). intros q [].
    + exfalso.
      destruct (b_paths Hinv p (or_introl eq_refl)) as (node & Hp).
      pose proof (is_path_last _ _ _ _ Hp) as El.
      pose proof (NoDup_incl_length (b_nodup Hinv) (b_universe Hinv)) as Hl.
      unfold lasts in Hl. cbn [flat_map] in Hl. rewrite El in Hl.
      rewrite !length_app, length_map in Hl. cbn [length] in Hl. lia.
  - destruct Q as [|p Qrest].
    + exists None. split; [reflexivity|].
      intros p' Hp. apply (no_shorter _ _ _ Hinv _ Hp). intros q [].
    + destruct (b_paths Hinv p (or_introl eq_refl)) as (node & Hp).
      pose proof (is_path_last _ _ _ _ Hp) as El.
      cbn [bfs_loop]. rewrite El.
      destruct (keqb_spec node endId) as [Hend|Hne].
      * subst node. exists (Some p). split; [reflexivity|].
        split; [exact Hp|]. intros p' Hp'.
        destruct (le_lt_dec (length p) (length p')) as [|Hlt]; auto.
        exfalso. apply (no_shorter _ _ _ Hinv _ Hp').
        destruct (levels_head _ _ _ _ Hinv) as (_ & Qa & Qb & EQ & Ha & Hb).
        intros q [<-|Hq]; [exact Hlt|].
        rewrite EQ in Hq. apply in_app_iff in Hq.
        destruct Hq as [Hq|Hq]; [rewrite (Ha q Hq) | rewrite (Hb q Hq)]; lia.
      * rewrite bfs_graph_neighbors.
        destruct (bfs_expand_fold p (nbrs edges node) Qrest V)
          as (A & E & HndA & HA).
        match goal with
        | |- context [fold_left ?f ?l ?a] =>
            replace (fold_left f l a)
              with (Qrest ++ map (fun v => p ++ [v]) A, V ++ A)
              by (symmetry; exact E)
        end.
        apply (IH _ _ ((node, length p) :: D)).
        -- apply bfs_inv_step; auto.
        -- cbn [length]. lia.
Qed.
End BFS.

Lemma bfs_initial (edges : list Edge) (startId endId : jsstring) :
  bfs_inv edges startId endId [[startId]] [startId] [].
Proof.
  constructor.
  - intros p [<-|[]]. exists startId. apply path_one.
  - intros v. reflexivity.
  - cbn. constructor; [intros [] | constructor].
  - intros v [<-|[]]. left. reflexivity.
  - exists 1%nat, [[startId]], []. split; [reflexivity|].
    split; [intros u l []|]. split; [|intros p []].
    intros p [<-|[]]. reflexivity.
  - intros u l v [].
  - intros u l [].
  - right. exists [startId]. split; [left; reflexivity|].
    split; [reflexivity | cbn [length]; lia].
Qed.

Lemma universe_length (edges : list Edge) (startId : jsstring) :
  length (universe edges startId) = S (2 * length edges).
Proof.
  unfold universe. cbn [length]. f_equal.
  induction edges as [|e edges IH]; [reflexivity|].
  cbn [flat_map length app]. rewrite IH. lia.
Qed.

(** [findShortestPath] always returns, and the result is a shortest path
    or [null] when there is none. *)
Lemma findShortestPath_correct (startId endId : jsstring) (edges : list Edge) :
  exists res,
    findShortestPath startId endId edges = Some res
    /\ bfs_result edges startId endId res.
Proof.
  unfold findShortestPath.
  destruct (keqb_spec startId endId) as [<-|Hne].
  - exists (Some [startId]). split; [reflexivity|].
    split; [apply path_one|].
    intros p' Hp. inversion Hp; subst; cbn [length]; lia.
  - apply (bfs_loop_correct edges startId endId _ _ _ []).
    + apply bfs_initial.
    + rewrite universe_length. cbn [length]. lia.
Qed.

Lemma chain_ABC_closed (p : list jsstring) (a b : jsstring) :
  is_path chain_ABC p a b ->
  In a [str "A"; str "B"; str "C"] -> In b [str "A"; str "B"; str "C"].
Proof.
  intros Hp. induction Hp as [a|a b c p Hab Hp IH]; auto.
  intros _. apply IH.
  destruct Hab as (e & [<-|[<-|[]]] & [[_ <-]|[<- _]]); simpl; auto.
Qed.

(** C6: [findShortestPath] treats the edges as undirected.  It returns
    the path [start] when start and end are the same node; in general it
    returns a path from start to end with the fewest nodes (hence the
    fewest edges) among all paths when one exists, and [null] when the end
    cannot be reached.  On the chain A -> B -> C it returns [A, B, C] from
    A to C and [null] from A to the unconnected node D. *)
Theorem findShortestPath_shortest :
  (forall (startId endId : jsstring) (edges : list Edge),
      (startId = endId ->
       findShortestPath startId endId edges = Some (Some [startId]))
      /\ (exists res,
            findShortestPath startId endId edges = Some res
            /\ match res with
               | Some q =>
                   is_path edges q startId endId
                   /\ forall p', is_path edges p' startId endId ->
                                 (length q <= length p')%nat
               | None => forall p', ~ is_path edges p' startId endId
               end)
      /\ ((forall p', ~ is_path edges p' startId endId) ->
          findShortestPath startId endId edges = Some None))
  /\ findShortestPath (str "A") (str "C") chain_ABC
     = Some (Some [str "A"; str "B"; str "C"])
  /\ findShortestPath (str "A") (str "D") chain_ABC = Some None.
Proof.
  split; [|split; reflexivity].
  intros startId endId edges. split; [|split].
  - intros <-. unfold findShortestPath. rewrite keqb_refl. reflexivity.
  - exact (findShortestPath_correct startId endId edges).
  - intros Hno.
    destruct (findShortestPath_correct startId endId edges) as (res & E & Hr).
    rewrite E. destruct res as [q|]; [|reflexivity].
    exfalso. destruct Hr as [Hq _]. exact (Hno q Hq).
Qed.

Lemma findShortestPath_shortest_witness :
  findShortestPath (str "A") (str "A") chain_ABC = Some (Some [str "A"])
  /\ findShortestPath (str "A") (str "D") chain_ABC = Some None.
Proof.
  split.
  - exact (proj1 (proj1 findShortestPath_shortest
                        (str "A") (str "A") chain_ABC) eq_refl).
  - apply (proj2 (proj2 (proj1 findShortestPath_shortest
                               (str "A") (str "D") chain_ABC))).
    intros p' Hp.
    assert (H : In (str "D") [str "A"; str "B"; str "C"]).
    { apply (chain_ABC_closed p' (str "A") (str "D") Hp). left. reflexivity. }
    destruct H as [H|[H|[H|[]]]]; discriminate.
Defined.

(* ================================================================= *)
(** ** Cycle detection *)

Lemma unseen_lt (keys seen seen' : list jsstring) (k : jsstring) :
  incl seen seen' -> In k keys -> ~ In k seen -> In k seen' ->
  (unseen keys seen' < unseen keys seen)%nat.
Proof.
  intros Hi Hk Hn Hs. unfold unseen.
  induction keys as [|x ks IH]; [destruct Hk|].
  assert (Hmono : (unseen ks seen' <= unseen ks seen)%nat)
    by (apply unseen_incl; exact Hi).
  unfold unseen in Hmono. cbn [filter].
  destruct (keqb_spec x k) as [->|Hne].
  - apply set_has_false in Hn. apply set_has_In in Hs.
    rewrite Hn, Hs. cbn [negb length]. lia.
  - destruct Hk as [E|Hk]; [congruence|]. specialize (IH Hk).
    destruct (set_has seen x) eqn:E; cbn [negb].
    + apply set_has_In in E. apply Hi in E. apply set_has_In in E.
      rewrite E. cbn [negb]. exact IH.
    + destruct (set_has seen' x); cbn [negb length]; lia.
Qed.

Lemma set_add_fresh (s : list jsstring) (k : jsstring) :
  ~ In k s -> set_add s k = s ++ [k].
Proof.
  intros Hn. unfold set_add. apply set_has_false in Hn. rewrite Hn.
  reflexivity.
Qed.

Lemma set_delete_absent (s : list jsstring) (k : jsstring) :
  ~ In k s -> set_delete s k = s.
Proof.
  induction s as [|x s IH]; intros Hn; [reflexivity|].
  cbn [set_delete]. rewrite keqb_neq.
  - rewrite IH; [reflexivity|]. intros H. apply Hn. right. exact H.
  - intros ->. apply Hn. left. reflexivity.
Qed.

Lemma set_delete_snoc (s : list jsstring) (k : jsstring) :
  ~ In k s -> set_delete (s ++ [k]) k = s.
Proof.
  induction s as [|x s IH]; intros Hn.
  - cbn [app set_delete]. rewrite keqb_refl. reflexivity.
  - cbn [app set_delete]. rewrite keqb_neq.
    + rewrite IH; [reflexivity|]. intros H. apply Hn. right. exact H.
    + intros ->. apply Hn. left. reflexivity.
Qed.

(** Every entry of an adjacency array of [cycle_graph] is an edge. *)
Lemma cycle_graph_edges (nodes : list GraphNode) (edges : list Edge) :
  forall u v, In v (neighbors_of (cycle_graph nodes edges) u) ->
              edge_rel edges u v.
Proof.
  unfold cycle_graph, edge_rel.
  set (g0 := fold_left (fun graph node => map_set graph (id node) []) nodes []).
  assert (H0 : forall u v, In v (neighbors_of g0 u) -> In (mkEdge u v) edges).
  { intros u v. unfold neighbors_of.
    change g0 with (fill id (fun _ : GraphNode => @nil jsstring) nodes []).
    rewrite (@fill_get_const GraphNode (list jsstring) id (fun _ => [])
               [] nodes [] u) by reflexivity.
    destruct (set_has (map id nodes) u); intros []. }
  assert (H : forall es g,
             incl es edges ->
             (forall u v, In v (neighbors_of g u) -> In (mkEdge u v) edges) ->
             forall u v,
               In v (neighbors_of
                       (fold_left
                          (fun graph edge =>
                             if map_has graph (from edge) then
                               map_set graph (from edge)
                                 (neighbors_of graph (from edge) ++ [to edge])
                             else graph) es g) u) ->
               In (mkEdge u v) edges).
  { induction es as [|e es IH]; intros g Hes Hg; [exact Hg|].
    cbn [fold_left]. apply IH.
    - intros x Hx. apply Hes. right. exact Hx.
    - destruct (map_has g (from e)); [|exact Hg].
      intros u v. rewrite neighbors_of_set.
      destruct (keqb_spec u (from e)) as [->|Hne]; [|apply Hg].
      intros Hin. apply in_app_iff in Hin. destruct Hin as [Hin|[<-|[]]].
      + apply Hg. exact Hin.
      + assert (He : In e edges) by (apply Hes; left; reflexivity).
        destruct e; exact He. }
  apply H; [apply incl_refl | exact H0].
Qed.

Section CycleDfs.
Variables (graph : jsmap jsstring (list jsstring)) (edges : list Edge).
Variable U : list jsstring.
Hypothesis Hedge : forall u v, In v (neighbors_of graph u) -> edge_rel edges u v.
Hypothesis Htarget : forall u v, edge_rel edges u v -> In v U.
Hypothesis Hacyclic : acyclic edges.

(** On an acyclic graph [dfs] returns [false], leaves [visiting] as it
    found it and adds the node to [visited]. *)
Lemma cycle_dfs_acyclic :
  forall fuel nodeId visiting visited,
    (unseen U (visiting ++ visited) < fuel)%nat ->
    In nodeId U -> ~ In nodeId visiting -> ~ In nodeId visited ->
    (forall v, In v visiting ->
               clos_trans jsstring (edge_rel edges) v nodeId) ->
    exists visited',
      cycle_dfs fuel graph nodeId (visiting, visited)
      = Some (false, (visiting, visited'))
      /\ incl visited visited' /\ In nodeId visited'.
Proof.
  induction fuel as [|fuel IH]; intros nodeId visiting visited Hm HU Hn1 Hn2 Hch;
    [lia|].
  cbn [cycle_dfs fst snd]. rewrite (set_add_fresh visiting nodeId Hn1).
  set (visiting1 := visiting ++ [nodeId]).
  assert (Hloop : forall ns visited1,
             incl ns (neighbors_of graph nodeId) ->
             incl visited visited1 ->
             exists visited',
               (fix loop (ns : list jsstring)
                         (st : jsset jsstring * jsset jsstring)
                  : option (bool * (jsset jsstring * jsset jsstring)) :=
                  match ns with
                  | [] =>
                      Some (false, (set_delete (fst st) nodeId,
                                    set_add (snd st) nodeId))
                  | neighbor :: ns' =>
                      if set_has (fst st) neighbor then Some (true, st)
                      else if negb (set_has (snd st) neighbor) then
                        match cycle_dfs fuel graph neighbor st with
                        | None => None
                        | Some (true, st') => Some (true, st')
                        | Some (false, st') => loop ns' st'
                        end
                      else loop ns' st
                  end) ns (visiting1, visited1)
               = Some (false, (visiting, visited'))
               /\ incl visited visited' /\ In nodeId visited').
  { induction ns as [|n ns IHns]; intros visited1 Hns Hv1.
    - exists (set_add visited1 nodeId). cbn [fst snd]. unfold visiting1.
      rewrite set_delete_snoc by exact Hn1.
      split; [reflexivity|]. split.
      + intros x Hx. apply set_add_In. left. apply Hv1. exact Hx.
      + apply set_add_In. right. reflexivity.
    - cbn [fst snd].
      assert (Hn : edge_rel edges nodeId n).
      { apply Hedge. apply Hns. left. reflexivity. }
      assert (Hnot : ~ In n visiting1).
      { intros Hin. unfold visiting1 in Hin. apply in_app_iff in Hin.
        destruct Hin as [Hin|[<-|[]]].
        - apply (Hacyclic n). eapply t_trans; [apply Hch; exact Hin|].
          apply t_step. exact Hn.
        - apply (Hacyclic nodeId). apply t_step. exact Hn. }
      apply set_has_false in Hnot. rewrite Hnot.
      assert (Hns' : incl ns (neighbors_of graph nodeId)).
      { intros x Hx. apply Hns. right. exact Hx. }
      destruct (set_has visited1 n) eqn:Ev; cbn [negb].
      + apply IHns; auto.
      + apply set_has_false in Ev. apply set_has_false in Hnot.
        destruct (IH n visiting1 visited1) as (visited2 & E & Hi & Hin).
        * assert (Hlt : (unseen U (visiting1 ++ visited1)
                         < unseen U (visiting ++ visited))%nat).
          { apply (unseen_lt U _ _ nodeId); auto.
            - intros x Hx. unfold visiting1. apply in_app_iff in Hx.
              rewrite !in_app_iff. destruct Hx as [Hx|Hx]; auto.
            - intros Hin. apply in_app_iff in Hin. tauto.
            - unfold visiting1. rewrite !in_app_iff. left. right. left.
              reflexivity. }
          lia.
        * eapply Htarget; eauto.
        * exact Hnot.
        * exact Ev.
        * intros v Hv. unfold visiting1 in Hv. apply in_app_iff in Hv.
          destruct Hv as [Hv|[<-|[]]].
          -- eapply t_trans; [apply Hch; exact Hv | apply t_step; exact Hn].
          -- apply t_step. exact Hn.
        * rewrite E. apply IHns; auto. eapply incl_tran; eauto. }
  destruct (Hloop (neighbors_of graph nodeId) visited)
    as (visited' & E & Hi & Hin); [apply incl_refl | apply incl_refl |].
  exists visited'. split; [exact E | split; assumption].
Qed.

(** The final loop over the nodes. *)
Lemma cycle_scan_acyclic :
  forall ns fuel visited,
    (length U < fuel)%nat ->
    (forall n, In n ns -> In (id n) U) ->
    cycle_scan fuel graph ns ([], visited) = Some false.
Proof.
  induction ns as [|n ns IH]; intros fuel visited Hf HU; [reflexivity|].
  cbn [cycle_scan snd].
  assert (HU' : forall n', In n' ns -> In (id n') U).
  { intros n' Hn'. apply HU. right. exact Hn'. }
  destruct (set_has visited (id n)) eqn:Ev; cbn [negb].
  - apply IH; auto.
  - apply set_has_false in Ev.
    destruct (cycle_dfs_acyclic fuel (id n) [] visited)
      as (visited' & E & _ & _).
    + pose proof (unseen_le_length U ([] ++ visited)). lia.
    + apply HU. left. reflexivity.
    + intros [].
    + exact Ev.
    + intros v [].
    + match goal with
      | |- context [cycle_dfs ?a ?b ?c ?d] =>
          replace (cycle_dfs a b c d)
            with (Some (false, (@nil jsstring, visited')))
            by (symmetry; exact E)
      end.
      apply IH; auto.
Qed.
End CycleDfs.

(** [detectCycle] reports no cycle on an acyclic edge list. *)
Lemma detectCycle_acyclic (nodes : list GraphNode) (edges : list Edge) :
  acyclic edges -> detectCycle nodes edges = Some false.
Proof.
  intros Hac. unfold detectCycle.
  apply (cycle_scan_acyclic (cycle_graph nodes edges) edges
           (map id nodes ++ map to edges)).
  - apply cycle_graph_edges.
  - intros u v Huv. apply in_app_iff. right.
    apply in_map_iff. exists (mkEdge u v). split; [reflexivity | exact Huv].
  - exact Hac.
  - rewrite length_app, !length_map. lia.
  - intros n Hn. apply in_app_iff. left. apply in_map. exact Hn.
Qed.

(* ================================================================= *)
(** ** The commit graph of a repository built by operations *)

Lemma store_ok_empty : store_ok [].
Proof.
  constructor.
  - intros k o E. discriminate.
  - exists (fun _ => O). intros h p (c & E & _). discriminate.
Qed.

Lemma ok_acyclic (objs : jsmap jsstring GitObject) :
  store_ok objs -> forall x, ~ clos_trans jsstring (plink objs) x x.
Proof.
  intros [_ (rank & Hr)] x Hx.
  assert (H : forall a b, clos_trans jsstring (plink objs) a b ->
                          (rank b < rank a)%nat).
  { intros a b Hab. induction Hab as [a b Hab|a b c _ IH1 _ IH2]; [|lia].
    apply Hr. exact Hab. }
  specialize (H x x Hx). lia.
Qed.

Lemma clos_trans_incl {A : Type} (R S : A -> A -> Prop) :
  (forall a b, R a b -> S a b) ->
  forall x y, clos_trans A R x y -> clos_trans A S x y.
Proof.
  intros HRS x y H. induction H as [x y Hxy|x y z _ IH1 _ IH2].
  - apply t_step. apply HRS. exact Hxy.
  - eapply t_trans; eauto.
Qed.

Lemma store_ok_commit (r : GitRepository)
    (treeHash message author now : jsstring) :
  store_ok (objects r) ->
  fresh_commit r (snd (commit r treeHash message author now)) = true ->
  store_ok (objects (fst (commit r treeHash message author now))).
Proof.
  intros [Hc (rank & Hrank)] Hfresh.
  set (c := snd (commit r treeHash message author now)) in *.
  assert (Eo : objects (fst (commit r treeHash message author now))
               = map_set (objects r) (GitCommit.hash c) (Commit c)).
  { reflexivity. }
  rewrite Eo. clear Eo.
  unfold fresh_commit in Hfresh. apply andb_true_iff in Hfresh.
  destruct Hfresh as [F1 F2].
  apply negb_true_iff, set_has_false in F1.
  assert (F2' : forall k c', map_get (objects r) k = Some (Commit c') ->
                             ~ In (GitCommit.hash c) (GitCommit.parents c')).
  { intros k c' E. apply map_get_In in E.
    rewrite forallb_forall in F2. specialize (F2 _ E). cbn [snd] in F2.
    apply negb_true_iff, set_has_false in F2. exact F2. }
  constructor.
  - intros k o. rewrite map_get_set.
    destruct (keqb_spec k (GitCommit.hash c)) as [->|Hne].
    + intros E. inversion E; subst o. eauto.
    + apply Hc.
  - exists (fun k => if keqb k (GitCommit.hash c)
                     then S (list_max (map rank (GitCommit.parents c)))
                     else rank k).
    intros a b (c' & E & Hin). rewrite map_get_set in E.
    destruct (keqb_spec a (GitCommit.hash c)) as [->|Hne].
    + inversion E; subst c'.
      rewrite keqb_neq by (intros ->; contradiction).
      assert (Hle : (rank b <= list_max (map rank (GitCommit.parents c)))%nat).
      { assert (Hall : Forall (fun x => (x <= list_max (map rank (GitCommit.parents c)))%nat)
                              (map rank (GitCommit.parents c))).
        { apply list_max_le. lia. }
        rewrite Forall_forall in Hall. apply Hall. apply in_map. exact Hin. }
      lia.
    + rewrite keqb_neq.
      * apply Hrank. exists c'. auto.
      * intros ->. exact (F2' a c' E Hin).
Qed.

Lemma createBranch_objects (r : GitRepository) (b : jsstring)
    (h : option jsstring) :
  objects (createBranch r b h) = objects r.
Proof.
  unfold createBranch. destruct (or_head_ref r h) as [x|]; [|reflexivity].
  destruct (truthy x); reflexivity.
Qed.

Lemma checkout_objects (r : GitRepository) (b : jsstring) :
  objects (fst (checkout r b)) = objects r.
Proof. unfold checkout. destruct (map_has (refs r) b); reflexivity. Qed.

Lemma run_store_ok (ops : list operation) :
  forall r, store_ok (objects r) -> collision_free r ops = true ->
            store_ok (objects (fold_left apply_op ops r)).
Proof.
  induction ops as [|op ops IH]; intros r Hok Hfree; [exact Hok|].
  cbn [fold_left]. cbn [collision_free] in Hfree.
  apply andb_true_iff in Hfree. destruct Hfree as [Hop Hrest].
  apply IH; [|exact Hrest].
  destruct op as [t m a n|b h|b]; cbn [apply_op].
  - apply store_ok_commit; assumption.
  - rewrite createBranch_objects. exact Hok.
  - rewrite checkout_objects. exact Hok.
Qed.

Lemma forEach_opt_total {A S : Type} (f : A -> S -> option S) :
  (forall a s, exists s', f a s = Some s') ->
  forall l s, exists s', forEach_opt f l s = Some s'.
Proof.
  intros Hf. induction l as [|a l IH]; intros s; cbn [forEach_opt]; eauto.
  destruct (Hf a s) as (s' & ->). apply IH.
Qed.

Lemma collectCommits_total (r : GitRepository) :
  exists st, collectCommits r = Some st.
Proof.
  unfold collectCommits. apply forEach_opt_total.
  intros [branch hash] [allCommits branches].
  destruct (getCommitHistory_total r (Some hash)) as (history & E & _).
  rewrite E. eauto.
Qed.

Lemma buildGraph_links (r : GitRepository) :
  store_ok (objects r) ->
  forall allCommits nodes0 edges0,
    (forall e, In e edges0 -> plink (objects r) (from e) (to e)) ->
    exists nodes edges,
      forEach_opt
        (fun hash '(nodes, edges) =>
           match getObject r hash with
           | None => Some (nodes, edges)
           | Some (Commit c) =>
               Some (nodes ++ [mkNode (GitCommit.hash c)
                                      (firstn 7 (GitCommit.hash c))
                                      (GitCommit.message c)
                                      (GitCommit.author c)
                                      (GitCommit.timestamp c)
                                      (GitCommit.parents c)],
                     edges ++ map (fun parentHash =>
                                     mkEdge (GitCommit.hash c) parentHash)
                                  (GitCommit.parents c))
           | Some _ => None
           end)
        allCommits (nodes0, edges0) = Some (nodes, edges)
      /\ forall e, In e edges -> plink (objects r) (from e) (to e).
Proof.
  intros [Hc _]. induction allCommits as [|hash l IH]; intros nodes0 edges0 H0.
  - exists nodes0, edges0. split; [reflexivity | exact H0].
  - cbn [forEach_opt]. unfold getObject at 1.
    destruct (map_get (objects r) hash) as [o|] eqn:Eo.
    + destruct (Hc hash o Eo) as (c & -> & Eh).
      apply IH. intros e He. apply in_app_iff in He.
      destruct He as [He|He]; [apply H0; exact He|].
      apply in_map_iff in He. destruct He as (p & <- & Hp).
      cbn [from to]. rewrite Eh. exists c. auto.
    + apply IH. exact H0.
Qed.

Lemma getCommitGraph_links (r : GitRepository) :
  store_ok (objects r) ->
  exists g, getCommitGraph r = Some g
            /\ forall e, In e (edges g) -> plink (objects r) (from e) (to e).
Proof.
  intros Hok. unfold getCommitGraph.
  destruct (collectCommits_total r) as ([allCommits branches] & ->).
  destruct (buildGraph_links r Hok allCommits [] [])
    as (nodes & edges & E & He); [intros e []|].
  unfold buildGraph. rewrite E. eexists. split; [reflexivity|]. exact He.
Qed.

(** A repository built without fingerprint collisions has an acyclic
    commit graph, and [detectCycle] says so. *)
Lemma commit_graph_no_cycle (ops : list operation) :
  collision_free emptyRepository ops = true ->
  exists g, getCommitGraph (run ops) = Some g
            /\ acyclic (edges g)
            /\ detectCycle (nodes g) (edges g) = Some false.
Proof.
  intros Hfree.
  assert (Hok : store_ok (objects (run ops))).
  { apply run_store_ok; [exact store_ok_empty | exact Hfree]. }
  destruct (getCommitGraph_links (run ops) Hok) as (g & E & He).
  assert (Hac : acyclic (edges g)).
  { intros x Hx. apply (ok_acyclic _ Hok x).
    apply (clos_trans_incl (edge_rel (edges g))); [|exact Hx].
    intros a b Hab. apply (He (mkEdge a b) Hab). }
  exists g. split; [exact E|]. split; [exact Hac|].
  apply detectCycle_acyclic. exact Hac.
Qed.

(** C4, as stated, fails: after the two commits of [colliding_ops] the
    snapshot has one node with an edge to itself and [detectCycle]
    returns true. *)
Lemma detectCycle_after_collision :
  exists g, getCommitGraph (run colliding_ops) = Some g
            /\ edges g = [mkEdge (str "000000000000000000000000000000000935f809")
                                 (str "000000000000000000000000000000000935f809")]
            /\ detectCycle (nodes g) (edges g) = Some true.
Proof.
  eexists. split; [vm_compute; reflexivity|].
  split; vm_compute; reflexivity.
Qed.

(** C4, amended: for every repository built from the empty repository by
    commit, createBranch and checkout operations in which no new commit
    gets a fingerprint that is already used as a parent link (by a stored
    commit or by the new commit itself), [getCommitGraph] returns a
    snapshot and [detectCycle] on its nodes and edges returns false. *)
Theorem detectCycle_false_without_collisions :
  forall ops : list operation,
    collision_free emptyRepository ops = true ->
    exists g, getCommitGraph (run ops) = Some g
              /\ detectCycle (nodes g) (edges g) = Some false.
Proof.
  intros ops Hfree.
  destruct (commit_graph_no_cycle ops Hfree) as (g & E & _ & Hd).
  exists g. auto.
Qed.

Lemma detectCycle_false_without_collisions_witness :
  exists g, getCommitGraph (run sample_ops) = Some g
            /\ detectCycle (nodes g) (edges g) = Some false.
Proof.
  apply (detectCycle_false_without_collisions sample_ops).
  vm_compute. reflexivity.
Defined.

(* ================================================================= *)
(** ** Merge bases in a repository built by operations *)







(* ================================================================= *)
(** * Further properties of the program *)

(* ================================================================= *)
(** * Further properties *)

(** ** The 32-bit hash and the shape of a fingerprint *)

Lemma toInt32_decomp (z : Z) :
  exists k, GitHash.toInt32 z = (z - 2 ^ 32 * k)%Z.
Proof.
  exists ((z + 2 ^ 31) / 2 ^ 32)%Z. unfold GitHash.toInt32.
  pose proof (Z.div_mod (z + 2 ^ 31) (2 ^ 32)). lia.
Qed.

Lemma toInt32_shift (z k : Z) :
  GitHash.toInt32 (z - 2 ^ 32 * k) = GitHash.toInt32 z.
Proof.
  unfold GitHash.toInt32. f_equal.
  replace (z - 2 ^ 32 * k + 2 ^ 31)%Z with (z + 2 ^ 31 + (- k) * 2 ^ 32)%Z by lia.
  apply Z_mod_plus_full.
Qed.

Lemma step_poly (a : Z) (c : N) :
  GitHash.step (GitHash.toInt32 a) c = GitHash.toInt32 (31 * a + Z.of_N c).
Proof.
  unfold GitHash.step. rewrite Z.shiftl_mul_pow2 by lia.
  destruct (toInt32_decomp a) as (k1 & E1).
  destruct (toInt32_decomp (GitHash.toInt32 a * 2 ^ 5)) as (k2 & E2).
  rewrite E2, E1.
  replace ((a - 2 ^ 32 * k1) * 2 ^ 5 - 2 ^ 32 * k2 - (a - 2 ^ 32 * k1)
           + Z.of_N c)%Z
    with (31 * a + Z.of_N c - 2 ^ 32 * (31 * k1 + k2))%Z by lia.
  apply toInt32_shift.
Qed.

Lemma fold_step_poly (s : jsstring) (a : Z) :
  fold_left GitHash.step s (GitHash.toInt32 a)
  = GitHash.toInt32 (fold_left (fun a c => (31 * a + Z.of_N c)%Z) s a).
Proof.
  revert a. induction s as [|c s IH]; intros a; cbn [fold_left]; [reflexivity|].
  rewrite step_poly. apply IH.
Qed.

(** X1: the loop of [GitHash.generate] computes the base-31 value of the
    code units of the serialized content, reduced to a signed 32-bit
    integer: [(hash << 5) - hash] is [31 * hash], and the wrap-around of
    every round can be postponed to the end. *)
Theorem hash32_polynomial :
  forall s : jsstring, GitHash.hash32 s = GitHash.toInt32 (poly31 s).
Proof.
  intros s. unfold GitHash.hash32, poly31.
  change 0%Z with (GitHash.toInt32 0) at 1. apply fold_step_poly.
Qed.

Lemma hex_aux_shape :
  forall fuel n acc k,
    (0 <= n < 16 ^ Z.of_nat k)%Z -> (0 < k)%nat ->
    exists D, GitHash.hex_aux fuel n acc = D ++ acc
              /\ (length D <= k)%nat
              /\ forallb is_hex_char D = true.
Proof.
  induction fuel as [|fuel IH]; intros n acc k Hn Hk.
  - exists []. cbn. split; [reflexivity|]. split; [lia | reflexivity].
  - cbn [GitHash.hex_aux].
    assert (Hmod : (0 <= n mod 16 < 16)%Z) by (apply Z.mod_pos_bound; lia).
    assert (Hd : is_hex_char (GitHash.hexdigit (n mod 16)) = true).
    { unfold is_hex_char, GitHash.hexdigit.
      destruct (Z.ltb_spec (n mod 16) 10).
      - apply orb_true_iff. left. apply andb_true_iff.
        split; apply N.leb_le; lia.
      - apply orb_true_iff. right. apply andb_true_iff.
        split; apply N.leb_le; lia. }
    destruct (Z.eqb_spec (n / 16) 0) as [E|E].
    + exists [GitHash.hexdigit (n mod 16)]. cbn [app length forallb].
      rewrite Hd. split; [reflexivity|]. split; [lia | reflexivity].
    + destruct k as [|k]; [lia|].
      assert (Hk' : (0 < k)%nat).
      { destruct k; [|lia]. exfalso. apply E.
        apply Z.div_small. cbn in Hn. lia. }
      assert (Hq : (0 <= n / 16 < 16 ^ Z.of_nat k)%Z).
      { split; [apply Z.div_pos; lia|].
        apply Z.div_lt_upper_bound; [lia|].
        replace (Z.of_nat (S k)) with (Z.of_nat k + 1)%Z in Hn by lia.
        rewrite Z.pow_add_r in Hn by lia. lia. }
      destruct (IH (n / 16)%Z (GitHash.hexdigit (n mod 16) :: acc) k Hq Hk')
        as (D & ED & HL & HF).
      exists (D ++ [GitHash.hexdigit (n mod 16)]). split; [|split].
      * rewrite ED, <- app_assoc. reflexivity.
      * rewrite length_app. cbn [length]. lia.
      * rewrite forallb_app, HF. cbn [forallb]. rewrite Hd. reflexivity.
Qed.

Lemma forallb_repeat_zero (k : nat) : forallb is_hex_char (repeat 48%N k) = true.
Proof. induction k as [|k IH]; cbn [repeat forallb]; [reflexivity|]. rewrite IH. reflexivity. Qed.

Lemma firstn_repeat_app (k m : nat) (c : N) (l : jsstring) :
  (k <= m)%nat -> firstn k (repeat c m ++ l) = repeat c k.
Proof.
  revert m. induction k as [|k IH]; intros m Hle; [reflexivity|].
  destruct m as [|m]; [lia|]. cbn [repeat app firstn]. f_equal.
  apply IH. lia.
Qed.

(** X2: every fingerprint has forty characters, all of them lower-case
    hexadecimal digits, and the first thirty-two are the digit zero: a
    fingerprint carries the eight hexadecimal digits of a 32-bit number,
    whatever the content. *)
Theorem generate_shape :
  forall j : GitHash.json,
    length (GitHash.generate j) = 40%nat
    /\ firstn 32 (GitHash.generate j) = repeat 48%N 32
    /\ forallb is_hex_char (GitHash.generate j) = true.
Proof.
  intros j. split; [apply generate_length|].
  unfold GitHash.generate, GitHash.fingerprint, GitHash.padStart,
    GitHash.toString16.
  pose proof (hash32_range (GitHash.stringify j)) as Hr.
  set (n := Z.abs (GitHash.hash32 (GitHash.stringify j))) in *.
  assert (Hn : (0 <= n < 16 ^ Z.of_nat 8)%Z).
  { change (16 ^ Z.of_nat 8)%Z with (2 ^ 32)%Z. subst n. lia. }
  destruct (hex_aux_shape (S (Z.to_nat (Z.log2 n))) n [] 8 Hn)
    as (D & ED & HL & HF); [lia|].
  rewrite ED, app_nil_r.
  assert (Hall : firstn 40 (repeat 48%N (40 - length D) ++ D)
                 = repeat 48%N (40 - length D) ++ D).
  { apply firstn_all2. rewrite length_app, repeat_length. lia. }
  rewrite Hall. split.
  - apply firstn_repeat_app. lia.
  - rewrite forallb_app, forallb_repeat_zero, HF. reflexivity.
Qed.

(** X3: read as a hexadecimal number, a fingerprint is the absolute value
    of the 32-bit hash of the serialized content.  So two contents get the
    same fingerprint exactly when their hashes agree up to sign. *)
Theorem generate_decodes :
  forall j1 j2 : GitHash.json,
    hex_value (GitHash.generate j1)
    = Z.abs (GitHash.hash32 (GitHash.stringify j1))
    /\ (GitHash.generate j1 = GitHash.generate j2 <->
        GitHash.hash32 (GitHash.stringify j1)
        = GitHash.hash32 (GitHash.stringify j2)
        \/ GitHash.hash32 (GitHash.stringify j1)
           = (- GitHash.hash32 (GitHash.stringify j2))%Z).
Proof.
  intros j1 j2. split.
  - unfold GitHash.generate. apply hex_value_fingerprint. apply hash32_range.
  - rewrite generate_eq_iff. lia.
Qed.

(** ** Trees built entry by entry *)

(** X4: adding entries one at a time gives the tree that the constructor
    builds from the complete entry list: the same entries in the same
    order and the same fingerprint. *)
Theorem addEntry_builds_tree :
  forall (es0 es : list GitTree.entry),
    fold_left (fun t e =>
                 GitTree.addEntry t (GitTree.e_mode e) (GitTree.e_name e)
                                  (GitTree.e_hash e) (GitTree.e_type e))
              es (GitTree.new es0)
    = GitTree.new (es0 ++ es).
Proof.
  intros es0 es. revert es0.
  induction es as [|e es IH]; intros es0; cbn [fold_left].
  - rewrite app_nil_r. reflexivity.
  - assert (E : GitTree.addEntry (GitTree.new es0) (GitTree.e_mode e)
                  (GitTree.e_name e) (GitTree.e_hash e) (GitTree.e_type e)
                = GitTree.new (es0 ++ [e])).
    { destruct e. reflexivity. }
    rewrite E, IH, <- app_assoc. reflexivity.
Qed.

(** ** The object store *)

Lemma map_set_length {V : Type} (m : jsmap jsstring V) (k : jsstring) (v : V) :
  length (map_set m k v) = if map_has m k then length m else S (length m).
Proof.
  unfold map_has. induction m as [|[a w] m IH]; cbn [map_set map_get length].
  - reflexivity.
  - destruct (keqb k a); cbn [length]; [reflexivity|].
    rewrite IH. destruct (map_get m k); reflexivity.
Qed.

(** X5: [storeObject] files the object under its own fingerprint and
    returns that fingerprint; [getObject] then finds the object, every
    other fingerprint resolves as before, refs and HEAD are untouched, and
    the store grows by one entry exactly when the fingerprint was not in
    use (an object with a used fingerprint replaces the stored one). *)
Theorem storeObject_getObject :
  forall (r : GitRepository) (obj : GitObject),
    let r' := fst (storeObject r obj) in
    snd (storeObject r obj) = obj_hash obj
    /\ getObject r' (obj_hash obj) = Some obj
    /\ (forall k, k <> obj_hash obj -> getObject r' k = getObject r k)
    /\ refs r' = refs r /\ HEAD r' = HEAD r
    /\ totalObjects (getStats r')
       = match getObject r (obj_hash obj) with
         | Some _ => totalObjects (getStats r)
         | None => S (totalObjects (getStats r))
         end.
Proof.
  intros r obj r'. subst r'. unfold storeObject, getObject.
  cbn [fst snd objects refs HEAD getStats totalObjects].
  split; [reflexivity|]. split; [apply map_get_set_same|].
  split; [intros k Hk; apply map_get_set_other; exact Hk|].
  split; [reflexivity|]. split; [reflexivity|].
  rewrite map_set_length. unfold map_has.
  destruct (map_get (objects r) (obj_hash obj)); reflexivity.
Qed.

Lemma count_types_sum (l : list GitObject) :
  length l
  = (length (filter (fun o => keqb (obj_type o) (str "commit")) l)
     + length (filter (fun o => keqb (obj_type o) (str "tree")) l)
     + length (filter (fun o => keqb (obj_type o) (str "blob")) l))%nat.
Proof.
  induction l as [|o l IH]; [reflexivity|].
  cbn [filter length]. destruct o; cbn [obj_type];
    change (keqb (str "blob") (str "commit")) with false;
    change (keqb (str "blob") (str "tree")) with false;
    change (keqb (str "blob") (str "blob")) with true;
    change (keqb (str "tree") (str "commit")) with false;
    change (keqb (str "tree") (str "tree")) with true;
    change (keqb (str "tree") (str "blob")) with false;
    change (keqb (str "commit") (str "commit")) with true;
    change (keqb (str "commit") (str "tree")) with false;
    change (keqb (str "commit") (str "blob")) with false;
    cbn [length]; lia.
Qed.

Lemma map_set_values_In {V : Type} (m : jsmap jsstring V) (k : jsstring)
    (v o : V) :
  In o (map_values (map_set m k v)) -> o = v \/ In o (map_values m).
Proof.
  unfold map_values. induction m as [|[a w] m IH]; cbn [map_set map snd].
  - intros [E|[]]. left. congruence.
  - destruct (keqb k a); cbn [map snd].
    + intros [E|Hin]; [left; congruence | right; right; exact Hin].
    + intros [E|Hin]; [right; left; exact E|].
      destruct (IH Hin) as [E|Hin']; [left; exact E | right; right; exact Hin'].
Qed.

Lemma commit_ops_cons (op : operation) (ops : list operation) :
  commit_ops (op :: ops)
  = ((match op with OpCommit _ _ _ _ => 1 | _ => 0 end) + commit_ops ops)%nat.
Proof. unfold commit_ops. cbn [filter]. destruct op; reflexivity. Qed.

Lemma run_only_commits (ops : list operation) :
  forall r,
    (forall o, In o (map_values (objects r)) -> exists c, o = Commit c) ->
    (forall o, In o (map_values (objects (fold_left apply_op ops r))) ->
               exists c, o = Commit c)
    /\ (length (objects (fold_left apply_op ops r))
        <= length (objects r) + commit_ops ops)%nat.
Proof.
  induction ops as [|op ops IH]; intros r Hr.
  - cbn [fold_left]. unfold commit_ops. cbn [filter length].
    split; [exact Hr | lia].
  - cbn [fold_left]. rewrite commit_ops_cons.
    assert (Hstep : (forall o, In o (map_values (objects (apply_op r op))) ->
                               exists c, o = Commit c)
                    /\ (length (objects (apply_op r op))
                        <= length (objects r)
                           + match op with OpCommit _ _ _ _ => 1 | _ => 0 end)%nat).
    { destruct op as [t m a n|b h|b]; cbn [apply_op].
      - unfold commit. cbn [fst objects storeObject]. split.
        + intros o Ho. apply map_set_values_In in Ho.
          destruct Ho as [->|Ho]; [eauto | apply Hr; exact Ho].
        + rewrite map_set_length.
          destruct (map_has (objects r) _); lia.
      - rewrite createBranch_objects. split; [exact Hr | lia].
      - rewrite checkout_objects. split; [exact Hr | lia]. }
    destruct Hstep as [H1 H2].
    destruct (IH (apply_op r op) H1) as [H3 H4].
    split; [exact H3 | lia].
Qed.

(** X6: the statistics of [getStats] add up: every stored object is a
    commit, a tree or a blob, so [totalObjects] is the sum of the three
    counts.  In a repository built from the empty one by commit,
    createBranch and checkout there are no trees and no blobs, and the
    number of commits is at most the number of [commit] calls (fewer when
    fingerprints collide). *)
Theorem getStats_counts :
  (forall r : GitRepository,
      totalObjects (getStats r)
      = (totalCommits (getStats r) + totalTrees (getStats r)
         + totalBlobs (getStats r))%nat)
  /\ (forall ops : list operation,
        totalTrees (getStats (run ops)) = 0%nat
        /\ totalBlobs (getStats (run ops)) = 0%nat
        /\ totalCommits (getStats (run ops)) = totalObjects (getStats (run ops))
        /\ (totalCommits (getStats (run ops)) <= commit_ops ops)%nat).
Proof.
  assert (Hsum : forall r : GitRepository,
             totalObjects (getStats r)
             = (totalCommits (getStats r) + totalTrees (getStats r)
                + totalBlobs (getStats r))%nat).
  { intros r. cbn [getStats totalObjects totalCommits totalTrees totalBlobs].
    unfold count_type. rewrite <- count_types_sum.
    unfold map_values. rewrite length_map. reflexivity. }
  split; [exact Hsum|].
  intros ops.
  destruct (run_only_commits ops emptyRepository) as [Hc Hl].
  { intros o []. }
  fold (run ops) in Hc, Hl.
  assert (Hnone : forall ty, ty <> str "commit" ->
             count_type (run ops) ty = 0%nat).
  { intros ty Hty. unfold count_type.
    induction (map_values (objects (run ops))) as [|o l IH]; [reflexivity|].
    cbn [filter]. destruct (Hc o (or_introl eq_refl)) as (c & ->).
    cbn [obj_type]. rewrite keqb_neq by congruence.
    apply IH. intros o' Ho'. apply Hc. right. exact Ho'. }
  assert (Ht : totalTrees (getStats (run ops)) = 0%nat).
  { apply Hnone. discriminate. }
  assert (Hb : totalBlobs (getStats (run ops)) = 0%nat).
  { apply Hnone. discriminate. }
  split; [exact Ht|]. split; [exact Hb|].
  pose proof (Hsum (run ops)) as Hs. rewrite Ht, Hb in Hs.
  split; [lia|].
  cbn [getStats totalObjects] in Hs. cbn [emptyRepository objects length] in Hl.
  lia.
Qed.

(* ================================================================= *)
(** ** Branches *)

(** X7: [createBranch] followed by [checkout] of the new name.  When there
    is a fingerprint to point at (the given one, or else the target of
    HEAD), the branch is set to it, whether or not the name existed, the
    checkout succeeds and makes it the current branch, the other refs and
    the object store are as before, and the history seen from the new HEAD
    is the history of that fingerprint.  When there is none (no argument and
    HEAD without a target), [createBranch] changes nothing, so the
    checkout of a name that was not a branch fails. *)
Theorem createBranch_then_checkout :
  forall (r : GitRepository) (b : jsstring) (commitHash : option jsstring),
    (forall h, or_head_ref r commitHash = Some h -> truthy h = true ->
       let r2 := checkout (createBranch r b commitHash) b in
       snd r2 = true
       /\ HEAD (fst r2) = b
       /\ map_get (refs (fst r2)) b = Some h
       /\ (forall n, n <> b -> map_get (refs (fst r2)) n = map_get (refs r) n)
       /\ objects (fst r2) = objects r
       /\ getCommitHistory (fst r2) None = getCommitHistory r (Some h))
    /\ (or_head_ref r commitHash = None \/ or_head_ref r commitHash = Some [] ->
        createBranch r b commitHash = r
        /\ (map_get (refs r) b = None ->
            checkout (createBranch r b commitHash) b = (r, false))).
Proof.
  intros r b commitHash. split.
  - intros h Eh Ht r2. subst r2. unfold createBranch. rewrite Eh, Ht.
    unfold checkout. cbn [refs]. rewrite map_has_set, keqb_refl.
    cbn [orb fst snd HEAD refs objects].
    split; [reflexivity|]. split; [reflexivity|].
    split; [apply map_get_set_same|].
    split; [intros n Hn; apply map_get_set_other; exact Hn|].
    split; [reflexivity|].
    unfold getCommitHistory, or_head_ref. cbn [refs HEAD objects].
    rewrite map_get_set_same, !Ht. reflexivity.
  - intros Hn.
    assert (E : createBranch r b commitHash = r).
    { unfold createBranch. destruct Hn as [-> | ->]; reflexivity. }
    split; [exact E|]. intros Hb. rewrite E. unfold checkout, map_has.
    rewrite Hb. reflexivity.
Qed.

Lemma createBranch_then_checkout_witness :
  snd (checkout (createBranch one_commit_repo (str "dev") None) (str "dev"))
  = true
  /\ checkout (createBranch emptyRepository (str "dev") None) (str "dev")
     = (emptyRepository, false).
Proof.
  split.
  - refine (proj1 (proj1 (createBranch_then_checkout one_commit_repo
                            (str "dev") None)
                         (GitCommit.hash (snd (commit emptyRepository
                            (str "t1") (str "Initial commit") (str "Alice")
                            sample_ts))) _ _)).
    + vm_compute. reflexivity.
    + vm_compute. reflexivity.
  - refine (proj2 (proj2 (createBranch_then_checkout emptyRepository
                            (str "dev") None) _) _).
    + left. reflexivity.
    + reflexivity.
Defined.

(* ================================================================= *)
(** ** The history as the visit order of the traversal *)

Lemma forEach_traverse_extends (objs : jsmap jsstring GitObject) (fuel : nat) :
  (forall h V V', traverse fuel objs h V = Some V' ->
                  exists new, V' = V ++ new /\ (NoDup V -> NoDup V')) ->
  forall ps V V', forEach_opt (traverse fuel objs) ps V = Some V' ->
                  exists new, V' = V ++ new /\ (NoDup V -> NoDup V').
Proof.
  intros IH. induction ps as [|p ps IHps]; intros V V' E; cbn [forEach_opt] in E.
  - inversion E; subst. exists []. rewrite app_nil_r. auto.
  - destruct (traverse fuel objs p V) as [V1|] eqn:E1; [|discriminate].
    destruct (IH _ _ _ E1) as (n1 & -> & Hn1).
    destruct (IHps _ _ E) as (n2 & -> & Hn2).
    exists (n1 ++ n2). rewrite app_assoc. auto.
Qed.

(** The visited set only grows at its end, and stays free of
    duplicates. *)
Lemma traverse_extends (objs : jsmap jsstring GitObject) :
  forall fuel h V V',
    traverse fuel objs h V = Some V' ->
    exists new, V' = V ++ new /\ (NoDup V -> NoDup V').
Proof.
  induction fuel as [|fuel IH]; intros h V V' E; [discriminate|].
  cbn [traverse] in E.
  destruct (negb (truthy h) || set_has V h) eqn:Eg.
  { inversion E; subst. exists []. rewrite app_nil_r. auto. }
  apply orb_false_iff in Eg. destruct Eg as [_ Ev].
  apply set_has_false in Ev. rewrite (set_add_fresh V h Ev) in E.
  assert (Hnd : NoDup V -> NoDup (V ++ [h])).
  { intros HV. rewrite <- (set_add_fresh V h Ev). apply set_add_NoDup. exact HV. }
  destruct (map_get objs h) as [[b|t|c]|];
    try solve [inversion E; subst; exists [h]; auto].
  destruct (forEach_traverse_extends objs fuel IH _ _ _ E) as (n & -> & Hn).
  exists (h :: n). split; [rewrite <- app_assoc; reflexivity | auto].
Qed.

Lemma traverse_head (objs : jsmap jsstring GitObject) (fuel : nat)
    (h : jsstring) (V' : list jsstring) :
  truthy h = true -> traverse fuel objs h [] = Some V' ->
  hd_error V' = Some h.
Proof.
  intros Ht E. destruct fuel as [|fuel]; [discriminate|].
  cbn [traverse] in E. rewrite Ht in E. cbn [negb orb set_has] in E.
  change (set_add [] h) with [h] in E.
  destruct (map_get objs h) as [[b|t|c]|]; try (inversion E; reflexivity).
  destruct (forEach_traverse_extends objs fuel
              (traverse_extends objs fuel) _ _ _ E) as (n & -> & _).
  reflexivity.
Qed.

Lemma commits_of_app (objs : jsmap jsstring GitObject) (a b : list jsstring) :
  commits_of objs (a ++ b) = commits_of objs a ++ commits_of objs b.
Proof. unfold commits_of. apply flat_map_app. Qed.

Lemma skipn_app_exact {A : Type} (a b : list A) : skipn (length a) (a ++ b) = b.
Proof. induction a as [|x a IH]; [reflexivity | exact IH]. Qed.

(** [dfs] of [getCommitHistory] visits the fingerprints that [traverse]
    of [findMergeBase] visits, in the same order, and pushes the commits
    found under the newly visited ones. *)
Lemma history_dfs_traverse (objs : jsmap jsstring GitObject) :
  forall fuel h V H,
    history_dfs fuel objs h (V, H)
    = match traverse fuel objs h V with
      | Some V' => Some (V', H ++ commits_of objs (skipn (length V) V'))
      | None => None
      end.
Proof.
  induction fuel as [|fuel IH]; intros h V H; [reflexivity|].
  cbn [history_dfs traverse].
  destruct (negb (truthy h) || set_has V h) eqn:Eg.
  { rewrite skipn_all. cbn. rewrite app_nil_r. reflexivity. }
  apply orb_false_iff in Eg. destruct Eg as [_ Ev].
  apply set_has_false in Ev. rewrite (set_add_fresh V h Ev).
  assert (Hloop : forall ps V1 H1,
             forEach_opt (history_dfs fuel objs) ps (V1, H1)
             = match forEach_opt (traverse fuel objs) ps V1 with
               | Some V' =>
                   Some (V', H1 ++ commits_of objs (skipn (length V1) V'))
               | None => None
               end).
  { induction ps as [|p ps IHps]; intros V1 H1; cbn [forEach_opt].
    - rewrite skipn_all. cbn. rewrite app_nil_r. reflexivity.
    - rewrite IH.
      destruct (traverse fuel objs p V1) as [V2|] eqn:E2; [|reflexivity].
      rewrite IHps.
      destruct (forEach_opt (traverse fuel objs) ps V2) as [V3|] eqn:E3;
        [|reflexivity].
      destruct (traverse_extends objs _ _ _ _ E2) as (n2 & -> & _).
      destruct (forEach_traverse_extends objs fuel
                  (traverse_extends objs fuel) _ _ _ E3) as (n3 & -> & _).
      rewrite <- !app_assoc, !skipn_app_exact.
      rewrite (app_assoc V1 n2 n3), skipn_app_exact.
      rewrite commits_of_app, app_assoc. reflexivity. }
  destruct (map_get objs h) as [[b|t|c]|] eqn:Eo.
  - rewrite skipn_app_exact. cbn [commits_of flat_map]. rewrite Eo.
    rewrite app_nil_r. reflexivity.
  - rewrite skipn_app_exact. cbn [commits_of flat_map]. rewrite Eo.
    rewrite app_nil_r. reflexivity.
  - rewrite Hloop.
    destruct (forEach_opt (traverse fuel objs) (GitCommit.parents c) (V ++ [h]))
      as [V3|] eqn:E3; [|reflexivity].
    destruct (forEach_traverse_extends objs fuel
                (traverse_extends objs fuel) _ _ _ E3) as (n3 & -> & _).
    rewrite skipn_app_exact. rewrite <- !app_assoc, skipn_app_exact.
    cbn [app]. change (h :: n3) with ([h] ++ n3).
    rewrite commits_of_app. cbn [commits_of flat_map]. rewrite Eo.
    cbn [app]. reflexivity.
  - rewrite skipn_app_exact. cbn [commits_of flat_map]. rewrite Eo.
    rewrite app_nil_r. reflexivity.
Qed.

(** The history from a fingerprint: the commits stored under the
    fingerprints that it reaches, in the order of the visit. *)
Lemma history_visit (r : GitRepository) (start : option jsstring)
    (h : jsstring) :
  or_head_ref r start = Some h -> truthy h = true ->
  exists ks,
    getCommitHistory r start = Some (commits_of (objects r) ks)
    /\ NoDup ks
    /\ hd_error ks = Some h
    /\ (forall k, In k ks <-> reaches (objects r) h k).
Proof.
  intros Eh Ht.
  destruct (traverse_ancestors (objects r) h Ht) as (A & Etr & HA).
  destruct (traverse_extends (objects r) _ _ _ _ Etr) as (n & En & Hnd).
  cbn [app] in En. subst n.
  exists A. split; [|split; [|split]].
  - unfold getCommitHistory. rewrite Eh, Ht, history_dfs_traverse, Etr.
    reflexivity.
  - apply Hnd. constructor.
  - eapply traverse_head; eauto.
  - exact HA.
Qed.

Lemma commits_of_In (objs : jsmap jsstring GitObject) (ks : list jsstring)
    (c : GitCommit.t) :
  In c (commits_of objs ks)
  <-> exists k, In k ks /\ map_get objs k = Some (Commit c).
Proof.
  unfold commits_of. rewrite in_flat_map. split.
  - intros (k & Hk & Hin). exists k. split; [exact Hk|].
    destruct (map_get objs k) as [[b|t|c']|]; try destruct Hin.
    + congruence.
    + destruct H.
  - intros (k & Hk & E). exists k. split; [exact Hk|]. rewrite E.
    left. reflexivity.
Qed.

(** X8: the history is complete and free of repetition.  From a start
    fingerprint (the argument, or the target of HEAD) [getCommitHistory]
    returns the commits stored under the fingerprints reachable from the
    start through the parent links of stored commits: every such
    fingerprint is visited, each once, the start first, and the history
    lists the commits found under them in the order of the visit. *)
Theorem history_complete :
  forall (r : GitRepository) (start : option jsstring) (h : jsstring),
    or_head_ref r start = Some h -> truthy h = true ->
    exists ks,
      getCommitHistory r start = Some (commits_of (objects r) ks)
      /\ NoDup ks
      /\ hd_error ks = Some h
      /\ (forall k, In k ks <-> reaches (objects r) h k)
      /\ (forall k c, reaches (objects r) h k ->
                      getObject r k = Some (Commit c) ->
                      exists history,
                        getCommitHistory r start = Some history
                        /\ In c history).
Proof.
  intros r start h Eh Ht.
  destruct (history_visit r start h Eh Ht) as (ks & Eg & Hnd & Hhd & Hks).
  exists ks. split; [exact Eg|]. split; [exact Hnd|]. split; [exact Hhd|].
  split; [exact Hks|].
  intros k c Hk Ek. exists (commits_of (objects r) ks). split; [exact Eg|].
  apply commits_of_In. exists k. split; [apply Hks; exact Hk | exact Ek].
Qed.

Lemma history_complete_witness :
  exists ks,
    getCommitHistory (fst sample_r4) None
    = Some (commits_of (objects (fst sample_r4)) ks)
    /\ NoDup ks
    /\ hd_error ks = Some (GitCommit.hash (snd sample_r4)).
Proof.
  destruct (history_complete (fst sample_r4) None
              (GitCommit.hash (snd sample_r4)))
    as (ks & H1 & H2 & H3 & _).
  - vm_compute. reflexivity.
  - vm_compute. reflexivity.
  - exists ks. auto.
Defined.

(* ================================================================= *)
(** ** The history after a commit *)

Lemma history_dfs_extends (objs : jsmap jsstring GitObject) :
  forall fuel h V H V' H',
    history_dfs fuel objs h (V, H) = Some (V', H') ->
    exists new, H' = H ++ new.
Proof.
  intros fuel h V H V' H' E. rewrite history_dfs_traverse in E.
  destruct (traverse fuel objs h V); [|discriminate].
  inversion E; subst. eauto.
Qed.

(** The traversal of a store with one more commit, under a fingerprint
    that was not in use and counts as visited, pushes what the traversal
    of the old store pushes. *)
Lemma history_dfs_new_key (objs : jsmap jsstring GitObject) (k : jsstring)
    (c : GitCommit.t) :
  map_get objs k = None ->
  forall fuel h V H V' H' V2 H2,
    (forall x, set_has V2 x = set_has V x || keqb x k) ->
    history_dfs fuel objs h (V, H) = Some (V', H') ->
    exists V2',
      history_dfs fuel (map_set objs k (Commit c)) h (V2, H2)
      = Some (V2', H2 ++ skipn (length H) H')
      /\ forall x, set_has V2' x = set_has V' x || keqb x k.
Proof.
  intros Hk. induction fuel as [|fuel IH];
    intros h V H V' H' V2 H2 Hrel E; [discriminate|].
  cbn [history_dfs] in *.
  destruct (truthy h) eqn:Et; cbn [negb orb] in *.
  2:{ inversion E; subst. exists V2. rewrite skipn_all, app_nil_r. auto. }
  rewrite Hrel.
  destruct (set_has V h) eqn:Ev; cbn [orb] in *.
  { inversion E; subst. exists V2. rewrite skipn_all, app_nil_r. auto. }
  assert (Hrel1 : forall x,
             set_has (set_add V2 h) x = set_has (set_add V h) x || keqb x k).
  { intros x.
    destruct (set_has (set_add V2 h) x) eqn:E2.
    - apply set_has_In, set_add_In in E2. symmetry. apply orb_true_iff.
      destruct E2 as [E2| ->].
      + apply set_has_In in E2. rewrite Hrel in E2.
        apply orb_true_iff in E2. destruct E2 as [E2|E2]; [|auto].
        left. apply set_has_In, set_add_In. left. apply set_has_In. exact E2.
      + left. apply set_has_In, set_add_In. auto.
    - symmetry. apply orb_false_iff. split.
      + apply set_has_false. intros Hin. apply set_add_In in Hin.
        apply set_has_false in E2. apply E2. apply set_add_In.
        destruct Hin as [Hin|Hin]; [|auto].
        left. apply set_has_In. rewrite Hrel. apply set_has_In in Hin.
        rewrite Hin. reflexivity.
      + destruct (keqb x k) eqn:Exk; [|reflexivity].
        apply set_has_false in E2. exfalso. apply E2. apply set_add_In.
        left. apply set_has_In. rewrite Hrel, Exk. apply orb_true_r. }
  destruct (keqb_spec h k) as [->|Hne].
  { rewrite Hk in E. inversion E; subst. exists V2.
    rewrite skipn_all, app_nil_r. split; [reflexivity|].
    intros x. rewrite Hrel.
    destruct (set_has (set_add V k) x) eqn:Ea.
    - apply set_has_In, set_add_In in Ea. destruct Ea as [Ea| ->].
      + apply set_has_In in Ea. rewrite Ea. reflexivity.
      + rewrite keqb_refl. apply orb_true_r.
    - apply set_has_false in Ea.
      assert (Ex : set_has V x = false).
      { apply set_has_false. intros Hin. apply Ea. apply set_add_In. auto. }
      rewrite Ex. reflexivity. }
  rewrite map_get_set_other by exact Hne.
  assert (Hloop : forall ps V1 H1 V1' H1' V3 H3,
             (forall x, set_has V3 x = set_has V1 x || keqb x k) ->
             forEach_opt (history_dfs fuel objs) ps (V1, H1) = Some (V1', H1') ->
             exists V3',
               forEach_opt (history_dfs fuel (map_set objs k (Commit c))) ps
                           (V3, H3)
               = Some (V3', H3 ++ skipn (length H1) H1')
               /\ forall x, set_has V3' x = set_has V1' x || keqb x k).
  { induction ps as [|p ps IHps]; intros V1 H1 V1' H1' V3 H3 Hr Ef;
      cbn [forEach_opt] in *.
    - inversion Ef; subst. exists V3. rewrite skipn_all, app_nil_r. auto.
    - destruct (history_dfs fuel objs p (V1, H1)) as [[Va Ha]|] eqn:Ea;
        [|discriminate].
      destruct (IH p V1 H1 Va Ha V3 H3 Hr Ea) as (V3a & -> & Hra).
      destruct (IHps Va Ha V1' H1' V3a (H3 ++ skipn (length H1) Ha) Hra Ef)
        as (V3' & -> & Hr').
      exists V3'. split; [|exact Hr']. f_equal. f_equal.
      destruct (history_dfs_extends objs _ _ _ _ _ _ Ea) as (n1 & ->).
      assert (Hext : exists n2, H1' = (H1 ++ n1) ++ n2).
      { clear - Ef. revert Va Ef. generalize (H1 ++ n1) as Hx.
        induction ps as [|q ps IHq]; intros Hx Va Ef; cbn [forEach_opt] in Ef.
        - inversion Ef; subst. exists []. rewrite app_nil_r. reflexivity.
        - destruct (history_dfs fuel objs q (Va, Hx)) as [[Vb Hb]|] eqn:Eb;
            [|discriminate].
          destruct (history_dfs_extends objs _ _ _ _ _ _ Eb) as (m1 & ->).
          destruct (IHq _ _ Ef) as (m2 & ->).
          exists (m1 ++ m2). rewrite app_assoc. reflexivity. }
      destruct Hext as (n2 & ->).
      rewrite !skipn_app_exact. rewrite <- (app_assoc H1 n1 n2).
      rewrite skipn_app_exact, app_assoc. reflexivity. }
  destruct (map_get objs h) as [[b|t|c0]|] eqn:Eo;
    try (inversion E; subst; exists (set_add V2 h);
         rewrite skipn_all, app_nil_r; split; [reflexivity | exact Hrel1]).
  destruct (Hloop _ _ _ _ _ (set_add V2 h) (H2 ++ [c0]) Hrel1 E)
    as (V3' & -> & Hr').
  exists V3'. split; [|exact Hr']. f_equal. f_equal.
  assert (Hext : exists n2, H' = (H ++ [c0]) ++ n2).
  { clear - E. revert E. generalize (set_add V h) as Vx, (H ++ [c0]) as Hx.
    induction (GitCommit.parents c0) as [|q ps IHq]; intros Vx Hx Ef;
      cbn [forEach_opt] in Ef.
    - inversion Ef; subst. exists []. rewrite app_nil_r. reflexivity.
    - destruct (history_dfs fuel objs q (Vx, Hx)) as [[Vb Hb]|] eqn:Eb;
        [|discriminate].
      destruct (history_dfs_extends objs _ _ _ _ _ _ Eb) as (m1 & ->).
      destruct (IHq _ _ Ef) as (m2 & ->).
      exists (m1 ++ m2). rewrite app_assoc. reflexivity. }
  destruct Hext as (n2 & ->).
  rewrite skipn_app_exact. rewrite <- (app_assoc H [c0] n2).
  rewrite skipn_app_exact, <- app_assoc. reflexivity.
Qed.

(** X9: after a commit whose fingerprint was not in use, the history of
    the current branch is the new commit followed by the history as it was
    before the commit. *)
Theorem history_after_commit :
  forall (r : GitRepository) (treeHash message author now : jsstring),
    let r' := fst (commit r treeHash message author now) in
    let c := snd (commit r treeHash message author now) in
    getObject r (GitCommit.hash c) = None ->
    exists old,
      getCommitHistory r None = Some old
      /\ getCommitHistory r' None = Some (c :: old).
Proof.
  intros r treeHash message author now r' c Hfresh.
  destruct (getCommitHistory_total r None) as (old & Eold & _).
  exists old. split; [exact Eold|].
  assert (Er' : r' = {| objects := map_set (objects r) (GitCommit.hash c) (Commit c);
                        refs := map_set (refs r) (HEAD r) (GitCommit.hash c);
                        HEAD := HEAD r |}) by reflexivity.
  assert (Hc : GitCommit.parents c
               = match map_get (refs r) (HEAD r) with
                 | Some p => if truthy p then [p] else []
                 | None => []
                 end) by reflexivity.
  assert (Htc : truthy (GitCommit.hash c) = true) by apply commit_hash_truthy.
  unfold getObject in Hfresh.
  assert (Hlen : length (map_set (objects r) (GitCommit.hash c) (Commit c))
                 = S (length (objects r))).
  { rewrite map_set_length. unfold map_has. rewrite Hfresh. reflexivity. }
  unfold getCommitHistory. rewrite Er'. cbn [or_head_ref refs HEAD objects].
  rewrite map_get_set_same, Htc, Hlen.
  cbn [history_dfs]. rewrite Htc. cbn [negb orb set_has].
  rewrite map_get_set_same. change (set_add [] (GitCommit.hash c))
    with [GitCommit.hash c]. change ([] ++ [c]) with [c].
  unfold getCommitHistory in Eold. cbn [or_head_ref] in Eold.
  rewrite Hc.
  destruct (map_get (refs r) (HEAD r)) as [p|] eqn:Ep.
  2:{ cbn [forEach_opt option_map snd]. inversion Eold. reflexivity. }
  destruct (truthy p) eqn:Etp.
  2:{ cbn [forEach_opt option_map snd]. inversion Eold. reflexivity. }
  cbn [forEach_opt].
  destruct (history_dfs (S (length (objects r))) (objects r) p ([], []))
    as [[V' H']|] eqn:Ed; [|discriminate].
  cbn [option_map snd] in Eold. inversion Eold; subst H'.
  assert (Hrel : forall x, set_has [GitCommit.hash c] x
                           = set_has [] x || keqb x (GitCommit.hash c)).
  { intros x. cbn [set_has]. apply orb_comm. }
  destruct (history_dfs_new_key (objects r) (GitCommit.hash c) c Hfresh
              _ _ _ _ _ _ [GitCommit.hash c] [c] Hrel Ed) as (V2' & E2 & _).
  change (option_map snd
            match history_dfs (S (length (objects r)))
                    (map_set (objects r) (GitCommit.hash c) (Commit c)) p
                    ([GitCommit.hash c], [c]) with
            | Some s' => Some s'
            | None => None
            end = Some (c :: old)).
  match goal with
  | |- context [history_dfs ?a ?b ?d ?e] =>
      replace (history_dfs a b d e)
        with (Some (V2', [c] ++ skipn (length (@nil GitCommit.t)) old))
        by (symmetry; exact E2)
  end.
  reflexivity.
Qed.

Lemma history_after_commit_witness :
  exists old,
    getCommitHistory one_commit_repo None = Some old
    /\ getCommitHistory
         (fst (commit one_commit_repo (str "t2") (str "Second") (str "Bob")
                      sample_ts)) None
       = Some (snd (commit one_commit_repo (str "t2") (str "Second")
                           (str "Bob") sample_ts) :: old).
Proof.
  apply (history_after_commit one_commit_repo (str "t2") (str "Second")
           (str "Bob") sample_ts).
  vm_compute. reflexivity.
Defined.

(* ================================================================= *)
(** ** Merge bases: fast-forward and runaway recursion *)

(** X10: when the tip of the second branch is the tip of the first one
    or one of its ancestors (the first branch is ahead of the second),
    [findMergeBase] returns the tip of the second branch.  In particular
    the merge base of a branch with itself is its own tip. *)
Theorem findMergeBase_fast_forward :
  forall (r : GitRepository) (branch1 branch2 h1 h2 : jsstring) (fuel : nat),
    map_get (refs r) branch1 = Some h1 ->
    map_get (refs r) branch2 = Some h2 ->
    truthy h1 = true -> truthy h2 = true ->
    reaches (objects r) h1 h2 ->
    findMergeBase (S fuel) r branch1 branch2 = Some (Some h2)
    /\ findMergeBase (S fuel) r branch1 branch1 = Some (Some h1).
Proof.
  intros r branch1 branch2 h1 h2 fuel E1 E2 T1 T2 Hr.
  destruct (traverse_ancestors (objects r) h1 T1) as (A & Etr & HA).
  assert (H2 : set_has A h2 = true) by (apply set_has_In, HA; exact Hr).
  assert (H1 : set_has A h1 = true).
  { apply set_has_In, HA. apply rt1n_refl. }
  split.
  - unfold findMergeBase. rewrite E1, E2, T1, T2. cbn [negb orb].
    rewrite Etr. cbn [findCommon]. rewrite T2, H2. reflexivity.
  - unfold findMergeBase. rewrite E1, T1. cbn [negb orb].
    rewrite Etr. cbn [findCommon]. rewrite T1, H1. reflexivity.
Qed.

Lemma findMergeBase_fast_forward_witness :
  findMergeBase 1 (fst sample_r4) (str "main") (str "main")
  = Some (Some (GitCommit.hash (snd sample_r4))).
Proof.
  refine (proj2 (findMergeBase_fast_forward (fst sample_r4)
                   (str "main") (str "main")
                   (GitCommit.hash (snd sample_r4))
                   (GitCommit.hash (snd sample_r4)) 0 _ _ _ _ _)).
  - vm_compute. reflexivity.
  - vm_compute. reflexivity.
  - vm_compute. reflexivity.
  - vm_compute. reflexivity.
  - apply rt1n_refl.
Defined.

(** X11: [findCommon] keeps no visited set.  When the tip of the second
    branch is a commit that lists itself as its first parent (what a
    fingerprint collision stores) and is not an ancestor of the first
    tip, the search calls itself on the same fingerprint again and again:
    no amount of fuel lets [findMergeBase] return. *)
Theorem findMergeBase_runs_away :
  forall (r : GitRepository) (branch1 branch2 h1 h2 : jsstring)
         (c : GitCommit.t) (ps : list jsstring),
    map_get (refs r) branch1 = Some h1 ->
    map_get (refs r) branch2 = Some h2 ->
    truthy h1 = true -> truthy h2 = true ->
    getObject r h2 = Some (Commit c) ->
    GitCommit.parents c = h2 :: ps ->
    ~ reaches (objects r) h1 h2 ->
    forall fuel, findMergeBase fuel r branch1 branch2 = None.
Proof.
  intros r branch1 branch2 h1 h2 c ps E1 E2 T1 T2 Ec Ep Hn fuel.
  destruct (traverse_ancestors (objects r) h1 T1) as (A & Etr & HA).
  assert (H2 : set_has A h2 = false).
  { apply set_has_false. intros Hin. apply Hn, HA. exact Hin. }
  unfold findMergeBase. rewrite E1, E2, T1, T2. cbn [negb orb].
  rewrite Etr. unfold getObject in Ec.
  induction fuel as [|fuel IH]; [reflexivity|].
  cbn [findCommon]. rewrite T2, H2, Ec, Ep. cbn [negb]. rewrite IH.
  reflexivity.
Qed.

Lemma findMergeBase_runs_away_witness :
  findMergeBase 1000 looping_repo (str "other") (str "main") = None.
Proof.
  refine (findMergeBase_runs_away looping_repo (str "other") (str "main")
            (str "x") (str "000000000000000000000000000000000935f809")
            (snd (commit (fst (commit emptyRepository empty_tree_hash
                                      (str "Initial commit") (str "Alice")
                                      (str "2024-01-01T00:00:00.000Z")))
                         empty_tree_hash (str "Fix 0jnyukr") (str "Alice")
                         (str "2024-01-02T00:00:00.000Z")))
            [] _ _ _ _ _ _ _ 1000%nat).
  - vm_compute. reflexivity.
  - vm_compute. reflexivity.
  - reflexivity.
  - reflexivity.
  - vm_compute. reflexivity.
  - vm_compute. reflexivity.
  - intros Hr. inversion Hr as [E|y z Hxy Hyz].
    destruct Hxy as (c' & Ec' & _). vm_compute in Ec'. discriminate.
Defined.

(* ================================================================= *)
(** ** Cycle detection on arbitrary graphs *)

Lemma keqb_sym (a b : jsstring) : keqb a b = keqb b a.
Proof.
  destruct (keqb_spec a b) as [->|Hne].
  - symmetry. apply keqb_refl.
  - symmetry. apply keqb_neq. congruence.
Qed.

Lemma cycle_graph_fold (u : jsstring) (es : list Edge) :
  forall g : jsmap jsstring (list jsstring),
    neighbors_of
      (fold_left (fun graph edge =>
                    if map_has graph (from edge) then
                      map_set graph (from edge)
                              (neighbors_of graph (from edge) ++ [to edge])
                    else graph) es g) u
    = neighbors_of g u
      ++ (if map_has g u
          then map to (filter (fun e => keqb (from e) u) es) else []).
Proof.
  induction es as [|e es IH]; intros g; cbn [fold_left filter map].
  - destruct (map_has g u); rewrite app_nil_r; reflexivity.
  - rewrite IH. destruct (map_has g (from e)) eqn:Ef.
    + rewrite map_has_set, neighbors_of_set. rewrite (keqb_sym u (from e)).
      destruct (keqb_spec (from e) u) as [E|Hne].
      * subst u. rewrite Ef. cbn [orb map]. rewrite <- app_assoc.
        reflexivity.
      * cbn [orb]. reflexivity.
    + destruct (keqb_spec (from e) u) as [E|Hne]; [|reflexivity].
      subst u. rewrite Ef. reflexivity.
Qed.

(** The adjacency arrays of [detectCycle] hold the targets of the edges
    that start at a node, in the order of the edge list. *)
Lemma cycle_graph_neighbors (nodes : list GraphNode) (edges : list Edge)
    (u : jsstring) :
  neighbors_of (cycle_graph nodes edges) u
  = if set_has (map id nodes) u
    then map to (filter (fun e => keqb (from e) u) edges) else [].
Proof.
  unfold cycle_graph. rewrite cycle_graph_fold.
  change (fold_left (fun graph node => map_set graph (id node) []) nodes [])
    with (fill id (fun _ : GraphNode => @nil jsstring) nodes []).
  rewrite map_has_fill_ids. unfold neighbors_of at 1.
  rewrite (@fill_get_const GraphNode (list jsstring) id (fun _ => [])
             [] nodes [] u) by reflexivity.
  destruct (set_has (map id nodes) u); reflexivity.
Qed.

Lemma cycle_graph_adjacent (nodes : list GraphNode) (edges : list Edge)
    (u v : jsstring) :
  adjacent (cycle_graph nodes edges) u v
  <-> edge_rel (out_edges nodes edges) u v.
Proof.
  unfold adjacent, edge_rel, out_edges. rewrite cycle_graph_neighbors.
  rewrite filter_In. cbn [from].
  destruct (set_has (map id nodes) u) eqn:Eu.
  - rewrite in_map_iff. split.
    + intros (e & <- & He). apply filter_In in He. destruct He as [He Hf].
      apply keqb_true in Hf. subst u. destruct e. auto.
    + intros [He _]. exists (mkEdge u v). split; [reflexivity|].
      apply filter_In. split; [exact He|]. cbn [from]. apply keqb_refl.
  - split; [intros [] | intros [_ H]; discriminate].
Qed.

Section CycleDfsGeneral.
Variable graph : jsmap jsstring (list jsstring).
Variable U : list jsstring.
Hypothesis Htarget : forall u v, adjacent graph u v -> In v U.

Lemma finished_order_prefix (D1 D2 : list jsstring) :
  finished_order graph (D1 ++ D2) -> finished_order graph D1.
Proof.
  intros H A u B E v Hv. apply (H A u (B ++ D2)); [|exact Hv].
  rewrite E, <- app_assoc. reflexivity.
Qed.

Lemma finished_order_snoc (D : list jsstring) (u : jsstring) :
  finished_order graph D ->
  (forall v, adjacent graph u v -> In v D) ->
  finished_order graph (D ++ [u]).
Proof.
  intros HD Hu A w B E v Hv.
  destruct B as [|b B].
  - apply app_inj_tail in E. destruct E as [-> ->]. apply Hu. exact Hv.
  - destruct (@exists_last _ (b :: B)) as (B' & z & EB); [discriminate|].
    rewrite EB in E. change (w :: B' ++ [z]) with ((w :: B') ++ [z]) in E.
    rewrite app_assoc in E. apply app_inj_tail in E. destruct E as [E _].
    apply (HD A w B' E v Hv).
Qed.

Lemma finished_order_add (D : list jsstring) (u : jsstring) :
  finished_order graph D ->
  (forall v, adjacent graph u v -> In v D) ->
  finished_order graph (set_add D u).
Proof.
  intros HD Hu. unfold set_add. destruct (set_has D u); [exact HD|].
  apply finished_order_snoc; assumption.
Qed.

Lemma finished_closed (D : list jsstring) :
  finished_order graph D ->
  forall a b, clos_trans jsstring (adjacent graph) a b -> In a D -> In b D.
Proof.
  intros HD a b Hab. induction Hab as [a b Hab|a m b _ IH1 _ IH2].
  - intros Ha. destruct (in_split _ _ Ha) as (A & B & E).
    rewrite E. apply in_app_iff. left. apply (HD A a B E b Hab).
  - intros Ha. apply IH2, IH1, Ha.
Qed.

(** No node of a finished list lies on a cycle. *)
Lemma finished_acyclic (D : list jsstring) :
  finished_order graph D ->
  forall x, In x D -> ~ clos_trans jsstring (adjacent graph) x x.
Proof.
  induction D as [|u D0 IH] using rev_ind; intros HD x Hx; [destruct Hx|].
  pose proof (finished_order_prefix _ _ HD) as HD0.
  assert (Hin0 : forall y, In y D0 ->
                           ~ clos_trans jsstring (adjacent graph) y y).
  { intros y Hy. apply IH; assumption. }
  destruct (in_dec key_eq_dec x D0) as [Hx0|Hx0]; [apply Hin0; exact Hx0|].
  apply in_app_iff in Hx. destruct Hx as [Hx|[<-|[]]]; [contradiction|].
  intros Hc. apply clos_trans_t1n in Hc.
  inversion Hc as [y Huy|y z Huy Hyz]; subst.
  - apply Hx0. apply (HD D0 u [] eq_refl u Huy).
  - assert (Hy : In y D0) by (apply (HD D0 u [] eq_refl y Huy)).
    apply Hx0. apply (finished_closed D0 HD0 y u); [|exact Hy].
    apply clos_t1n_trans. exact Hyz.
Qed.

(** What one call of [dfs] does, on any graph: it reports a cycle only
    when there is one, and otherwise leaves [visiting] as it was and adds
    the node to [visited], after all its neighbours. *)
Lemma cycle_dfs_general :
  forall fuel nodeId visiting visited,
    (unseen U (visiting ++ visited) < fuel)%nat ->
    In nodeId U -> ~ In nodeId visiting -> ~ In nodeId visited ->
    (forall v, In v visiting ->
               clos_trans jsstring (adjacent graph) v nodeId) ->
    finished_order graph visited ->
    exists b st',
      cycle_dfs fuel graph nodeId (visiting, visited) = Some (b, st')
      /\ (b = true -> exists x, clos_trans jsstring (adjacent graph) x x)
      /\ (b = false ->
          exists visited',
            st' = (visiting, visited')
            /\ incl visited visited' /\ In nodeId visited'
            /\ finished_order graph visited').
Proof.
  induction fuel as [|fuel IH];
    intros nodeId visiting visited Hm HU Hn1 Hn2 Hch Hfin; [lia|].
  cbn [cycle_dfs fst snd]. rewrite (set_add_fresh visiting nodeId Hn1).
  set (visiting1 := visiting ++ [nodeId]).
  assert (Hm1 : forall visited1, incl visited visited1 ->
                  (unseen U (visiting1 ++ visited1) < fuel)%nat).
  { intros visited1 Hi.
    assert (Hlt : (unseen U (visiting1 ++ visited1)
                   < unseen U (visiting ++ visited))%nat).
    { apply (unseen_lt U _ _ nodeId); auto.
      - intros x Hx. unfold visiting1. apply in_app_iff in Hx.
        rewrite !in_app_iff. destruct Hx as [Hx|Hx]; auto.
      - intros Hin. apply in_app_iff in Hin. tauto.
      - unfold visiting1. rewrite !in_app_iff. left. right. left.
        reflexivity. }
    lia. }
  assert (Hloop : forall ns done visited1,
             neighbors_of graph nodeId = done ++ ns ->
             (forall v, In v done -> In v visited1) ->
             incl visited visited1 ->
             finished_order graph visited1 ->
             exists b st',
               (fix loop (ns : list jsstring)
                         (st : jsset jsstring * jsset jsstring)
                  : option (bool * (jsset jsstring * jsset jsstring)) :=
                  match ns with
                  | [] =>
                      Some (false, (set_delete (fst st) nodeId,
                                    set_add (snd st) nodeId))
                  | neighbor :: ns' =>
                      if set_has (fst st) neighbor then Some (true, st)
                      else if negb (set_has (snd st) neighbor) then
                        match cycle_dfs fuel graph neighbor st with
                        | None => None
                        | Some (true, st') => Some (true, st')
                        | Some (false, st') => loop ns' st'
                        end
                      else loop ns' st
                  end) ns (visiting1, visited1)
               = Some (b, st')
               /\ (b = true ->
                   exists x, clos_trans jsstring (adjacent graph) x x)
               /\ (b = false ->
                   exists visited',
                     st' = (visiting, visited')
                     /\ incl visited visited' /\ In nodeId visited'
                     /\ finished_order graph visited')).
  { induction ns as [|n ns IHns]; intros done visited1 Ens Hdone Hv1 Hf1.
    - rewrite app_nil_r in Ens.
      exists false, (visiting, set_add visited1 nodeId). cbn [fst snd].
      unfold visiting1. rewrite set_delete_snoc by exact Hn1.
      split; [reflexivity|]. split; [discriminate|]. intros _.
      exists (set_add visited1 nodeId). split; [reflexivity|].
      split; [|split].
      + intros x Hx. apply set_add_In. left. apply Hv1. exact Hx.
      + apply set_add_In. right. reflexivity.
      + apply finished_order_add; [exact Hf1|].
        intros v Hv. apply Hdone. unfold adjacent in Hv.
        rewrite Ens in Hv. exact Hv.
    - cbn [fst snd].
      assert (Hn : adjacent graph nodeId n).
      { unfold adjacent. rewrite Ens. apply in_app_iff. right. left.
        reflexivity. }
      assert (Ens' : neighbors_of graph nodeId = (done ++ [n]) ++ ns).
      { rewrite Ens, <- app_assoc. reflexivity. }
      destruct (set_has visiting1 n) eqn:Eg.
      { exists true, (visiting1, visited1). split; [reflexivity|].
        split; [|discriminate]. intros _.
        apply set_has_In in Eg. unfold visiting1 in Eg.
        apply in_app_iff in Eg. destruct Eg as [Eg|[<-|[]]].
        - exists n. eapply t_trans; [apply Hch; exact Eg|].
          apply t_step. exact Hn.
        - exists nodeId. apply t_step. exact Hn. }
      apply set_has_false in Eg.
      destruct (set_has visited1 n) eqn:Ev; cbn [negb].
      + apply set_has_In in Ev. apply (IHns (done ++ [n])); auto.
        intros v Hv. apply in_app_iff in Hv.
        destruct Hv as [Hv|[<-|[]]]; auto.
      + apply set_has_false in Ev.
        destruct (IH n visiting1 visited1) as (b & st' & E & Ht & Hf).
        * apply Hm1. exact Hv1.
        * eapply Htarget; eauto.
        * exact Eg.
        * exact Ev.
        * intros v Hv. unfold visiting1 in Hv. apply in_app_iff in Hv.
          destruct Hv as [Hv|[<-|[]]].
          -- eapply t_trans; [apply Hch; exact Hv | apply t_step; exact Hn].
          -- apply t_step. exact Hn.
        * exact Hf1.
        * rewrite E. destruct b.
          -- exists true, st'. split; [reflexivity|].
             split; [exact Ht | discriminate].
          -- destruct (Hf eq_refl) as (visited2 & -> & Hi2 & Hin2 & Hf2).
             apply (IHns (done ++ [n])); auto.
             ++ intros v Hv. apply in_app_iff in Hv.
                destruct Hv as [Hv|[<-|[]]]; auto.
             ++ eapply incl_tran; eauto. }
  apply (Hloop (neighbors_of graph nodeId) [] visited);
    [reflexivity | intros v [] | apply incl_refl | exact Hfin].
Qed.

(** The final loop over the nodes, on any graph. *)
Lemma cycle_scan_general :
  forall ns fuel visited,
    (length U < fuel)%nat ->
    (forall n, In n ns -> In (id n) U) ->
    finished_order graph visited ->
    exists b,
      cycle_scan fuel graph ns ([], visited) = Some b
      /\ (b = true -> exists x, clos_trans jsstring (adjacent graph) x x)
      /\ (b = false ->
          exists visited',
            incl visited visited' /\ finished_order graph visited'
            /\ forall n, In n ns -> In (id n) visited').
Proof.
  induction ns as [|n ns IH]; intros fuel visited Hf HU Hfin.
  - exists false. split; [reflexivity|]. split; [discriminate|]. intros _.
    exists visited. split; [apply incl_refl|]. split; [exact Hfin|].
    intros n [].
  - cbn [cycle_scan snd].
    assert (HU' : forall n', In n' ns -> In (id n') U).
    { intros n' Hn'. apply HU. right. exact Hn'. }
    destruct (set_has visited (id n)) eqn:Ev; cbn [negb].
    + apply set_has_In in Ev.
      destruct (IH fuel visited Hf HU' Hfin) as (b & E & Ht & Hfa).
      exists b. split; [exact E|]. split; [exact Ht|]. intros Hb.
      destruct (Hfa Hb) as (visited' & Hi & Hf' & Hall).
      exists visited'. split; [exact Hi|]. split; [exact Hf'|].
      intros n' [<-|Hn']; [apply Hi; exact Ev | apply Hall; exact Hn'].
    + apply set_has_false in Ev.
      destruct (cycle_dfs_general fuel (id n) [] visited)
        as (b & st' & E & Ht & Hfa).
      * pose proof (unseen_le_length U ([] ++ visited)). lia.
      * apply HU. left. reflexivity.
      * intros [].
      * exact Ev.
      * intros v [].
      * exact Hfin.
      * match goal with
        | |- context [cycle_dfs ?p1 ?p2 ?p3 ?p4] =>
            replace (cycle_dfs p1 p2 p3 p4) with (Some (b, st'))
              by (symmetry; exact E)
        end.
        destruct b.
        -- exists true. split; [reflexivity|]. split; [exact Ht|discriminate].
        -- destruct (Hfa eq_refl) as (visited1 & -> & Hi1 & Hin1 & Hf1).
           destruct (IH fuel visited1 Hf HU' Hf1) as (b & E2 & Ht2 & Hfa2).
           exists b. split; [exact E2|]. split; [exact Ht2|]. intros Hb.
           destruct (Hfa2 Hb) as (visited' & Hi & Hf' & Hall).
           exists visited'. split; [eapply incl_tran; eauto|].
           split; [exact Hf'|].
           intros n' [<-|Hn']; [apply Hi; exact Hin1 | apply Hall; exact Hn'].
Qed.
End CycleDfsGeneral.

(** X12: [detectCycle] always returns, and it decides whether the edges
    that start at a node contain a cycle: the result is true exactly when
    some node reaches itself through one or more such edges (an edge whose
    source is not a node is never entered in the adjacency arrays and is
    ignored). *)
Theorem detectCycle_decides :
  forall (nodes : list GraphNode) (edges : list Edge),
    exists b,
      detectCycle nodes edges = Some b
      /\ (b = true <-> cyclic (out_edges nodes edges))
      /\ (b = false <-> acyclic (out_edges nodes edges)).
Proof.
  intros nodes edges. unfold detectCycle.
  set (graph := cycle_graph nodes edges).
  set (U := map id nodes ++ map to edges).
  assert (Htarget : forall u v, adjacent graph u v -> In v U).
  { intros u v Huv. apply cycle_graph_adjacent in Huv.
    unfold edge_rel, out_edges in Huv. apply filter_In in Huv.
    unfold U. apply in_app_iff. right. apply in_map_iff.
    exists (mkEdge u v). split; [reflexivity | tauto]. }
  assert (Hrel : forall x y,
             clos_trans jsstring (adjacent graph) x y
             <-> clos_trans jsstring (edge_rel (out_edges nodes edges)) x y).
  { intros x y. split; apply clos_trans_incl; intros a b Hab;
      apply cycle_graph_adjacent; exact Hab. }
  destruct (cycle_scan_general graph U Htarget nodes
              (S (length nodes + length edges)) [])
    as (b & E & Ht & Hf).
  { unfold U. rewrite length_app, !length_map. lia. }
  { intros n Hn. unfold U. apply in_app_iff. left. apply in_map. exact Hn. }
  { intros D1 u D2 E. destruct D1; discriminate. }
  exists b. split; [exact E|].
  assert (Hcyc : b = true -> cyclic (out_edges nodes edges)).
  { intros Hb. destruct (Ht Hb) as (x & Hx). exists x. apply Hrel. exact Hx. }
  assert (Hacy : b = false -> acyclic (out_edges nodes edges)).
  { intros Hb x Hx. destruct (Hf Hb) as (D & _ & HD & Hall).
    apply (finished_acyclic graph D HD x); [|apply Hrel; exact Hx].
    apply clos_trans_t1n in Hx.
    assert (Hsrc : exists y, edge_rel (out_edges nodes edges) x y).
    { inversion Hx; subst; eauto. }
    destruct Hsrc as (y & Hy). unfold edge_rel, out_edges in Hy.
    apply filter_In in Hy. destruct Hy as [_ Hy]. cbn [from] in Hy.
    apply set_has_In, in_map_iff in Hy. destruct Hy as (n & <- & Hn).
    apply Hall. exact Hn. }
  split; split; auto.
  - intros (x & Hx). destruct b; [reflexivity|].
    exfalso. exact (Hacy eq_refl x Hx).
  - intros Hac. destruct b; [|reflexivity].
    exfalso. destruct (Hcyc eq_refl) as (x & Hx). exact (Hac x Hx).
Qed.

(* ================================================================= *)
(** ** Topological sort on arbitrary graphs *)

Lemma counted_edge_rel (nodes : list GraphNode) (edges : list Edge)
    (a b : jsstring) :
  edge_rel (counted_edges nodes edges) a b
  <-> exists e, In e edges /\ valid_edge (map id nodes) e = true
                /\ from e = a /\ to e = b.
Proof.
  unfold edge_rel, counted_edges. rewrite filter_In. split.
  - intros [He Hv]. exists (mkEdge a b). auto.
  - intros (e & He & Hv & <- & <-). destruct e. auto.
Qed.

(** In the output of Kahn's loop the source of a counted edge stands
    before its target, whenever the target is there. *)
Lemma kahn_edge_positions (K : list jsstring) (edges : list Edge)
    (r : list jsstring) (e : Edge) :
  kahn_sorted K edges r ->
  In e edges -> valid_edge K e = true -> In (to e) r ->
  exists u v s2, r = u ++ from e :: v ++ to e :: s2.
Proof.
  intros (_ & _ & Hord) He Hv Hin.
  destruct (in_split _ _ Hin) as (s1 & s2 & Es).
  destruct (in_split _ _ (Hord e s1 s2 He Hv Es)) as (u & v & Eu).
  exists u, v, s2. rewrite Es, Eu, <- app_assoc. reflexivity.
Qed.

Lemma split_positions (r u v s2 : list jsstring) (a b : jsstring) :
  NoDup r -> r = u ++ a :: v ++ b :: s2 ->
  index_of a r = Some (length u)
  /\ index_of b r = Some (length u + S (length v))%nat.
Proof.
  intros Hnd E. subst r. split.
  - apply index_of_split. apply NoDup_remove_2 in Hnd.
    intros Hin. apply Hnd. apply in_app_iff. auto.
  - replace (u ++ a :: v ++ b :: s2) with ((u ++ a :: v) ++ b :: s2)
      by (rewrite <- app_assoc; reflexivity).
    replace (u ++ a :: v ++ b :: s2) with ((u ++ a :: v) ++ b :: s2) in Hnd
      by (rewrite <- app_assoc; reflexivity).
    rewrite index_of_split.
    + rewrite length_app. reflexivity.
    + apply NoDup_remove_2 in Hnd. intros Hin. apply Hnd.
      apply in_app_iff. auto.
Qed.

Lemma index_of_Some_In (a : jsstring) (l : list jsstring) (i : nat) :
  index_of a l = Some i -> In a l.
Proof.
  revert i. induction l as [|y l IH]; intros i; [discriminate|].
  cbn [index_of]. destruct (keqb_spec a y) as [->|]; [left; reflexivity|].
  destruct (index_of a l) as [j|]; [|discriminate].
  intros _. right. apply (IH j). reflexivity.
Qed.

(** A node that a cycle of counted edges reaches is not in the output. *)
Lemma kahn_sorted_no_cycle (nodes : list GraphNode) (edges : list Edge)
    (r : list jsstring) :
  kahn_sorted (map id nodes) edges r ->
  forall x k,
    clos_trans jsstring (edge_rel (counted_edges nodes edges)) x x ->
    clos_refl_trans jsstring (edge_rel (counted_edges nodes edges)) x k ->
    ~ In k r.
Proof.
  intros Hr x k Hxx Hxk Hk.
  pose proof Hr as (Hnd & Hmem & _).
  assert (Hback : forall a b, edge_rel (counted_edges nodes edges) a b ->
                              In b r ->
                              exists i j, index_of a r = Some i
                                          /\ index_of b r = Some j
                                          /\ (i < j)%nat).
  { intros a b Hab Hb. apply counted_edge_rel in Hab.
    destruct Hab as (e & He & Hv & <- & <-).
    destruct (kahn_edge_positions _ _ _ e Hr He Hv Hb) as (u & v & s2 & E).
    destruct (split_positions r u v s2 _ _ Hnd E) as [E1 E2].
    eexists _, _. split; [exact E1|]. split; [exact E2|]. lia. }
  assert (Hin : forall a i, index_of a r = Some i -> In a r).
  { intros a i. apply index_of_Some_In. }
  assert (Hx : In x r).
  { apply clos_rt_rtn1 in Hxk. induction Hxk as [|y z Hyz _ IH]; [exact Hk|].
    apply IH. destruct (Hback y z Hyz Hk) as (i & j & Ei & _).
    eapply Hin; eauto. }
  assert (Hlt : forall a b,
             clos_trans jsstring (edge_rel (counted_edges nodes edges)) a b ->
             In b r ->
             exists i j, index_of a r = Some i /\ index_of b r = Some j
                         /\ (i < j)%nat).
  { intros a b Hab. apply clos_trans_tn1 in Hab.
    induction Hab as [b Hab|b c Hbc _ IH]; intros Hb.
    - apply Hback; assumption.
    - destruct (Hback b c Hbc Hb) as (i & j & Ei & Ej & Hij).
      destruct (IH (Hin _ _ Ei)) as (i' & j' & Ei' & Ej' & Hij').
      exists i', j. split; [exact Ei'|]. split; [exact Ej|].
      rewrite Ei in Ej'. inversion Ej'. lia. }
  destruct (Hlt x x Hxx Hx) as (i & j & Ei & Ej & Hij).
  rewrite Ei in Ej. inversion Ej. lia.
Qed.

(** A node that no cycle of counted edges reaches is in the output. *)
Lemma kahn_sorted_all_others (nodes : list GraphNode) (edges : list Edge)
    (r : list jsstring) :
  kahn_sorted (map id nodes) edges r ->
  forall k,
    In k (map id nodes) ->
    (forall x,
        clos_trans jsstring (edge_rel (counted_edges nodes edges)) x x ->
        ~ clos_refl_trans jsstring (edge_rel (counted_edges nodes edges)) x k) ->
    In k r.
Proof.
  intros (Hnd & Hmem & _) k Hk Hfree.
  destruct (in_dec key_eq_dec k r) as [Hin|Hnin]; [exact Hin|]. exfalso.
  set (E := edge_rel (counted_edges nodes edges)).
  set (R := fun a b => E a b /\ clos_refl_trans jsstring E b k).
  assert (Hac : forall z, ~ clos_trans jsstring R z z).
  { intros z Hz.
    assert (Hproj : clos_trans jsstring E z z).
    { apply (clos_trans_incl R E); [intros a b [Hab _]; exact Hab | exact Hz]. }
    apply clos_trans_tn1 in Hz.
    assert (Hzk : clos_refl_trans jsstring E z k).
    { inversion Hz; subst;
        match goal with HR : R _ z |- _ => exact (proj2 HR) end. }
    exact (Hfree z Hproj Hzk). }
  apply (descent_contradiction R Hac (map id nodes)
           (fun x => In x (map id nodes) /\ ~ In x r
                     /\ clos_refl_trans jsstring E x k)) with (x := k).
  - intros x (HxK & Hxr & Hxk). split; [exact HxK|].
    assert (Hrem : remaining (map id nodes) edges r x <> 0%nat).
    { intros Hz. apply Hxr. apply Hmem. auto. }
    destruct (remaining_pos _ _ _ _ Hrem) as (e & He & Hv & Ht & Hf).
    assert (Hedge : E (from e) x).
    { apply counted_edge_rel. exists e. auto. }
    exists (from e). split; [apply t_step; split; assumption|].
    split; [|split].
    + unfold valid_edge in Hv. apply andb_true_iff in Hv.
      apply set_has_In. tauto.
    + exact Hf.
    + eapply rt_trans; [apply rt_step; exact Hedge | exact Hxk].
  - split; [exact Hk|]. split; [exact Hnin | apply rt_refl].
Qed.

(** X13: what [topologicalSort] returns on any node list and any edge
    list.  It always returns; the result has no repetition and holds
    exactly the node ids that no cycle of counted edges reaches (counted:
    both end points are node ids), so the nodes on a cycle and everything
    downstream of one are left out without notice; and for every counted
    edge whose target is in the result, the source is there too, at a
    strictly higher index. *)
Theorem topologicalSort_general :
  forall (nodes : list GraphNode) (edges : list Edge),
    exists sorted,
      topologicalSort nodes edges = Some sorted
      /\ NoDup sorted
      /\ (forall k,
            In k sorted <->
            In k (map id nodes)
            /\ forall x,
                 clos_trans jsstring
                   (edge_rel (counted_edges nodes edges)) x x ->
                 ~ clos_refl_trans jsstring
                     (edge_rel (counted_edges nodes edges)) x k)
      /\ (forall e, In e (counted_edges nodes edges) -> In (to e) sorted ->
            exists i j,
              index_of (from e) sorted = Some i
              /\ index_of (to e) sorted = Some j
              /\ (j < i)%nat).
Proof.
  intros nodes edges.
  destruct (topologicalSort_sound nodes edges) as (r & Er & Hr).
  pose proof Hr as (Hnd & Hmem & _).
  exists (rev r). split; [exact Er|].
  split; [apply NoDup_rev; exact Hnd|]. split.
  - intros k. rewrite <- in_rev. split.
    + intros Hk. split; [apply Hmem in Hk; tauto|].
      intros x Hxx Hxk. exact (kahn_sorted_no_cycle nodes edges r Hr x k Hxx Hxk Hk).
    + intros [Hk Hfree]. apply (kahn_sorted_all_others nodes edges r Hr); assumption.
  - intros e He Hin. rewrite <- in_rev in Hin.
    unfold counted_edges in He. apply filter_In in He. destruct He as [He Hv].
    destruct (kahn_edge_positions _ _ _ e Hr He Hv Hin) as (u & v & s2 & E).
    assert (Erev : rev r = rev s2 ++ to e :: rev v ++ from e :: rev u).
    { rewrite E. rewrite !rev_app_distr. cbn [rev].
      rewrite !rev_app_distr. cbn [rev app].
      rewrite <- !app_assoc. reflexivity. }
    assert (Hndr : NoDup (rev r)) by (apply NoDup_rev; exact Hnd).
    destruct (split_positions (rev r) (rev s2) (rev v) (rev u) _ _ Hndr Erev)
      as [E1 E2].
    eexists _, _. split; [exact E2|]. split; [exact E1|]. lia.
Qed.

Lemma topo_edges_counted (K : list jsstring) (edges : list Edge) :
  forall (g : jsmap jsstring (list jsstring)) (d : jsmap jsstring jsnum),
    (forall k, map_has g k = set_has K k) ->
    topo_edges edges (g, d) = topo_edges (filter (valid_edge K) edges) (g, d).
Proof.
  unfold topo_edges.
  induction edges as [|e edges IH]; intros g d Hg; [reflexivity|].
  cbn [fold_left filter].
  destruct (valid_edge K e) eqn:Ev.
  - cbn [fold_left]. rewrite (topo_edge_valid K g d e Hg Ev).
    apply IH. intros k. rewrite map_has_set, Hg.
    destruct (keqb_spec k (from e)) as [->|]; [|reflexivity].
    unfold valid_edge in Ev. apply andb_true_iff in Ev.
    destruct Ev as [Ev _]. rewrite Ev. reflexivity.
  - rewrite (topo_edge_invalid K g d e Hg Ev). apply IH. exact Hg.
Qed.

(** X14: [topologicalSort] ignores every edge with an end point that is
    not a node id: the result is the result on the counted edges alone. *)
Theorem topologicalSort_ignores_foreign_edges :
  forall (nodes : list GraphNode) (edges : list Edge),
    topologicalSort nodes edges
    = topologicalSort nodes (counted_edges nodes edges).
Proof.
  intros nodes edges. unfold topologicalSort, counted_edges.
  rewrite topo_init_split.
  rewrite (topo_edges_counted (map id nodes) edges); [reflexivity|].
  intros k. apply map_has_fill_ids.
Qed.

(* ================================================================= *)
(** ** The layout on arbitrary graphs *)


Lemma map_values_get {V : Type} (m : jsmap jsstring V) (v : V) :
  NoDup (map_keys m) -> In v (map_values m) ->
  exists k, map_get m k = Some v.
Proof.
  intros Hnd Hin. unfold map_values in Hin. apply in_map_iff in Hin.
  destruct Hin as ([k v'] & <- & Hkv). exists k.
  apply map_get_NoDup_In; assumption.
Qed.

(** The node table at the end of [calculateLayout]: the table of the
    input nodes (one entry per id, holding the last node with that id),
    where every id of the topological order got the coordinates of a node
    that is alone in its layer. *)
Lemma layout_node_table (nodes : list GraphNode) (edges : list Edge)
    (options : LayoutOptions) :
  nodes <> [] ->
  exists sorted nm',
    topologicalSort nodes edges = Some sorted
    /\ NoDup sorted
    /\ calculateLayout nodes edges options
       = Some (mkLayout (map_values nm')
                 (map (layout_edge (or_default (o_nodeHeight options) 60) nm')
                      edges))
    /\ map_keys nm' = map_keys (fill id (fun n => mkLaid n None None) nodes [])
    /\ forall k,
         map_get nm' k =
         match index_of k sorted with
         | Some i =>
             option_map
               (fun ln => placed (or_default (o_nodeWidth options) 120)
                                 (or_default (o_nodeHeight options) 60)
                                 (or_default (o_horizontalGap options) 150)
                                 (or_default (o_verticalGap options) 100)
                                 (l_node ln)
                                 (Z.of_nat (length sorted) - Z.of_nat i - 1))
               (map_get (fill id (fun n => mkLaid n None None) nodes []) k)
         | None => map_get (fill id (fun n => mkLaid n None None) nodes []) k
         end.
Proof.
  intros Hne.
  destruct (topologicalSort_sound nodes edges) as (r & Es & Hr).
  set (sorted := rev r).
  assert (Hnd : NoDup sorted).
  { apply NoDup_rev. destruct Hr as [Hr _]. exact Hr. }
  set (len := Z.of_nat (length sorted)).
  set (w := or_default (o_nodeWidth options) 120).
  set (h := or_default (o_nodeHeight options) 60).
  set (hg := or_default (o_horizontalGap options) 150).
  set (vg := or_default (o_verticalGap options) 100).
  assert (Hlayers : layout_layers sorted = layer_list len 0 sorted).
  { apply layout_layers_list. exact Hnd. }
  assert (Hget : forall k,
             map_get (layout_layers sorted) k =
             option_map (fun j => (len - Z.of_nat j - 1)%Z) (index_of k sorted)).
  { intros k. rewrite Hlayers, layer_list_get.
    destruct (index_of k sorted); reflexivity. }
  assert (Hcount : forall k L, map_get (layout_layers sorted) k = Some L ->
             map_get (layout_layerCounts (layout_layers sorted)) L = Some 1%Z).
  { intros k L E. rewrite Hlayers in *. apply layerCounts_one.
    - apply layer_list_NoDup.
    - apply map_get_In in E. apply in_map_iff. exists (k, L). auto. }
  set (nm0 := fill id (fun n => mkLaid n None None) nodes []).
  destruct (layout_place_fold w h hg vg
              (layout_layerCounts (layout_layers sorted))
              (layout_layers sorted) [] nm0)
    as (lp' & nm' & Ef & Hkeys & Hval).
  { rewrite Hlayers, layer_list_keys. exact Hnd. }
  { rewrite Hlayers. apply layer_list_NoDup. }
  { intros [k L] Hin. apply (Hcount k). apply map_get_NoDup_In; auto.
    unfold map_keys. rewrite Hlayers, layer_list_keys. exact Hnd. }
  exists sorted, nm'. split; [exact Es|]. split; [exact Hnd|].
  split; [|split; [exact Hkeys|]].
  - unfold calculateLayout. destruct nodes as [|n0 nodes']; [congruence|].
    rewrite Es. fold w h hg vg. fold sorted.
    change (fold_left (fun m n => map_set m (id n) (mkLaid n None None))
                      (n0 :: nodes') []) with nm0.
    match goal with
    | |- context [fold_left ?f ?l ?a] =>
        replace (fold_left f l a) with (lp', nm') by (symmetry; exact Ef)
    end.
    reflexivity.
  - intros k. rewrite Hval, Hget.
    destruct (index_of k sorted); reflexivity.
Qed.



(** X16: the edges that [calculateLayout] returns, on any input with at
    least one node: the input edges, in their order, each one with a
    curve exactly when both of its end points are node ids (an edge to or
    from an unknown id is passed on as it came). *)
Theorem layout_edges_general :
  forall (nodes : list GraphNode) (edges : list Edge)
         (options : LayoutOptions),
    nodes <> [] ->
    exists layout,
      calculateLayout nodes edges options = Some layout
      /\ map l_edge (lay_edges layout) = edges
      /\ forall le, In le (lay_edges layout) ->
           (l_path le = None <->
            ~ (In (from (l_edge le)) (map id nodes)
               /\ In (to (l_edge le)) (map id nodes))).
Proof.
  intros nodes edges options Hne.
  destruct (layout_node_table nodes edges options Hne)
    as (sorted & nm' & Es & Hnd & El & Hkeys & Hval).
  assert (Hhas : forall k, map_get nm' k = None <-> ~ In k (map id nodes)).
  { intros k.
    assert (Hk : In k (map_keys nm') <-> In k (map id nodes)).
    { rewrite Hkeys, fill_keys_In. unfold map_keys at 1. cbn [map In]. tauto. }
    rewrite <- Hk. rewrite <- map_has_In. unfold map_has.
    destruct (map_get nm' k); split; intros H; congruence. }
  eexists. split; [exact El|]. cbn [lay_edges]. split.
  - rewrite map_map. rewrite <- (map_id edges) at 2.
    apply map_ext. intros e. unfold layout_edge.
    destruct (map_get nm' (from e)), (map_get nm' (to e)); reflexivity.
  - intros le Hle. apply in_map_iff in Hle. destruct Hle as (e & <- & He).
    unfold layout_edge.
    destruct (map_get nm' (from e)) as [fn|] eqn:Ef;
      destruct (map_get nm' (to e)) as [tn|] eqn:Et; cbn [l_path l_edge].
    + split; [discriminate|]. intros Hno. exfalso. apply Hno. split.
      * destruct (in_dec key_eq_dec (from e) (map id nodes)) as [H|H]; auto.
        apply Hhas in H. congruence.
      * destruct (in_dec key_eq_dec (to e) (map id nodes)) as [H|H]; auto.
        apply Hhas in H. congruence.
    + split; [|reflexivity]. intros _ [_ H]. apply (proj1 (Hhas (to e))); auto.
    + split; [|reflexivity]. intros _ [H _]. apply (proj1 (Hhas (from e))); auto.
    + split; [|reflexivity]. intros _ [H _]. apply (proj1 (Hhas (from e))); auto.
Qed.

Lemma layout_edges_general_witness :
  exists layout,
    calculateLayout [node_of "A"; node_of "B"] [edge_of "A" "C"]
                    defaultOptions = Some layout
    /\ map l_edge (lay_edges layout) = [edge_of "A" "C"].
Proof.
  destruct (layout_edges_general [node_of "A"; node_of "B"]
              [edge_of "A" "C"] defaultOptions)
    as (layout & H1 & H2 & _).
  - discriminate.
  - exists layout. auto.
Defined.



(* ================================================================= *)
(** ** Shortest paths: both directions, no repeated node *)

Lemma linked_sym (edges : list Edge) (a b : jsstring) :
  linked edges a b -> linked edges b a.
Proof. intros (e & He & H). exists e. split; [exact He | tauto]. Qed.

Lemma is_path_rev (edges : list Edge) (p : list jsstring) (a b : jsstring) :
  is_path edges p a b -> is_path edges (rev p) b a.
Proof.
  intros Hp. induction Hp as [a|a b0 b p Hab Hp IH].
  - apply path_one.
  - cbn [rev]. eapply is_path_snoc; [exact IH|]. apply linked_sym. exact Hab.
Qed.

(** A path that passes through [a] has a final part that starts at [a]. *)
Lemma is_path_suffix (edges : list Edge) (p : list jsstring) (x c a : jsstring) :
  is_path edges p x c -> In a p ->
  exists s, is_path edges s a c /\ (length s <= length p)%nat.
Proof.
  intros Hp. induction Hp as [x|x b c p Hxb Hp IH]; intros Ha.
  - destruct Ha as [<-|[]]. exists [x]. split; [apply path_one | lia].
  - destruct (key_eq_dec a x) as [->|Hne].
    + exists (x :: p). split; [eapply path_cons; eauto | lia].
    + destruct Ha as [E|Ha]; [congruence|].
      destruct (IH Ha) as (s & Hs & Hl). exists s. split; [exact Hs|].
      cbn [length]. lia.
Qed.

(** A path with a repeated node can be shortened. *)
Lemma is_path_shorten (edges : list Edge) (p : list jsstring) (a c : jsstring) :
  is_path edges p a c ->
  NoDup p \/ exists p', is_path edges p' a c /\ (length p' < length p)%nat.
Proof.
  intros Hp. induction Hp as [a|a b c p Hab Hp IH].
  - left. constructor; [intros []|constructor].
  - destruct IH as [Hnd|(p' & Hp' & Hl)].
    + destruct (in_dec key_eq_dec a p) as [Hin|Hnin].
      * right. destruct (is_path_suffix edges p b c a Hp Hin) as (s & Hs & Hl).
        exists s. split; [exact Hs|]. cbn [length]. lia.
      * left. constructor; assumption.
    + right. exists (a :: p'). split; [eapply path_cons; eauto|].
      cbn [length]. lia.
Qed.

(** X18: the search is undirected in its answers too.  From [a] to [b]
    and from [b] to [a], [findShortestPath] either finds no path both
    times or finds two paths of the same length; and a path it returns
    never visits a node twice. *)
Theorem findShortestPath_symmetric :
  forall (a b : jsstring) (edges : list Edge),
    exists res res',
      findShortestPath a b edges = Some res
      /\ findShortestPath b a edges = Some res'
      /\ match res, res' with
         | Some p, Some q => length p = length q /\ NoDup p /\ NoDup q
         | None, None => True
         | _, _ => False
         end.
Proof.
  intros a b edges.
  destruct (findShortestPath_correct a b edges) as (res & E & Hr).
  destruct (findShortestPath_correct b a edges) as (res' & E' & Hr').
  exists res, res'. split; [exact E|]. split; [exact E'|].
  unfold bfs_result in Hr, Hr'.
  assert (Hsimple : forall x y q,
             is_path edges q x y ->
             (forall p', is_path edges p' x y -> (length q <= length p')%nat) ->
             NoDup q).
  { intros x y q Hq Hmin. destruct (is_path_shorten edges q x y Hq)
      as [Hnd|(p' & Hp' & Hl)]; [exact Hnd|].
    specialize (Hmin p' Hp'). lia. }
  destruct res as [p|], res' as [q|].
  - destruct Hr as [Hp Hpmin], Hr' as [Hq Hqmin].
    split; [|split; eauto].
    pose proof (Hpmin (rev q) (is_path_rev edges q b a Hq)) as H1.
    pose proof (Hqmin (rev p) (is_path_rev edges p a b Hp)) as H2.
    rewrite length_rev in H1, H2. lia.
  - destruct Hr as [Hp _]. apply (Hr' (rev p)). apply is_path_rev. exact Hp.
  - destruct Hr' as [Hq _]. apply (Hr (rev q)). apply is_path_rev. exact Hq.
  - exact I.
Qed.

Lemma topo_loop_no_neighbors (g : jsmap jsstring (list jsstring)) :
  (forall k, neighbors_of g k = []) ->
  forall (q : list jsstring) (fuel : nat) (d : jsmap jsstring jsnum)
         (s : list jsstring),
    (length q <= fuel)%nat -> topo_loop fuel g d q s = Some (s ++ q).
Proof.
  intros Hg. induction q as [|n q IH]; intros fuel d s Hl.
  - destruct fuel; cbn [topo_loop]; rewrite app_nil_r; reflexivity.
  - destruct fuel as [|fuel]; [cbn [length] in Hl; lia|].
    cbn [topo_loop]. rewrite Hg. cbn [fold_left].
    rewrite IH by (cbn [length] in Hl; lia).
    rewrite <- app_assoc. reflexivity.
Qed.

(** X19: without counted edges (no edge at all, or only edges with an
    end point that is not a node id) [topologicalSort] returns the ids of
    the nodes in the reverse of their order in the node list. *)
Theorem topologicalSort_no_edges :
  forall (nodes : list GraphNode) (edges : list Edge),
    NoDup (map id nodes) ->
    counted_edges nodes edges = [] ->
    topologicalSort nodes edges = Some (rev (map id nodes)).
Proof.
  intros nodes edges Hnd Hce. unfold topologicalSort.
  rewrite topo_init_split.
  rewrite (topo_edges_counted (map id nodes) edges)
    by (intros k; apply map_has_fill_ids).
  unfold counted_edges in Hce. rewrite Hce. cbn [topo_edges fold_left].
  rewrite topo_loop_no_neighbors.
  - cbn [app option_map]. f_equal. f_equal.
    rewrite (fill_fresh id (fun _ => Num 0) nodes []) by exact Hnd.
    cbn [app]. unfold topo_queue. clear.
    induction nodes as [|n nodes IH]; [reflexivity|].
    cbn [map filter snd is_zero Z.eqb fst]. rewrite IH. reflexivity.
  - intros k. unfold neighbors_of.
    rewrite (@fill_get_const GraphNode (list jsstring) id (fun _ => [])
               [] nodes [] k) by reflexivity.
    destruct (set_has (map id nodes) k); reflexivity.
  - rewrite (fill_fresh id (fun _ => Num 0) nodes []) by exact Hnd.
    cbn [app]. unfold topo_queue.
    rewrite length_map.
    etransitivity; [apply filter_length_le|]. rewrite length_map. lia.
Qed.

Lemma topologicalSort_no_edges_witness :
  topologicalSort [node_of "A"; node_of "B"] [edge_of "A" "C"]
  = Some [str "B"; str "A"].
Proof.
  apply (topologicalSort_no_edges [node_of "A"; node_of "B"]
           [edge_of "A" "C"]).
  - exact chain_ids_NoDup.
  - reflexivity.
Defined.

(* ================================================================= *)
(** ** Graph metrics *)

Lemma metrics_degrees_split (nodes : list GraphNode) (edges : list Edge) :
  metrics_degrees nodes edges
  = (fold_left (fun m e => bump m (to e)) edges
               (fill id (fun _ => O) nodes []),
     fold_left (fun m e => bump m (from e)) edges
               (fill id (fun _ => O) nodes [])).
Proof.
  unfold metrics_degrees, fill.
  assert (H1 : forall (a b : jsmap jsstring nat),
             fold_left (fun '(inDegree, outDegree) node =>
                          (map_set inDegree (id node) O,
                           map_set outDegree (id node) O)) nodes (a, b)
             = (fold_left (fun m n => map_set m (id n) O) nodes a,
                fold_left (fun m n => map_set m (id n) O) nodes b)).
  { induction nodes as [|n nodes IH]; intros a b; cbn [fold_left];
      [reflexivity | apply IH]. }
  rewrite H1.
  generalize (fold_left (fun m n => map_set m (id n) O) nodes
                        (@nil (jsstring * nat))) as a.
  intros a. generalize a at 1 3. generalize a as b.
  induction edges as [|e edges IH]; intros b c; cbn [fold_left];
    [reflexivity | apply IH].
Qed.

Lemma bump_fold_get (key : Edge -> jsstring) (es : list Edge) :
  forall (m : jsmap jsstring nat) (k : jsstring),
    map_get (fold_left (fun m e => bump m (key e)) es m) k
    = match length (filter (fun e => keqb (key e) k) es) with
      | O => map_get m k
      | S c => Some (S c + match map_get m k with
                           | Some n => n
                           | None => O
                           end)%nat
      end.
Proof.
  induction es as [|e es IH]; intros m k; cbn [fold_left filter];
    [reflexivity|].
  rewrite IH. unfold bump at 1 2. rewrite map_get_set.
  rewrite (keqb_sym k (key e)).
  destruct (keqb_spec (key e) k) as [E|Hne]; cbn [length].
  - subst k.
    destruct (length (filter (fun e0 => keqb (key e0) (key e)) es));
      f_equal; lia.
  - reflexivity.
Qed.

Lemma count_zero_existsb (key : Edge -> jsstring) (es : list Edge)
    (k : jsstring) :
  length (filter (fun e => keqb (key e) k) es) = O
  <-> existsb (fun e => keqb (key e) k) es = false.
Proof.
  induction es as [|e es IH]; cbn [filter existsb length]; [tauto|].
  destruct (keqb (key e) k); cbn [length orb]; [|exact IH].
  split; discriminate.
Qed.

Lemma degree_is_zero_spec (key : Edge -> jsstring) (nodes : list GraphNode)
    (edges : list Edge) (n : GraphNode) :
  In n nodes ->
  degree_is_zero (fold_left (fun m e => bump m (key e)) edges
                            (fill id (fun _ => O) nodes [])) n
  = negb (existsb (fun e => keqb (key e) (id n)) edges).
Proof.
  intros Hn. unfold degree_is_zero. rewrite bump_fold_get.
  rewrite (@fill_get_const GraphNode nat id (fun _ => O) O nodes [] (id n))
    by reflexivity.
  assert (Hs : set_has (map id nodes) (id n) = true).
  { apply set_has_In, in_map. exact Hn. }
  rewrite Hs.
  destruct (length (filter (fun e => keqb (key e) (id n)) edges)) eqn:El.
  - apply count_zero_existsb in El. rewrite El. reflexivity.
  - destruct (existsb (fun e => keqb (key e) (id n)) edges) eqn:Ee;
      [reflexivity|].
    apply count_zero_existsb in Ee. congruence.
Qed.

(** The roots and the leaves that [calculateGraphMetrics] selects. *)
Lemma metrics_roots_leaves (nodes : list GraphNode) (edges : list Edge) :
  filter (degree_is_zero (fst (metrics_degrees nodes edges))) nodes
  = filter (no_edge_to edges) nodes
  /\ filter (degree_is_zero (snd (metrics_degrees nodes edges))) nodes
     = filter (no_edge_from edges) nodes.
Proof.
  rewrite metrics_degrees_split. cbn [fst snd].
  split; apply filter_ext_in; intros n Hn.
  - apply (degree_is_zero_spec to); exact Hn.
  - apply (degree_is_zero_spec from); exact Hn.
Qed.

Lemma clos_trans_flip (R : jsstring -> jsstring -> Prop) (a b : jsstring) :
  clos_trans jsstring (fun x y => R y x) a b -> clos_trans jsstring R b a.
Proof.
  intros H. induction H as [a b H|a m b _ IH1 _ IH2].
  - apply t_step. exact H.
  - eapply t_trans; eauto.
Qed.

(** In a finite acyclic relation over [U], some member of a non-empty [U]
    has no predecessor. *)
Lemma acyclic_has_source (R : jsstring -> jsstring -> Prop)
    (U : list jsstring) (has_pred : jsstring -> bool) :
  (forall z, ~ clos_trans jsstring R z z) ->
  (forall x, In x U -> has_pred x = true -> exists y, R y x /\ In y U) ->
  U <> [] ->
  exists x, In x U /\ has_pred x = false.
Proof.
  intros Hac Hpred Hne.
  destruct (filter (fun x => negb (has_pred x)) U) as [|x l] eqn:Ef.
  - exfalso. destruct U as [|u U']; [congruence|].
    apply (descent_contradiction R Hac (u :: U') (fun x => In x (u :: U')))
      with (x := u); [|left; reflexivity].
    intros x Hx. split; [exact Hx|].
    assert (Hp : has_pred x = true).
    { destruct (has_pred x) eqn:E; [reflexivity|]. exfalso.
      assert (Hin : In x (filter (fun x => negb (has_pred x)) (u :: U'))).
      { apply filter_In. rewrite E. auto. }
      rewrite Ef in Hin. destruct Hin. }
    destruct (Hpred x Hx Hp) as (y & Hy & HyU).
    exists y. split; [apply t_step; exact Hy | exact HyU].
  - assert (Hin : In x (filter (fun x => negb (has_pred x)) U)).
    { rewrite Ef. left. reflexivity. }
    apply filter_In in Hin. destruct Hin as [Hx Hb].
    exists x. split; [exact Hx|]. apply negb_true_iff. exact Hb.
Qed.

Lemma existsb_edge (key : Edge -> jsstring) (edges : list Edge) (k : jsstring) :
  existsb (fun e => keqb (key e) k) edges = true ->
  exists e, In e edges /\ key e = k.
Proof.
  intros H. apply existsb_exists in H. destruct H as (e & He & Hk).
  exists e. split; [exact He | apply keqb_true; exact Hk].
Qed.

(** X20: the counts of [calculateGraphMetrics].  Whenever it returns, the
    node and edge counts are the lengths of the two lists, the roots are
    the nodes that no edge points to and the leaves the nodes that no edge
    starts from (whatever the other end of the edge is), and the two
    average degrees are the same number.  For a non-empty node list and an
    acyclic edge list over the nodes there is at least one root and at
    least one leaf. *)
Theorem metrics_counts :
  forall (fuel : nat) (nodes : list GraphNode) (edges : list Edge)
         (m : GraphMetrics),
    calculateGraphMetrics fuel nodes edges = Some m ->
    nodeCount m = length nodes
    /\ edgeCount m = length edges
    /\ rootCount m = length (filter (no_edge_to edges) nodes)
    /\ leafCount m = length (filter (no_edge_from edges) nodes)
    /\ avgInDegree m = avgOutDegree m
    /\ (nodes <> [] -> edges_over nodes edges -> acyclic edges ->
        (1 <= rootCount m)%nat /\ (1 <= leafCount m)%nat).
Proof.
  intros fuel nodes edges m E. unfold calculateGraphMetrics in E.
  destruct (metrics_roots_leaves nodes edges) as [Hroots Hleaves].
  destruct (metrics_degrees nodes edges) as [inD outD] eqn:Ed.
  cbn [fst snd] in Hroots, Hleaves. rewrite Hroots, Hleaves in E.
  destruct (forEach_opt _ (filter (no_edge_to edges) nodes) O) as [md|];
    [|discriminate].
  inversion E; subst m. clear E.
  cbn [nodeCount edgeCount rootCount leafCount avgInDegree avgOutDegree].
  repeat (split; [reflexivity|]).
  intros Hne Hover Hac.
  assert (Hids : map id nodes <> []).
  { destruct nodes; [congruence | discriminate]. }
  split.
  - destruct (acyclic_has_source (edge_rel edges) (map id nodes)
                (fun k => existsb (fun e => keqb (to e) k) edges))
      as (x & Hx & Hb); auto.
    + intros x Hx Hp. destruct (existsb_edge to edges x Hp) as (e & He & <-).
      exists (from e). split; [destruct e; exact He|].
      apply (Hover e He).
    + apply in_map_iff in Hx. destruct Hx as (n & <- & Hn).
      assert (Hin : In n (filter (no_edge_to edges) nodes)).
      { apply filter_In. split; [exact Hn|]. unfold no_edge_to.
        rewrite Hb. reflexivity. }
      destruct (filter (no_edge_to edges) nodes); [destruct Hin|].
      cbn [length]. lia.
  - destruct (acyclic_has_source (fun a b => edge_rel edges b a) (map id nodes)
                (fun k => existsb (fun e => keqb (from e) k) edges))
      as (x & Hx & Hb); auto.
    + intros z Hz. apply clos_trans_flip in Hz. exact (Hac z Hz).
    + intros x Hx Hp. destruct (existsb_edge from edges x Hp) as (e & He & <-).
      exists (to e). split; [destruct e; exact He|].
      apply (Hover e He).
    + apply in_map_iff in Hx. destruct Hx as (n & <- & Hn).
      assert (Hin : In n (filter (no_edge_from edges) nodes)).
      { apply filter_In. split; [exact Hn|]. unfold no_edge_from.
        rewrite Hb. reflexivity. }
      destruct (filter (no_edge_from edges) nodes); [destruct Hin|].
      cbn [length]. lia.
Qed.

Lemma metrics_counts_witness :
  exists m,
    calculateGraphMetrics 3 [node_of "A"; node_of "B"] [edge_of "A" "B"]
    = Some m
    /\ rootCount m = 1%nat /\ leafCount m = 1%nat.
Proof.
  eexists. split; [vm_compute; reflexivity|].
  destruct (metrics_counts 3 [node_of "A"; node_of "B"] [edge_of "A" "B"] _
              eq_refl) as (_ & _ & H3 & H4 & _).
  split; [exact H3 | exact H4].
Defined.

Lemma forEach_opt_None {A S : Type} (f : A -> S -> option S) (v : A)
    (l : list A) :
  In v l -> (forall s, f v s = None) -> forall s, forEach_opt f l s = None.
Proof.
  intros Hin Hv. induction l as [|a l IH]; [destruct Hin|].
  intros s. cbn [forEach_opt]. destruct Hin as [->|Hin].
  - rewrite Hv. reflexivity.
  - destruct (f a s); [apply IH; exact Hin | reflexivity].
Qed.

Lemma clos_trans_rt (R : jsstring -> jsstring -> Prop) (a b : jsstring) :
  clos_trans jsstring R a b -> clos_refl_trans jsstring R a b.
Proof.
  intros H. induction H as [a b H|a m b _ IH1 _ IH2].
  - apply rt_step. exact H.
  - eapply rt_trans; eauto.
Qed.

Section MetricsDfs.
Variable graph : jsmap jsstring (list jsstring).

(** A node from which a cycle can be reached makes [dfs] recurse without
    end. *)
Lemma metrics_dfs_runs_away :
  forall fuel u depth m,
    (exists x, clos_refl_trans jsstring (adjacent graph) u x
               /\ clos_trans jsstring (adjacent graph) x x) ->
    metrics_dfs fuel graph u depth m = None.
Proof.
  induction fuel as [|fuel IH]; intros u depth m (x & Hux & Hxx);
    [reflexivity|].
  cbn [metrics_dfs].
  assert (Hnext : exists v, adjacent graph u v
                            /\ clos_refl_trans jsstring (adjacent graph) v x).
  { apply clos_rt_rt1n in Hux. inversion Hux as [|v z Huv Hvx]; subst.
    - apply clos_trans_t1n in Hxx.
      inversion Hxx as [y Hxy|y z Hxy Hyx]; subst.
      + exists x. split; [exact Hxy | apply rt_refl].
      + exists y. split; [exact Hxy|].
        apply clos_t1n_trans in Hyx. apply clos_trans_rt. exact Hyx.
    - exists v. split; [exact Huv | apply clos_rt1n_rt; exact Hvx]. }
  destruct Hnext as (v & Huv & Hvx).
  apply (forEach_opt_None _ v); [exact Huv|].
  intros s. apply IH. exists x. auto.
Qed.

Variable U : list jsstring.
Hypothesis Htarget : forall u v, adjacent graph u v -> In v U.
Hypothesis Hacyclic : forall z, ~ clos_trans jsstring (adjacent graph) z z.

(** On an acyclic graph [dfs] returns, and raises [maxDepth] to the depth
    of the deepest node below the start. *)
Lemma metrics_dfs_acyclic :
  forall fuel u depth m P,
    (unseen U P < fuel)%nat ->
    In u U -> ~ In u P ->
    (forall v, In v P -> clos_trans jsstring (adjacent graph) v u) ->
    exists m',
      metrics_dfs fuel graph u depth m = Some m'
      /\ (m <= m')%nat
      /\ (forall c n, edge_walk (adjacent graph) u c n -> (depth + n <= m')%nat)
      /\ (m' = m \/ exists c n, edge_walk (adjacent graph) u c n
                                /\ m' = (depth + n)%nat).
Proof.
  induction fuel as [|fuel IH]; intros u depth m P Hm HU HP Hch; [lia|].
  cbn [metrics_dfs].
  assert (Hm1 : (unseen U (P ++ [u]) < fuel)%nat).
  { assert (Hlt : (unseen U (P ++ [u]) < unseen U P)%nat).
    { apply (unseen_lt U _ _ u); auto.
      - intros x Hx. apply in_app_iff. auto.
      - apply in_app_iff. right. left. reflexivity. }
    lia. }
  assert (Hloop : forall ns m1,
             incl ns (neighbors_of graph u) ->
             exists m',
               forEach_opt (fun neighbor maxDepth =>
                              metrics_dfs fuel graph neighbor (S depth) maxDepth)
                           ns m1 = Some m'
               /\ (m1 <= m')%nat
               /\ (forall v c n, In v ns -> edge_walk (adjacent graph) v c n ->
                                 (S depth + n <= m')%nat)
               /\ (m' = m1 \/ exists v c n,
                      In v ns /\ edge_walk (adjacent graph) v c n
                      /\ m' = (S depth + n)%nat)).
  { induction ns as [|v ns IHns]; intros m1 Hns.
    - exists m1. cbn [forEach_opt]. split; [reflexivity|].
      split; [lia|]. split; [intros v c n []|]. left. reflexivity.
    - cbn [forEach_opt].
      assert (Huv : adjacent graph u v) by (apply Hns; left; reflexivity).
      destruct (IH v (S depth) m1 (P ++ [u])) as (m2 & E2 & Hle2 & Hup2 & Hat2).
      + exact Hm1.
      + eapply Htarget; eauto.
      + intros Hin. apply in_app_iff in Hin. destruct Hin as [Hin|[<-|[]]].
        * apply (Hacyclic v). eapply t_trans; [apply Hch; exact Hin|].
          apply t_step. exact Huv.
        * apply (Hacyclic u). apply t_step. exact Huv.
      + intros w Hw. apply in_app_iff in Hw. destruct Hw as [Hw|[<-|[]]].
        * eapply t_trans; [apply Hch; exact Hw | apply t_step; exact Huv].
        * apply t_step. exact Huv.
      + rewrite E2.
        destruct (IHns m2) as (m3 & E3 & Hle3 & Hup3 & Hat3).
        { intros x Hx. apply Hns. right. exact Hx. }
        exists m3. split; [exact E3|]. split; [lia|]. split.
        * intros w c n [<-|Hw] Hwalk.
          -- specialize (Hup2 c n Hwalk). lia.
          -- apply (Hup3 w c n Hw Hwalk).
        * destruct Hat3 as [->|(w & c & n & Hw & Hwalk & ->)].
          -- destruct Hat2 as [->|(c & n & Hwalk & ->)].
             ++ left. reflexivity.
             ++ right. exists v, c, n. split; [left; reflexivity|]. auto.
          -- right. exists w, c, n. split; [right; exact Hw|]. auto. }
  destruct (Hloop (neighbors_of graph u) (Nat.max m depth))
    as (m' & E & Hle & Hup & Hat); [apply incl_refl|].
  exists m'. split; [exact E|]. split; [lia|]. split.
  - intros c n Hwalk. inversion Hwalk as [|a b c' n' Hab Hbc]; subst.
    + lia.
    + specialize (Hup b c n' Hab Hbc). lia.
  - destruct Hat as [->|(v & c & n & Hv & Hwalk & ->)].
    + destruct (Nat.max_spec m depth) as [[_ ->]|[_ ->]].
      * right. exists u, O. split; [apply edge_walk_here | lia].
      * left. reflexivity.
    + right. exists c, (S n). split; [|lia].
      eapply edge_walk_step; [exact Hv | exact Hwalk].
Qed.

(** The loop over the roots. *)
Lemma metrics_roots_acyclic :
  forall (roots : list GraphNode) (fuel m : nat),
    (length U < fuel)%nat ->
    (forall r, In r roots -> In (id r) U) ->
    exists m',
      forEach_opt (fun root maxDepth =>
                     metrics_dfs fuel graph (id root) O maxDepth) roots m
      = Some m'
      /\ (m <= m')%nat
      /\ (forall r c n, In r roots -> edge_walk (adjacent graph) (id r) c n ->
                        (n <= m')%nat)
      /\ (m' = m \/ exists r c, In r roots
                                /\ edge_walk (adjacent graph) (id r) c m').
Proof.
  induction roots as [|r roots IH]; intros fuel m Hf HU.
  - exists m. cbn [forEach_opt]. split; [reflexivity|]. split; [lia|].
    split; [intros r c n []|]. left. reflexivity.
  - cbn [forEach_opt].
    destruct (metrics_dfs_acyclic fuel (id r) O m [])
      as (m1 & E1 & Hle1 & Hup1 & Hat1).
    + pose proof (unseen_le_length U []). lia.
    + apply HU. left. reflexivity.
    + intros [].
    + intros v [].
    + rewrite E1.
      destruct (IH fuel m1 Hf) as (m2 & E2 & Hle2 & Hup2 & Hat2).
      { intros r' Hr'. apply HU. right. exact Hr'. }
      exists m2. split; [exact E2|]. split; [lia|]. split.
      * intros r' c n [<-|Hr'] Hwalk.
        -- specialize (Hup1 c n Hwalk). lia.
        -- apply (Hup2 r' c n Hr' Hwalk).
      * destruct Hat2 as [->|(r' & c & Hr' & Hwalk)].
        -- destruct Hat1 as [->|(c & n & Hwalk & ->)].
           ++ left. reflexivity.
           ++ right. exists r, c. split; [left; reflexivity|]. exact Hwalk.
        -- right. exists r', c. split; [right; exact Hr'|]. exact Hwalk.
Qed.
End MetricsDfs.

Lemma walk_incl (R S : jsstring -> jsstring -> Prop) :
  (forall a b, R a b -> S a b) ->
  forall a c n, edge_walk R a c n -> edge_walk S a c n.
Proof.
  intros H a c n Hw. induction Hw as [a|a b c n Hab _ IH].
  - apply edge_walk_here.
  - eapply edge_walk_step; [apply H; exact Hab | exact IH].
Qed.

(** X21: on a graph without cycle among the edges that start at a node,
    [calculateGraphMetrics] returns once the nesting allowed is more than
    the number of nodes and edges, and [maxDepth] is the number of edges
    of the longest walk that starts at a root: no walk from a root is
    longer, and one of that length exists (or there is no root at all
    and [maxDepth] is 0). *)
Theorem metrics_maxDepth_longest_walk :
  forall (fuel : nat) (nodes : list GraphNode) (edges : list Edge),
    acyclic (out_edges nodes edges) ->
    (length nodes + length edges < fuel)%nat ->
    exists m,
      calculateGraphMetrics fuel nodes edges = Some m
      /\ (forall r c n,
            In r nodes -> no_edge_to edges r = true ->
            edge_walk (edge_rel (out_edges nodes edges)) (id r) c n ->
            (n <= maxDepth m)%nat)
      /\ ((rootCount m = 0%nat /\ maxDepth m = 0%nat)
          \/ exists r c,
               In r nodes /\ no_edge_to edges r = true
               /\ edge_walk (edge_rel (out_edges nodes edges)) (id r) c (maxDepth m)).
Proof.
  intros fuel nodes edges Hac Hfuel.
  set (graph := cycle_graph nodes edges).
  set (U := map id nodes ++ map to edges).
  assert (Hadj : forall a b, adjacent graph a b
                             <-> edge_rel (out_edges nodes edges) a b).
  { intros a b. apply cycle_graph_adjacent. }
  assert (Htarget : forall u v, adjacent graph u v -> In v U).
  { intros u v Huv. apply Hadj in Huv.
    unfold edge_rel, out_edges in Huv. apply filter_In in Huv.
    unfold U. apply in_app_iff. right. apply in_map_iff.
    exists (mkEdge u v). split; [reflexivity | tauto]. }
  assert (Hacg : forall z, ~ clos_trans jsstring (adjacent graph) z z).
  { intros z Hz. apply (Hac z).
    apply (clos_trans_incl (adjacent graph)); [|exact Hz].
    intros a b. apply Hadj. }
  destruct (metrics_roots_leaves nodes edges) as [Hroots Hleaves].
  destruct (metrics_roots_acyclic graph U Htarget Hacg
              (filter (no_edge_to edges) nodes) fuel O)
    as (md & E & _ & Hup & Hat).
  { unfold U. rewrite length_app, !length_map. exact Hfuel. }
  { intros r Hr. apply filter_In in Hr. unfold U. apply in_app_iff. left.
    apply in_map. tauto. }
  unfold calculateGraphMetrics.
  destruct (metrics_degrees nodes edges) as [inD outD] eqn:Ed.
  cbn [fst snd] in Hroots, Hleaves. rewrite Hroots, Hleaves.
  fold graph. rewrite E. eexists. split; [reflexivity|].
  cbn [maxDepth rootCount]. split.
  - intros r c n Hr Hroot Hwalk. apply (Hup r c n).
    + apply filter_In. auto.
    + apply (walk_incl (edge_rel (out_edges nodes edges))); [|exact Hwalk].
      intros a b. apply Hadj.
  - destruct Hat as [->|(r & c & Hr & Hwalk)].
    + destruct (filter (no_edge_to edges) nodes) as [|r l] eqn:Ef.
      * left. auto.
      * right. exists r, (id r).
        assert (Hin : In r (filter (no_edge_to edges) nodes)).
        { rewrite Ef. left. reflexivity. }
        apply filter_In in Hin. destruct Hin as [Hn Hb].
        split; [exact Hn|]. split; [exact Hb | apply edge_walk_here].
    + right. exists r, c. apply filter_In in Hr. destruct Hr as [Hn Hb].
      split; [exact Hn|]. split; [exact Hb|].
      apply (walk_incl (adjacent graph)); [|exact Hwalk].
      intros a b. apply Hadj.
Qed.

(** X22: [dfs] of [calculateGraphMetrics] keeps no visited set.  When a
    root (a node that no edge points to) reaches a cycle through edges
    that start at nodes, the recursion never ends: with no amount of
    nesting does [calculateGraphMetrics] return. *)
Theorem metrics_runs_away :
  forall (nodes : list GraphNode) (edges : list Edge) (r : GraphNode)
         (x : jsstring),
    In r nodes -> no_edge_to edges r = true ->
    clos_refl_trans jsstring (edge_rel (out_edges nodes edges)) (id r) x ->
    clos_trans jsstring (edge_rel (out_edges nodes edges)) x x ->
    forall fuel, calculateGraphMetrics fuel nodes edges = None.
Proof.
  intros nodes edges r x Hr Hroot Hrx Hxx fuel.
  set (graph := cycle_graph nodes edges).
  assert (Hadj : forall a b, edge_rel (out_edges nodes edges) a b
                             -> adjacent graph a b).
  { intros a b. apply cycle_graph_adjacent. }
  destruct (metrics_roots_leaves nodes edges) as [Hroots _].
  unfold calculateGraphMetrics.
  destruct (metrics_degrees nodes edges) as [inD outD] eqn:Ed.
  cbn [fst] in Hroots. rewrite Hroots. fold graph.
  rewrite (forEach_opt_None _ r); [reflexivity | |].
  - apply filter_In. auto.
  - intros s. apply metrics_dfs_runs_away. exists x. split.
    + clear - Hrx Hadj. induction Hrx as [a b H|a|a b c _ IH1 _ IH2].
      * apply rt_step. apply Hadj. exact H.
      * apply rt_refl.
      * eapply rt_trans; eauto.
    + apply (clos_trans_incl (edge_rel (out_edges nodes edges)));
        [exact Hadj | exact Hxx].
Qed.

Lemma metrics_maxDepth_longest_walk_witness :
  exists m,
    calculateGraphMetrics 6 [node_of "A"; node_of "B"; node_of "C"] chain_ABC
    = Some m
    /\ maxDepth m = 2%nat.
Proof.
  destruct (metrics_maxDepth_longest_walk 6
              [node_of "A"; node_of "B"; node_of "C"] chain_ABC)
    as (m & E & _).
  - change (out_edges [node_of "A"; node_of "B"; node_of "C"] chain_ABC)
      with chain_ABC.
    apply (acyclic_of_rank _ (fun k => if keqb k (str "A") then 0
                                       else if keqb k (str "B") then 1
                                       else 2)%nat).
    intros e [<-|[<-|[]]]; cbn; lia.
  - cbn. lia.
  - exists m. split; [exact E|].
    vm_compute in E. inversion E. reflexivity.
Defined.

Lemma metrics_runs_away_witness :
  calculateGraphMetrics 50 [node_of "A"; node_of "B"] loop_edges = None.
Proof.
  apply (metrics_runs_away [node_of "A"; node_of "B"] loop_edges
           (node_of "A") (str "B")).
  - left. reflexivity.
  - vm_compute. reflexivity.
  - apply rt_step. unfold edge_rel. vm_compute. left. reflexivity.
  - apply t_step. unfold edge_rel. vm_compute. right. left. reflexivity.
Defined.

(* ================================================================= *)
(** ** Depth-first walks over a stack *)

Lemma push_fold (c : Edge -> bool) (edges : list Edge) :
  forall st : list jsstring,
    fold_left (fun st edge => if c edge then to edge :: st else st) edges st
    = rev (map to (filter c edges)) ++ st.
Proof.
  induction edges as [|e edges IH]; intros st; cbn [fold_left filter];
    [reflexivity|].
  rewrite IH. destruct (c e); [|reflexivity].
  cbn [map rev]. rewrite <- app_assoc. reflexivity.
Qed.

Lemma filter_map_to (p : jsstring -> bool) (c : Edge -> bool)
    (edges : list Edge) :
  map to (filter (fun e => c e && p (to e)) edges)
  = filter p (map to (filter c edges)).
Proof.
  induction edges as [|e edges IH]; [reflexivity|].
  cbn [filter]. destruct (c e); cbn [andb map filter].
  - destruct (p (to e)); cbn [map]; rewrite IH; reflexivity.
  - exact IH.
Qed.

Lemma group_loop_walk (edges : list Edge) :
  forall fuel stack V,
    group_loop fuel edges stack V V
    = stack_walk (fun _ _ => true) fuel edges stack V.
Proof.
  induction fuel as [|fuel IH]; intros stack V; destruct stack as [|c st];
    cbn [group_loop stack_walk]; try reflexivity.
  destruct (set_has V c); [apply IH|].
  rewrite push_fold, IH. f_equal.
  f_equal. f_equal. symmetry.
  generalize (map to (filter (fun e => keqb (from e) c) edges)) as l.
  induction l as [|x l IHl]; [reflexivity|]. cbn [filter]. f_equal. exact IHl.
Qed.

Lemma runDFS_loop_walk (edges : list Edge) :
  forall fuel stack V,
    runDFS_loop fuel edges stack V V
    = stack_walk (fun V t => negb (set_has V t)) fuel edges stack V.
Proof.
  induction fuel as [|fuel IH]; intros stack V; destruct stack as [|c st];
    cbn [runDFS_loop stack_walk]; try reflexivity.
  destruct (set_has V c) eqn:Ec; [apply IH|].
  rewrite push_fold.
  rewrite (filter_map_to (fun t => negb (set_has (set_add V c) t))
                         (fun e => keqb (from e) c)).
  assert (Ea : V ++ [c] = set_add V c).
  { unfold set_add. rewrite Ec. reflexivity. }
  rewrite Ea. apply IH.
Qed.

Lemma unexpanded_add (edges : list Edge) (V : jsset jsstring) (c : jsstring) :
  ~ In c V ->
  (unexpanded edges (set_add V c)
   + length (filter (fun e => keqb (from e) c) edges))%nat
  = unexpanded edges V.
Proof.
  intros Hc. unfold unexpanded.
  induction edges as [|e edges IH]; [reflexivity|].
  cbn [filter].
  destruct (keqb_spec (from e) c) as [E|Hne].
  - assert (H1 : set_has (set_add V c) (from e) = true).
    { apply set_has_In, set_add_In. auto. }
    assert (H2 : set_has V (from e) = false).
    { apply set_has_false. rewrite E. exact Hc. }
    rewrite H1, H2. cbn [negb length]. lia.
  - assert (H1 : set_has (set_add V c) (from e) = set_has V (from e)).
    { destruct (set_has V (from e)) eqn:Ev.
      - apply set_has_In, set_add_In. left. apply set_has_In. exact Ev.
      - apply set_has_false. intros Hin. apply set_add_In in Hin.
        apply set_has_false in Ev. tauto. }
    rewrite H1. destruct (set_has V (from e)); cbn [negb length]; lia.
Qed.

Section StackWalk.
Variables (keep : jsset jsstring -> jsstring -> bool) (edges : list Edge).
Variable head : jsstring.
Hypothesis Hkeep : forall V t, keep V t = false -> In t V.

(** The walk ends, and it ends with the visited set closed under the
    edges, once every pending node is on the stack. *)
Lemma stack_walk_spec :
  forall fuel stack V,
    (length stack + unexpanded edges V <= fuel)%nat ->
    NoDup V ->
    (forall v, In v V -> clos_refl_trans jsstring (edge_rel edges) head v) ->
    (forall s, In s stack -> clos_refl_trans jsstring (edge_rel edges) head s) ->
    (forall v w, In v V -> edge_rel edges v w -> In w V \/ In w stack) ->
    exists V' new,
      stack_walk keep fuel edges stack V = Some V'
      /\ V' = V ++ new
      /\ NoDup V'
      /\ (forall k, In k V' -> clos_refl_trans jsstring (edge_rel edges) head k)
      /\ (forall v w, In v V' -> edge_rel edges v w -> In w V')
      /\ incl stack V'.
Proof.
  induction fuel as [|fuel IH]; intros stack V Hm Hnd Hreach Hstack Hclosed.
  - destruct stack as [|c st]; [|cbn [length] in Hm; lia].
    exists V, []. cbn [stack_walk]. rewrite app_nil_r.
    split; [reflexivity|]. split; [reflexivity|]. split; [exact Hnd|].
    split; [exact Hreach|]. split; [|intros x []].
    intros v w Hv Hvw. destruct (Hclosed v w Hv Hvw) as [H|[]]. exact H.
  - destruct stack as [|c st].
    { exists V, []. cbn [stack_walk]. rewrite app_nil_r.
      split; [reflexivity|]. split; [reflexivity|]. split; [exact Hnd|].
      split; [exact Hreach|]. split; [|intros x []].
      intros v w Hv Hvw. destruct (Hclosed v w Hv Hvw) as [H|[]]. exact H. }
    cbn [stack_walk]. cbn [length] in Hm.
    destruct (set_has V c) eqn:Ec.
    + apply set_has_In in Ec.
      destruct (IH st V) as (V' & new & E & EV & Hnd' & Hr' & Hc' & Hi').
      * lia.
      * exact Hnd.
      * exact Hreach.
      * intros s Hs. apply Hstack. right. exact Hs.
      * intros v w Hv Hvw. destruct (Hclosed v w Hv Hvw) as [H|[<-|H]]; auto.
      * exists V', new. split; [exact E|]. split; [exact EV|].
        split; [exact Hnd'|]. split; [exact Hr'|]. split; [exact Hc'|].
        intros x [<-|Hx]; [|apply Hi'; exact Hx].
        rewrite EV. apply in_app_iff. left. exact Ec.
    + apply set_has_false in Ec.
      set (V1 := set_add V c).
      set (pushed := filter (keep V1)
                            (map to (filter (fun e => keqb (from e) c) edges))).
      assert (EV1 : V1 = V ++ [c]) by (apply set_add_fresh; exact Ec).
      assert (Hc_reach : clos_refl_trans jsstring (edge_rel edges) head c).
      { apply Hstack. left. reflexivity. }
      assert (Htargets : forall w, edge_rel edges c w <->
                 In w (map to (filter (fun e => keqb (from e) c) edges))).
      { intros w. rewrite in_map_iff. unfold edge_rel. split.
        - intros He. exists (mkEdge c w). split; [reflexivity|].
          apply filter_In. split; [exact He|]. cbn [from]. apply keqb_refl.
        - intros (e & <- & He). apply filter_In in He. destruct He as [He Hf].
          apply keqb_true in Hf. subst c. destruct e. exact He. }
      destruct (IH (rev pushed ++ st) V1)
        as (V' & new & E & EV & Hnd' & Hr' & Hc' & Hi').
      * pose proof (unexpanded_add edges V c Ec) as Hu. fold V1 in Hu.
        rewrite length_app, length_rev.
        assert (Hp : (length pushed
                      <= length (filter (fun e => keqb (from e) c) edges))%nat).
        { unfold pushed. etransitivity; [apply filter_length_le|].
          rewrite length_map. lia. }
        lia.
      * unfold V1. apply set_add_NoDup. exact Hnd.
      * intros v Hv. apply set_add_In in Hv.
        destruct Hv as [Hv| ->]; [apply Hreach; exact Hv | exact Hc_reach].
      * intros s Hs. apply in_app_iff in Hs. destruct Hs as [Hs|Hs].
        -- apply in_rev in Hs. unfold pushed in Hs. apply filter_In in Hs.
           destruct Hs as [Hs _]. apply Htargets in Hs.
           eapply rt_trans; [exact Hc_reach | apply rt_step; exact Hs].
        -- apply Hstack. right. exact Hs.
      * intros v w Hv Hvw. apply set_add_In in Hv. destruct Hv as [Hv| ->].
        -- destruct (Hclosed v w Hv Hvw) as [H|[<-|H]].
           ++ left. apply set_add_In. auto.
           ++ left. apply set_add_In. auto.
           ++ right. apply in_app_iff. auto.
        -- destruct (keep V1 w) eqn:Ek.
           ++ right. apply in_app_iff. left. apply in_rev.
              rewrite rev_involutive. unfold pushed. apply filter_In.
              split; [apply Htargets; exact Hvw | exact Ek].
           ++ left. apply Hkeep in Ek. exact Ek.
      * exists V', ([c] ++ new). split; [exact E|].
        split; [rewrite EV, EV1, <- app_assoc; reflexivity|].
        split; [exact Hnd'|]. split; [exact Hr'|]. split; [exact Hc'|].
        intros x [<-|Hx].
        -- rewrite EV. apply in_app_iff. left. apply set_add_In. auto.
        -- apply Hi'. apply in_app_iff. auto.
Qed.

(** From the stack that holds only the start, the walk visits exactly
    the nodes that the start reaches, each once, the start first. *)
Lemma stack_walk_from_start :
  exists V',
    stack_walk keep (S (length edges)) edges [head] [] = Some V'
    /\ NoDup V'
    /\ hd_error V' = Some head
    /\ forall k, In k V' <-> clos_refl_trans jsstring (edge_rel edges) head k.
Proof.
  cbn [stack_walk set_has]. change (set_add [] head) with [head].
  set (pushed := filter (keep [head])
                        (map to (filter (fun e => keqb (from e) head) edges))).
  assert (Htargets : forall w, edge_rel edges head w <->
             In w (map to (filter (fun e => keqb (from e) head) edges))).
  { intros w. rewrite in_map_iff. unfold edge_rel. split.
    - intros He. exists (mkEdge head w). split; [reflexivity|].
      apply filter_In. split; [exact He|]. cbn [from]. apply keqb_refl.
    - intros (e & <- & He). apply filter_In in He. destruct He as [He Hf].
      apply keqb_true in Hf. subst head. destruct e. exact He. }
  destruct (stack_walk_spec (length edges) (rev pushed ++ []) [head])
    as (V' & new & E & EV & Hnd' & Hr' & Hc' & _).
  - pose proof (unexpanded_add edges [] head (fun H => H)) as Hu.
    change (set_add [] head) with [head] in Hu.
    rewrite app_nil_r, length_rev.
    assert (Hp : (length pushed
                  <= length (filter (fun e => keqb (from e) head) edges))%nat).
    { unfold pushed. etransitivity; [apply filter_length_le|].
      rewrite length_map. lia. }
    assert (Hall : (unexpanded edges [] <= length edges)%nat).
    { unfold unexpanded. apply filter_length_le. }
    lia.
  - constructor; [intros [] | constructor].
  - intros v [<-|[]]. apply rt_refl.
  - intros s Hs. rewrite app_nil_r in Hs. apply in_rev in Hs.
    unfold pushed in Hs. apply filter_In in Hs. destruct Hs as [Hs _].
    apply rt_step. apply Htargets. exact Hs.
  - intros v w [<-|[]] Hvw. destruct (keep [head] w) eqn:Ek.
    + right. rewrite app_nil_r. apply in_rev. rewrite rev_involutive.
      unfold pushed. apply filter_In.
      split; [apply Htargets; exact Hvw | exact Ek].
    + left. apply Hkeep in Ek. exact Ek.
  - exists V'. split; [exact E|]. split; [exact Hnd'|].
    split; [rewrite EV; reflexivity|].
    intros k. split; [apply Hr'|].
    intros Hk. assert (Hh : In head V').
    { rewrite EV. left. reflexivity. }
    clear - Hk Hh Hc'. apply clos_rt_rt1n in Hk.
    induction Hk as [|x y z Hxy _ IH]; [exact Hh|].
    apply IH. eapply Hc'; eauto.
Qed.
End StackWalk.

Lemma group_loop_start (edges : list Edge) (head : jsstring) (fuel : nat) :
  group_loop fuel edges [head] [] [head]
  = stack_walk (fun _ _ => true) fuel edges [head] [].
Proof.
  destruct fuel as [|fuel]; [reflexivity|].
  cbn [group_loop stack_walk set_has].
  assert (E : set_add [head] head = [head]).
  { unfold set_add. cbn [set_has]. rewrite keqb_refl. reflexivity. }
  rewrite E. change (set_add [] head) with [head].
  rewrite push_fold, group_loop_walk. f_equal. f_equal. f_equal. symmetry.
  generalize (map to (filter (fun e => keqb (from e) head) edges)) as l.
  induction l as [|x l IHl]; [reflexivity|]. cbn [filter]. f_equal. exact IHl.
Qed.

Lemma groupByBranch_fold (edges : list Edge) :
  forall (branches : list (jsstring * jsstring))
         (acc : jsmap jsstring (jsset jsstring)),
    NoDup (map_keys acc ++ map fst branches) ->
    exists result,
      forEach_opt
        (fun (entry : jsstring * jsstring) branchNodes =>
           let '(branchName, headHash) := entry in
           match group_loop (S (length edges)) edges [headHash] [] [headHash]
           with
           | Some members => Some (map_set branchNodes branchName members)
           | None => None
           end) branches acc = Some result
      /\ map_keys result = map_keys acc ++ map fst branches
      /\ (forall k, In k (map_keys acc) -> map_get result k = map_get acc k)
      /\ forall name head, In (name, head) branches ->
           exists members,
             map_get result name = Some members
             /\ NoDup members
             /\ hd_error members = Some head
             /\ forall k, In k members
                          <-> clos_refl_trans jsstring (edge_rel edges) head k.
Proof.
  intros branches0. induction branches0 as [|[name head] branches0 IH]; intros acc Hnd.
  - exists acc. cbn [forEach_opt map]. rewrite app_nil_r.
    split; [reflexivity|]. split; [reflexivity|]. split; [auto|].
    intros name head [].
  - cbn [forEach_opt]. rewrite group_loop_start.
    destruct (stack_walk_from_start (fun _ _ => true) edges head)
      as (members & E & Hm1 & Hm2 & Hm3); [intros V t H; discriminate|].
    rewrite E.
    assert (Hfresh : ~ In name (map_keys acc)).
    { cbn [map fst] in Hnd. apply NoDup_remove_2 in Hnd.
      intros Hin. apply Hnd. apply in_app_iff. auto. }
    assert (Hkeys : map_keys (map_set acc name members) = map_keys acc ++ [name]).
    { rewrite map_keys_set.
      destruct (map_has acc name) eqn:Eh; [|reflexivity].
      apply map_has_In in Eh. contradiction. }
    destruct (IH (map_set acc name members)) as (result & Er & Hk & Hold & Hnew).
    { rewrite Hkeys, <- app_assoc. exact Hnd. }
    exists result. split; [exact Er|]. split; [|split].
    + rewrite Hk, Hkeys, <- app_assoc. reflexivity.
    + intros k Hin. rewrite Hold.
      * apply map_get_set_other. intros ->. contradiction.
      * rewrite Hkeys. apply in_app_iff. auto.
    + intros name' head' [Eq|Hin]; [|apply Hnew; exact Hin].
      inversion Eq; subst name' head'. exists members.
      split; [|auto].
      rewrite Hold; [apply map_get_set_same|].
      rewrite Hkeys. apply in_app_iff. right. left. reflexivity.
Qed.

(** X23: [groupByBranch] gives every branch the set of the nodes that
    its head reaches along the edges (the head itself included): the set
    starts with the head, lists every reachable node once and nothing
    else.  The node list plays no part, and the call always returns, also
    on a graph with cycles. *)
Theorem groupByBranch_reachable :
  forall (nodes : list GraphNode) (edges : list Edge)
         (branches : list (jsstring * jsstring)),
    NoDup (map fst branches) ->
    exists result,
      groupByBranch nodes edges branches = Some result
      /\ map_keys result = map fst branches
      /\ forall name head, In (name, head) branches ->
           exists members,
             map_get result name = Some members
             /\ NoDup members
             /\ hd_error members = Some head
             /\ forall k, In k members
                          <-> clos_refl_trans jsstring (edge_rel edges) head k.
Proof.
  intros nodes edges branches Hnd. unfold groupByBranch.
  destruct (groupByBranch_fold edges branches []) as (result & E & Hk & _ & H).
  { exact Hnd. }
  exists result. split; [exact E|]. split; [exact Hk | exact H].
Qed.

Lemma groupByBranch_reachable_witness :
  exists result,
    groupByBranch [] loop_edges [(str "main", str "A")] = Some result
    /\ map_keys result = [str "main"].
Proof.
  destruct (groupByBranch_reachable [] loop_edges [(str "main", str "A")])
    as (result & E & Hk & _).
  - constructor; [intros [] | constructor].
  - exists result. split; [exact E | exact Hk].
Defined.

(** X24: the depth-first traversal of the algorithm panel.  Without a
    start commit [runDFS] reports an error and visits nothing.  With one,
    it always ends, also on a graph with cycles, and the visited list
    starts with the start commit and holds exactly the nodes that the
    start reaches along the edges, each once. *)
Theorem runDFS_visits_reachable :
  forall (startNode : jsstring) (edges : list Edge),
    (truthy startNode = false -> runDFS startNode edges = Some None)
    /\ (truthy startNode = true ->
        exists visited,
          runDFS startNode edges = Some (Some visited)
          /\ NoDup visited
          /\ hd_error visited = Some startNode
          /\ forall k, In k visited
                       <-> clos_refl_trans jsstring (edge_rel edges)
                                           startNode k).
Proof.
  intros startNode edges. unfold runDFS. split.
  - intros ->. reflexivity.
  - intros ->. cbn [negb]. rewrite runDFS_loop_walk.
    destruct (stack_walk_from_start (fun V t => negb (set_has V t)) edges
                startNode) as (V' & E & H1 & H2 & H3).
    { intros V t H. apply negb_false_iff in H. apply set_has_In. exact H. }
    rewrite E. exists V'. cbn [option_map]. auto.
Qed.

Lemma runDFS_visits_reachable_witness :
  runDFS [] loop_edges = Some None
  /\ exists visited,
       runDFS (str "A") loop_edges = Some (Some visited)
       /\ NoDup visited.
Proof.
  split.
  - apply (proj1 (runDFS_visits_reachable [] loop_edges)). reflexivity.
  - destruct (proj2 (runDFS_visits_reachable (str "A") loop_edges) eq_refl)
      as (visited & E & Hnd & _).
    exists visited. split; [exact E | exact Hnd].
Defined.

(* ================================================================= *)
(** ** The snapshot of a repository *)

Lemma fold_set_add_spec {A : Type} (f : A -> jsstring) (l : list A) :
  forall s : jsset jsstring,
    NoDup s ->
    NoDup (fold_left (fun s c => set_add s (f c)) l s)
    /\ forall k, In k (fold_left (fun s c => set_add s (f c)) l s)
                 <-> In k s \/ In k (map f l).
Proof.
  induction l as [|a l IH]; intros s Hs; cbn [fold_left map].
  - split; [exact Hs|]. intros k. cbn [In]. tauto.
  - destruct (IH (set_add s (f a)) (@set_add_NoDup jsstring _ s (f a) Hs))
      as [H1 H2].
    split; [exact H1|]. intros k. rewrite H2, set_add_In. cbn [In].
    intuition congruence.
Qed.

(** The fingerprints that the first loop of [getCommitGraph] collects. *)
Lemma collectCommits_spec (r : GitRepository) :
  well_keyed (objects r) ->
  exists allCommits branches,
    collectCommits r = Some (allCommits, branches)
    /\ NoDup allCommits
    /\ forall k, In k allCommits
                 <-> exists c, in_reach r c /\ GitCommit.hash c = k.
Proof.
  intros Hwk. unfold collectCommits.
  assert (Hgen : forall refs0 A B,
             incl refs0 (refs r) -> NoDup A ->
             exists A' B',
               forEach_opt
                 (fun (ref : jsstring * jsstring) '(allCommits, branches) =>
                    let '(branch, hash) := ref in
                    match getCommitHistory r (Some hash) with
                    | Some history =>
                        Some (fold_left (fun s c => set_add s (GitCommit.hash c))
                                        history allCommits,
                              map_set branches branch hash)
                    | None => None
                    end) refs0 (A, B) = Some (A', B')
               /\ NoDup A'
               /\ (forall k, In k A ->  In k A')
               /\ (forall k, In k A' ->
                     In k A \/ exists c, in_reach r c /\ GitCommit.hash c = k)
               /\ (forall name h k c,
                     In (name, h) refs0 -> truthy h = true ->
                     reaches (objects r) h k ->
                     getObject r k = Some (Commit c) ->
                     In (GitCommit.hash c) A')).
  { induction refs0 as [|[name h] refs0 IH]; intros A B Hin HA.
    - exists A, B. cbn [forEach_opt]. split; [reflexivity|].
      split; [exact HA|]. split; [auto|]. split; [auto|].
      intros name h k c [].
    - cbn [forEach_opt].
      assert (Hhist : exists history,
                 getCommitHistory r (Some h) = Some history
                 /\ (forall c, In c history -> in_reach r c)
                 /\ (truthy h = true ->
                     forall k c, reaches (objects r) h k ->
                                 getObject r k = Some (Commit c) ->
                                 In c history)).
      { destruct (or_head_ref r (Some h)) as [h'|] eqn:Eh.
        2:{ exists []. unfold getCommitHistory. rewrite Eh.
            split; [reflexivity|]. split; [intros c []|].
            intros Ht. cbn [or_head_ref] in Eh. rewrite Ht in Eh.
            discriminate. }
        destruct (truthy h') eqn:Et'.
        2:{ exists []. unfold getCommitHistory. rewrite Eh, Et'.
            split; [reflexivity|]. split; [intros c []|].
            intros Ht. cbn [or_head_ref] in Eh. rewrite Ht in Eh.
            inversion Eh; subst. congruence. }
        destruct (history_visit r (Some h) h' Eh Et')
          as (ks & Eg & _ & _ & Hks).
        exists (commits_of (objects r) ks). split; [exact Eg|].
        assert (Href : exists name', In (name', h') (refs r)).
        { cbn [or_head_ref] in Eh. destruct (truthy h) eqn:Et.
          - inversion Eh; subst h'. exists name. apply Hin. left. reflexivity.
          - exists (HEAD r). apply map_get_In. exact Eh. }
        destruct Href as (name' & Hname').
        split.
        - intros c Hc. apply commits_of_In in Hc.
          destruct Hc as (k & Hk & Ek).
          exists name', h', k. split; [exact Hname'|]. split; [exact Et'|].
          split; [apply Hks; exact Hk | exact Ek].
        - intros Ht k c Hr Ek. cbn [or_head_ref] in Eh. rewrite Ht in Eh.
          inversion Eh; subst h'. apply commits_of_In.
          exists k. split; [apply Hks; exact Hr | exact Ek]. }
      destruct Hhist as (history & Eg & Hsound & Hcompl). rewrite Eg.
      destruct (fold_set_add_spec GitCommit.hash history A HA) as [HA1 HA2].
      destruct (IH (fold_left (fun s c => set_add s (GitCommit.hash c))
                              history A)
                   (map_set B name h))
        as (A' & B' & E & Hnd & Hmono & Hsnd & Hcmp).
      { intros x Hx. apply Hin. right. exact Hx. }
      { exact HA1. }
      exists A', B'. split; [exact E|]. split; [exact Hnd|].
      split; [|split].
      + intros k Hk. apply Hmono. apply HA2. auto.
      + intros k Hk. destruct (Hsnd k Hk) as [Hk1|Hk1]; [|auto].
        apply HA2 in Hk1. destruct Hk1 as [Hk1|Hk1]; [auto|].
        right. apply in_map_iff in Hk1. destruct Hk1 as (c & Ec & Hc).
        exists c. split; [apply Hsound; exact Hc | exact Ec].
      + intros name0 h0 k c [Eq|Hin0] Ht Hr Ek.
        * inversion Eq; subst name0 h0. apply Hmono. apply HA2. right.
          apply in_map. apply (Hcompl Ht k c Hr Ek).
        * apply (Hcmp name0 h0 k c Hin0 Ht Hr Ek). }
  destruct (Hgen (refs r) [] []) as (A' & B' & E & Hnd & _ & Hsnd & Hcmp).
  { apply incl_refl. }
  { constructor. }
  exists A', B'. split; [exact E|]. split; [exact Hnd|].
  intros k. split.
  - intros Hk. destruct (Hsnd k Hk) as [[]|H]. exact H.
  - intros (c & (name & h & k' & Hin & Ht & Hr & Ek) & <-).
    apply (Hcmp name h k' c Hin Ht Hr Ek).
Qed.

(** The second loop of [getCommitGraph] on fingerprints of stored
    commits. *)
Lemma buildGraph_spec (r : GitRepository) :
  forall (allCommits : list jsstring) (nodes0 : list GraphNode)
         (edges0 : list Edge),
    (forall k, In k allCommits ->
               exists c, getObject r k = Some (Commit c)) ->
    forEach_opt
      (fun hash '(nodes, edges) =>
         match getObject r hash with
         | None => Some (nodes, edges)
         | Some (Commit c) =>
             Some (nodes ++ [mkNode (GitCommit.hash c)
                                    (firstn 7 (GitCommit.hash c))
                                    (GitCommit.message c)
                                    (GitCommit.author c)
                                    (GitCommit.timestamp c)
                                    (GitCommit.parents c)],
                   edges ++ map (fun parentHash =>
                                   mkEdge (GitCommit.hash c) parentHash)
                                (GitCommit.parents c))
         | Some _ => None
         end)
      allCommits (nodes0, edges0)
    = Some (nodes0 ++ map commit_node (commits_of (objects r) allCommits),
            edges0 ++ flat_map commit_edges (commits_of (objects r) allCommits)).
Proof.
  induction allCommits as [|k l IH]; intros nodes0 edges0 Hall.
  - cbn [forEach_opt commits_of flat_map map]. rewrite !app_nil_r.
    reflexivity.
  - cbn [forEach_opt].
    destruct (Hall k (or_introl eq_refl)) as (c & Ec). rewrite Ec.
    rewrite IH by (intros k' Hk'; apply Hall; right; exact Hk').
    unfold getObject in Ec.
    change (commits_of (objects r) (k :: l))
      with ((match map_get (objects r) k with
             | Some (Commit c) => [c]
             | _ => []
             end) ++ commits_of (objects r) l).
    rewrite Ec. cbn [app map flat_map].
    rewrite <- !app_assoc. reflexivity.
Qed.

Lemma run_well_keyed (ops : list operation) :
  forall r, well_keyed (objects r) ->
            well_keyed (objects (fold_left apply_op ops r)).
Proof.
  induction ops as [|op ops IH]; intros r Hr; [exact Hr|].
  cbn [fold_left]. apply IH.
  destruct op as [t m a n|b h|b]; cbn [apply_op].
  - unfold commit. cbn [fst objects storeObject obj_hash].
    intros k c. rewrite map_get_set.
    destruct (keqb_spec k (GitCommit.hash
                (GitCommit.new t
                   match map_get (refs r) (HEAD r) with
                   | Some parentHash =>
                       if truthy parentHash then [parentHash] else []
                   | None => []
                   end a m None n))) as [->|Hne].
    + intros E. inversion E. reflexivity.
    + apply Hr.
  - rewrite createBranch_objects. exact Hr.
  - rewrite checkout_objects. exact Hr.
Qed.

(** X25: the snapshot of [getCommitGraph], for a store in which every
    commit is filed under its own fingerprint (as [storeObject] files it;
    this holds in every repository built by commit, createBranch and
    checkout).  The call returns; there is one node per commit in reach of
    some ref, no two nodes share an id, each node carries the fields of
    its commit, the edges are the parent links of the nodes, node after
    node, and HEAD is passed on. *)
Theorem getCommitGraph_wellformed :
  (forall r : GitRepository,
      well_keyed (objects r) ->
      exists g cs,
        getCommitGraph r = Some g
        /\ nodes g = map commit_node cs
        /\ edges g = flat_map commit_edges cs
        /\ g_HEAD g = HEAD r
        /\ NoDup (map id (nodes g))
        /\ forall c, In c cs <-> in_reach r c)
  /\ forall ops : list operation, well_keyed (objects (run ops)).
Proof.
  split.
  - intros r Hwk.
    destruct (collectCommits_spec r Hwk) as (A & B & Ec & Hnd & HA).
    assert (Hall : forall k, In k A ->
                     exists c, getObject r k = Some (Commit c)
                               /\ GitCommit.hash c = k /\ in_reach r c).
    { intros k Hk. apply HA in Hk. destruct Hk as (c & Hc & <-).
      pose proof Hc as (name & h & k' & Hin & Ht & Hr & Ek).
      exists c. unfold getObject in *. rewrite <- (Hwk k' c Ek) in Ek.
      auto. }
    unfold getCommitGraph. rewrite Ec. unfold buildGraph.
    rewrite buildGraph_spec
      by (intros k Hk; destruct (Hall k Hk) as (c & E & _); eauto).
    cbn [app].
    assert (Hhash : map GitCommit.hash (commits_of (objects r) A) = A).
    { clear - Hall. induction A as [|k l IH]; [reflexivity|].
      destruct (Hall k (or_introl eq_refl)) as (c & E & Eh & _).
      unfold getObject in E.
      change (commits_of (objects r) (k :: l))
        with ((match map_get (objects r) k with
               | Some (Commit c) => [c]
               | _ => []
               end) ++ commits_of (objects r) l).
      rewrite E. cbn [app map]. rewrite Eh. f_equal.
      apply IH. intros k' Hk'. apply Hall. right. exact Hk'. }
    eexists. exists (commits_of (objects r) A).
    split; [reflexivity|]. cbn [nodes edges g_HEAD].
    split; [reflexivity|]. split; [reflexivity|]. split; [reflexivity|].
    split.
    + assert (Eids : map id (map commit_node (commits_of (objects r) A)) = A).
      { rewrite map_map. exact Hhash. }
      rewrite Eids. exact Hnd.
    + intros c. rewrite commits_of_In. split.
      * intros (k & Hk & E). destruct (Hall k Hk) as (c' & E' & _ & Hc').
        unfold getObject in E'. rewrite E in E'. inversion E'; subst c'.
        exact Hc'.
      * intros Hc. exists (GitCommit.hash c). split.
        -- apply HA. exists c. auto.
        -- destruct Hc as (name & h & k & _ & _ & _ & Ek).
           unfold getObject in Ek. rewrite (Hwk k c Ek). exact Ek.
  - intros ops. apply run_well_keyed. intros k c E. discriminate.
Qed.

Lemma getCommitGraph_wellformed_witness :
  exists g cs,
    getCommitGraph (fst sample_r4) = Some g
    /\ nodes g = map commit_node cs
    /\ edges g = flat_map commit_edges cs.
Proof.
  destruct (proj1 getCommitGraph_wellformed (fst sample_r4))
    as (g & cs & H1 & H2 & H3 & _).
  - change (fst sample_r4) with (run sample_ops).
    apply (proj2 getCommitGraph_wellformed).
  - exists g, cs. auto.
Defined.

(* ================================================================= *)
(** ** Committing files through the hook *)






(* ================================================================= *)
(** ** From the repository to the drawing *)




(* ================================================================= *)
(** ** The raw text of a blob *)

Lemma uint_units_digits (d : Decimal.uint) :
  Forall (fun c => (48 <= c <= 57)%N) (uint_units d).
Proof.
  induction d; cbn [uint_units]; constructor; auto; lia.
Qed.

Lemma parse_uint_units (d : Decimal.uint) :
  forall acc : nat,
    fold_left (fun a c => (10 * a + (N.to_nat c - 48))%nat) (uint_units d) acc
    = Nat.of_uint_acc d acc.
Proof.
  induction d; intros acc; cbn [uint_units fold_left Nat.of_uint_acc];
    [reflexivity|..];
    rewrite IHd, Nat.tail_mul_spec; f_equal;
    match goal with
    | |- context [N.to_nat ?c] =>
        let v := eval vm_compute in (N.to_nat c - 48)%nat in
        change (N.to_nat c - 48)%nat with v
    end; lia.
Qed.

Lemma before_nul_app (a c : jsstring) :
  Forall (fun x => x <> 0%N) a -> before_nul (a ++ 0%N :: c) = a.
Proof.
  induction 1 as [|x a Hx _ IH]; cbn [app before_nul]; [reflexivity|].
  destruct (N.eqb_spec x 0); [contradiction|]. rewrite IH. reflexivity.
Qed.

Lemma after_nul_app (a c : jsstring) :
  Forall (fun x => x <> 0%N) a -> after_nul (a ++ 0%N :: c) = c.
Proof.
  induction 1 as [|x a Hx _ IH]; cbn [app after_nul]; [reflexivity|].
  destruct (N.eqb_spec x 0); [contradiction|]. exact IH.
Qed.

(** X28: the raw text of a blob can be read back.  The text before the
    first NUL character is the word blob, a space and the decimal digits
    of the content's length; read as a number these digits give that
    length; and the text after the first NUL is the content, unchanged,
    whatever characters it holds. *)
Theorem blob_toString_reads_back :
  forall b : GitBlob.t,
    before_nul (blob_toString b)
    = str "blob " ++ decimal (length (GitBlob.content b))
    /\ parse_decimal (skipn 5 (before_nul (blob_toString b)))
       = length (GitBlob.content b)
    /\ after_nul (blob_toString b) = GitBlob.content b.
Proof.
  intros b. unfold blob_toString.
  set (n := length (GitBlob.content b)).
  assert (Hhead : Forall (fun x => x <> 0%N) (str "blob " ++ decimal n)).
  { apply Forall_app. split.
    - repeat constructor; discriminate.
    - unfold decimal.
      eapply Forall_impl; [|apply uint_units_digits].
      intros c Hc. cbv beta in Hc. lia. }
  rewrite app_assoc.
  rewrite (before_nul_app _ _ Hhead), (after_nul_app _ _ Hhead).
  split; [reflexivity|]. split; [|reflexivity].
  change (skipn 5 (str "blob " ++ decimal n)) with (decimal n).
  unfold parse_decimal, decimal. rewrite parse_uint_units.
  apply DecimalNat.Unsigned.of_to.
Qed.
